(** * stdpipe.catalogs: online catalogue retrieval, photometric augmentation
      and cross-matching

    A shallow embedding of [src/stdpipe/catalogs.py].

    - Python exceptions are values of [pyexc]; a Python computation is a
      function on the chronological trace of external interactions that
      yields an [outcome] (a value or a raised exception) and the new trace.
    - The remote services (Vizier, CDS XMatch, SkyBoT, NED) and the two
      helpers of the sibling module [astrometry] are fields of a [Services]
      record: the answer of a service may depend on everything that
      happened before the call.  Building [SkyCoord], [Time] and unit
      quantities is part of the call they are arguments of.
    - numpy arithmetic is kept abstract in a [Scalar] interface (one
      dtype); the rationals are the executable instance.  Results that only
      follow the data flow hold for every instance, the ones that need the
      order assume [ScalarLaws], which IEEE comparisons satisfy as well.
    - An astropy [Table] is an ordered dictionary of typed columns plus a
      [meta] dictionary.  Tables are rectangular, so the shape checks of
      numpy and astropy never fire and elementwise operations simply pair
      the elements up.  Masked entries exist only in a [MaskedCol];
      arithmetic is on plain numeric columns.
    - numpy expressions over columns are reader computations ([expr])
      evaluated left to right, so that a missing column raises [KeyError]
      at the place where Python would raise it. *)

From Stdlib Require Import QArith Qabs Qfield Lqa ZArith List String Bool Lia PeanoNat.
Import ListNotations.
Open Scope string_scope.

Set Implicit Arguments.

(* ================================================================== *)
(** ** Python exceptions *)

Module Py.

(** The part of the built-in exception hierarchy the module can meet, and
  single-inheritance user classes on top of it. *)
Inductive pyexc : Type :=
| BaseException | KeyboardInterrupt | Exception
| ArithmeticError | ZeroDivisionError | AttributeError
| LookupError | IndexError | KeyError
| OSError | ConnectionError | ConnectionRefusedError | ConnectionResetError
| TimeoutError | FileNotFoundError
| RuntimeError | NotImplementedError | RecursionError
| TypeError | ValueError
| Derived (name : string) (base : pyexc).

Fixpoint pyexc_eqb (c d : pyexc) : bool :=
match c, d with
| BaseException, BaseException | KeyboardInterrupt, KeyboardInterrupt
| Exception, Exception | ArithmeticError, ArithmeticError
| ZeroDivisionError, ZeroDivisionError | AttributeError, AttributeError
| LookupError, LookupError | IndexError, IndexError | KeyError, KeyError
| OSError, OSError | ConnectionError, ConnectionError
| ConnectionRefusedError, ConnectionRefusedError
| ConnectionResetError, ConnectionResetError
| TimeoutError, TimeoutError | FileNotFoundError, FileNotFoundError
| RuntimeError, RuntimeError | NotImplementedError, NotImplementedError
| RecursionError, RecursionError | TypeError, TypeError
| ValueError, ValueError => true
| Derived n b, Derived n' b' => String.eqb n n' && pyexc_eqb b b'
| _, _ => false
end.

(** Direct base class. *)
Definition base_of (c : pyexc) : option pyexc :=
match c with
| BaseException => None
| KeyboardInterrupt | Exception => Some BaseException
| ArithmeticError | AttributeError | LookupError | OSError
| RuntimeError | TypeError | ValueError => Some Exception
| ZeroDivisionError => Some ArithmeticError
| IndexError | KeyError => Some LookupError
| ConnectionError | TimeoutError | FileNotFoundError => Some OSError
| ConnectionRefusedError | ConnectionResetError => Some ConnectionError
| NotImplementedError | RecursionError => Some RuntimeError
| Derived _ b => Some b
end.

(** Method resolution order of a built-in class: the chain of bases. *)
Definition builtin_mro (c : pyexc) : list pyexc :=
let up (x : pyexc) := match base_of x with Some y => [y] | None => [] end in
let l1 := up c in
let l2 := flat_map up l1 in
let l3 := flat_map up l2 in
let l4 := flat_map up l3 in
c :: l1 ++ l2 ++ l3 ++ l4.

Fixpoint mro (c : pyexc) : list pyexc :=
match c with
| Derived _ b => c :: mro b
| _ => builtin_mro c
end.

Definition issubclass (c d : pyexc) : bool := existsb (pyexc_eqb d) (mro c).

(** [except (C1, ..., Cn):] catches [e] when it is an instance of one of
  the listed classes. *)
Definition matches (classes : list pyexc) (e : pyexc) : bool :=
existsb (issubclass e) classes.

Inductive outcome (X : Type) : Type :=
| Return (x : X)
| Raise (e : pyexc).
Arguments Return {X} x.
Arguments Raise {X} e.

Definition obind {X Y} (o : outcome X) (k : X -> outcome Y) : outcome Y :=
match o with
| Return x => k x
| Raise e => Raise e
end.

(** Computations that act on the outside world: the state [W] is the
  trace of interactions so far. *)
Definition M (W X : Type) : Type := W -> outcome X * W.

Definition ret {W X} (x : X) : M W X := fun w => (Return x, w).

Definition raise {W X} (e : pyexc) : M W X := fun w => (Raise e, w).

Definition bind {W X Y} (c : M W X) (k : X -> M W Y) : M W Y :=
fun w => match c w with
         | (Return x, w') => k x w'
         | (Raise e, w') => (Raise e, w')
         end.

(** A pure step that may raise. *)
Definition lift {W X} (o : outcome X) : M W X := fun w => (o, w).

(** [try: body except classes: handler] *)
Definition try_except {W X} (body : M W X) (classes : list pyexc) (handler : M W X)
: M W X :=
fun w => match body w with
         | (Return x, w') => (Return x, w')
         | (Raise e, w') =>
             if matches classes e then handler w' else (Raise e, w')
         end.

End Py.
Import Py.

Notation "x <-? c ;; k" := (obind c (fun x => k))
  (at level 61, c at next level, right associativity).
Notation "x <- c ;; k" := (bind c (fun x => k))
  (at level 61, c at next level, right associativity).
Notation "c ;;; k" := (bind c (fun _ => k))
  (at level 61, right associativity).

(* ================================================================== *)
(** ** Scalars: the arithmetic of one numpy dtype *)

(** The operations numpy applies elementwise.  [lit] reads a Python numeric
    literal, [ln10] is the value of [np.log(10)]. *)
Class Scalar (A : Type) : Type := {
  lit : Q -> A;
  ln10 : A;
  fadd : A -> A -> A;
  fsub : A -> A -> A;
  fmul : A -> A -> A;
  fdiv : A -> A -> A;
  fpow : A -> nat -> A;
  fgt : A -> A -> bool;
  flt : A -> A -> bool
}.

(** What the order-sensitive results need: [>] is [<] flipped, [<] is a
    strict order, and literals compare as the numbers they denote. *)
Class ScalarLaws (A : Type) `{Scalar A} : Prop := {
  fgt_flt : forall a b : A, fgt a b = flt b a;
  flt_asym : forall a b : A, flt a b = true -> flt b a = false;
  flt_trans : forall a b c : A, flt a b = true -> flt b c = true -> flt a c = true;
  flt_lit : forall p q : Q, flt (lit p) (lit q) = true -> (p < q)%Q
}.

Definition Qltb (a b : Q) : bool :=
  match (a ?= b)%Q with Lt => true | _ => false end.

(** Exact rational arithmetic; [ln10] is the double nearest to ln 10. *)
#[export] Instance Q_Scalar : Scalar Q := {|
  lit := fun q => q;
  ln10 := (2592480341699211 # 1125899906842624)%Q;
  fadd := Qplus;
  fsub := Qminus;
  fmul := Qmult;
  fdiv := Qdiv;
  fpow := fun a n => Qpower a (Z.of_nat n);
  fgt := fun a b => Qltb b a;
  flt := Qltb
|}.

(* ================================================================== *)
(** ** Ordered dictionaries (column sets, metadata, the [catalogs] table) *)

Module Dict.
Section Dict.
Variable V : Type.

Definition t := list (string * V).

Fixpoint get (k : string) (d : t) : option V :=
  match d with
  | [] => None
  | (k', v) :: d' => if String.eqb k k' then Some v else get k d'
  end.

Definition contains (k : string) (d : t) : bool :=
  match get k d with Some _ => true | None => false end.

(** [d[k] = v]: replaces in place, or appends a new key at the end. *)
Fixpoint set (k : string) (v : V) (d : t) : t :=
  match d with
  | [] => [(k, v)]
  | (k', v') :: d' =>
      if String.eqb k k' then (k, v) :: d' else (k', v') :: set k v d'
  end.

Definition keys (d : t) : list string := map fst d.

(** The key [old] becomes [new]; position and value stay. *)
Fixpoint rename (old new : string) (d : t) : t :=
  match d with
  | [] => []
  | (k', v') :: d' =>
      if String.eqb old k' then (new, v') :: d' else (k', v') :: rename old new d'
  end.
End Dict.
End Dict.

(* ================================================================== *)
(** ** Tables and numpy expressions *)

Section Tables.
Context {A : Type} `{Scalar A}.

Inductive scalar : Type :=
| SNum (a : A)
| SBool (b : bool)
| SStr (s : string)
| SMasked.

(** A column has one element kind; a [MaskedCol] may hold masked entries. *)
Inductive column : Type :=
| NumCol (data : list A)
| BoolCol (data : list bool)
| StrCol (data : list string)
| MaskedCol (data : list scalar).

Definition col_len (c : column) : nat :=
  match c with
  | NumCol l => List.length l
  | BoolCol l => List.length l
  | StrCol l => List.length l
  | MaskedCol l => List.length l
  end.

(** [c[i]] *)
Definition col_item (c : column) (i : nat) : option scalar :=
  match c with
  | NumCol l => option_map SNum (nth_error l i)
  | BoolCol l => option_map SBool (nth_error l i)
  | StrCol l => option_map SStr (nth_error l i)
  | MaskedCol l => nth_error l i
  end.

Definition col_cells (c : column) : list scalar :=
  match c with
  | NumCol l => map SNum l
  | BoolCol l => map SBool l
  | StrCol l => map SStr l
  | MaskedCol l => l
  end.

(** A scalar repeated down a column of [n] rows. *)
Definition broadcast (s : scalar) (n : nat) : column :=
  match s with
  | SNum a => NumCol (repeat a n)
  | SBool b => BoolCol (repeat b n)
  | SStr x => StrCol (repeat x n)
  | SMasked => MaskedCol (repeat SMasked n)
  end.

Record Table : Type := mkTable {
  columns : Dict.t column;
  meta : Dict.t string
}.

Definition colnames (t : Table) : list string := Dict.keys (columns t).

(** [len(t)]: the number of rows. *)
Definition len (t : Table) : nat :=
  match columns t with
  | [] => 0
  | (_, c) :: _ => col_len c
  end.

(** [bool(t)] for [t] a table or [None]. *)
Definition truthy (r : option Table) : bool :=
  match r with
  | Some t => negb (len t =? 0)%nat
  | None => false
  end.

Definition set_meta (k v : string) (t : Table) : Table :=
  mkTable (columns t) (Dict.set k v (meta t)).

(** [t.rename_column(old, new)] *)
Definition rename_column (old new : string) (t : Table) : outcome Table :=
  if negb (Dict.contains old (columns t)) then Raise KeyError
  else if String.eqb old new then Return t
  else if Dict.contains new (columns t) then Raise KeyError
  else Return (mkTable (Dict.rename old new (columns t)) (meta t)).

(** [t.rename_columns(olds, news)]: one [rename_column] per pair. *)
Fixpoint rename_columns (olds news : list string) (t : Table) : outcome Table :=
  match olds, news with
  | o :: olds', n :: news' =>
      t' <-? rename_column o n t ;; rename_columns olds' news' t'
  | _, _ => Return t
  end.

(** *** Values of numpy expressions *)

Inductive value : Type :=
| VScalar (s : scalar)
| VCol (c : column).

Definition vnum (a : A) : value := VScalar (SNum a).
Definition varr (l : list A) : value := VCol (NumCol l).

Fixpoint map2 {X Y Z : Type} (f : X -> Y -> Z) (l : list X) (l' : list Y) : list Z :=
  match l, l' with
  | x :: r, y :: r' => f x y :: map2 f r r'
  | _, _ => []
  end.

(** Elementwise binary operation with scalar broadcasting. *)
Definition arith (f : A -> A -> A) (a b : value) : outcome value :=
  match a, b with
  | VScalar (SNum x), VScalar (SNum y) => Return (vnum (f x y))
  | VScalar (SNum x), VCol (NumCol l) => Return (varr (map (f x) l))
  | VCol (NumCol l), VScalar (SNum y) => Return (varr (map (fun x => f x y) l))
  | VCol (NumCol l), VCol (NumCol l') => Return (varr (map2 f l l'))
  | _, _ => Raise TypeError
  end.

Definition compare (f : A -> A -> bool) (a b : value) : outcome value :=
  match a, b with
  | VScalar (SNum x), VScalar (SNum y) => Return (VScalar (SBool (f x y)))
  | VScalar (SNum x), VCol (NumCol l) => Return (VCol (BoolCol (map (f x) l)))
  | VCol (NumCol l), VScalar (SNum y) => Return (VCol (BoolCol (map (fun x => f x y) l)))
  | VCol (NumCol l), VCol (NumCol l') => Return (VCol (BoolCol (map2 f l l')))
  | _, _ => Raise TypeError
  end.

(** [a & b] on booleans. *)
Definition bitand (a b : value) : outcome value :=
  match a, b with
  | VScalar (SBool x), VScalar (SBool y) => Return (VScalar (SBool (x && y)))
  | VScalar (SBool x), VCol (BoolCol l) => Return (VCol (BoolCol (map (andb x) l)))
  | VCol (BoolCol l), VScalar (SBool y) => Return (VCol (BoolCol (map (fun x => x && y) l)))
  | VCol (BoolCol l), VCol (BoolCol l') => Return (VCol (BoolCol (map2 andb l l')))
  | _, _ => Raise TypeError
  end.

(** [a ** n] for a literal exponent. *)
Definition power (a : value) (n : nat) : outcome value :=
  match a with
  | VScalar (SNum x) => Return (vnum (fpow x n))
  | VCol (NumCol l) => Return (varr (map (fun x => fpow x n) l))
  | _ => Raise TypeError
  end.

Definition zeros_like (a : value) : outcome value :=
  match a with
  | VScalar (SNum _) => Return (vnum (lit 0))
  | VCol (NumCol l) => Return (varr (map (fun _ => lit 0) l))
  | _ => Raise TypeError
  end.

(** [np.polyval(p, x)]: Horner's scheme, [y = y * x + pv] for each
    coefficient, highest degree first. *)
Definition np_polyval (p : list Q) (x : value) : outcome value :=
  fold_left
    (fun (acc : outcome value) (pv : Q) =>
       y <-? acc ;; yx <-? arith fmul y x ;; arith fadd yx (vnum (lit pv)))
    p (zeros_like x).

(** [a[m]] for a boolean mask [m]: the selected elements, in order. *)
Fixpoint compress (m : list bool) (l : list A) : list A :=
  match m, l with
  | b :: m', x :: l' => if b then x :: compress m' l' else compress m' l'
  | _, _ => []
  end.

Definition mask_index (a m : value) : outcome value :=
  match a, m with
  | VCol (NumCol l), VCol (BoolCol bs) => Return (varr (compress bs l))
  | _, _ => Raise TypeError
  end.

(** [a[m] = vals] for a boolean mask [m]: the selected positions take
    the elements of [vals] in order. *)
Fixpoint scatter (m : list bool) (vals : list A) (l : list A) : list A :=
  match m, l with
  | b :: m', x :: l' =>
      if b then
        match vals with
        | v :: vals' => v :: scatter m' vals' l'
        | [] => x :: scatter m' [] l'
        end
      else x :: scatter m' vals l'
  | _, _ => l
  end.

Definition mask_assign (a m vals : value) : outcome value :=
  match a, m, vals with
  | VCol (NumCol l), VCol (BoolCol bs), VCol (NumCol vs) =>
      Return (varr (scatter bs vs l))
  | _, _, _ => Raise TypeError
  end.

(** *** Expressions over the columns of a table *)

Definition expr : Type := Table -> outcome value.

(** [cat['name']] *)
Definition col (name : string) : expr :=
  fun t => match Dict.get name (columns t) with
           | Some c => Return (VCol c)
           | None => Raise KeyError
           end.

(** A numeric literal. *)
Definition num (q : Q) : expr := fun _ => Return (vnum (lit q)).

(** A local variable holding an already computed value. *)
Definition var (v : value) : expr := fun _ => Return v.

Definition lift2 (op : value -> value -> outcome value) (e1 e2 : expr) : expr :=
  fun t => a <-? e1 t ;; b <-? e2 t ;; op a b.

Definition eadd := lift2 (arith fadd).
Definition esub := lift2 (arith fsub).
Definition emul := lift2 (arith fmul).
Definition ediv := lift2 (arith fdiv).
Definition egt := lift2 (compare fgt).
Definition elt := lift2 (compare flt).
Definition eand := lift2 bitand.
Definition epow (e : expr) (n : nat) : expr := fun t => a <-? e t ;; power a n.
Definition polyval (p : list Q) (e : expr) : expr :=
  fun t => x <-? e t ;; np_polyval p x.
Definition eindex := lift2 mask_index.

(** [cat['name'] = e] *)
Definition to_column (v : value) (t : Table) : outcome column :=
  match v with
  | VCol c => Return c
  | VScalar s =>
      if (len t =? 0)%nat then Raise TypeError else Return (broadcast s (len t))
  end.

Definition setitem (name : string) (e : expr) (t : Table) : outcome Table :=
  v <-? e t ;;
  c <-? to_column v t ;;
  Return (mkTable (Dict.set name c (columns t)) (meta t)).

(** [cat['name'] &= e] *)
Definition setitem_and (name : string) (e : expr) (t : Table) : outcome Table :=
  setitem name (eand (col name) e) t.

End Tables.

Declare Scope np_scope.
Delimit Scope np_scope with np.
Notation "a + b" := (eadd a b) : np_scope.
Notation "a - b" := (esub a b) : np_scope.
Notation "a * b" := (emul a b) : np_scope.
Notation "a / b" := (ediv a b) : np_scope.
Notation "a > b" := (egt a b) : np_scope.
Notation "a < b" := (elt a b) : np_scope.
Notation "a & b" := (eand a b) (at level 56, left associativity) : np_scope.
Notation "a ** n" := (epow a n) (at level 30, right associativity) : np_scope.
Notation "a .[ m ]" := (eindex a m) (at level 1, left associativity, format "a .[ m ]") : np_scope.
Notation "$ q" := (num q%Q) (at level 1, q at level 0, format "$ q") : np_scope.

(* ================================================================== *)
(** ** The outside world *)

Section World.
Context {A : Type} `{Scalar A}.

(** What a Python function of the module hands back. *)
Inductive retval : Type :=
| RNone
| RList (l : list (@Table A))
| RTable (t : @Table A).

(** Arguments of [print] and of a [print]-like callable. *)
Inductive pyarg : Type :=
| PStr (s : string)
| PNum (a : A)
| PInt (n : nat)
| PStrList (l : list string)
| PDict (d : list (string * string)).

(** A [Vizier(row_limit, columns, column_filters)] client and the
    arguments of one [query_region] call on it. *)
Record VizierRequest : Type := mkVizierRequest {
  row_limit : Z;
  req_columns : list string;
  column_filters : list (string * string);
  req_ra : A;
  req_dec : A;
  req_radius : A;
  req_catalog : string;
  req_cache : bool
}.

Inductive event : Type :=
| Printed (args : list pyarg)
| Called (args : list pyarg)
| VizierQuery (q : VizierRequest)
| XMatchQuery (cat1 : @Table A) (cat2 : string) (max_distance : A) (colRA1 colDec1 : string)
| SkybotConeSearch (ra dec radius : A) (epoch : option string)
| NedQuery (ra dec radius : A).

Definition trace : Type := list event.

(** The collaborators.  A service sees the trace up to its call; the two
    [astrometry] helpers are functions of their arguments. *)
Record Services : Type := mkServices {
  vizier_query_region : trace -> VizierRequest -> outcome (option (list (@Table A)));
  xmatch_query : trace -> @Table A -> string -> A -> string -> string -> outcome (@Table A);
  skybot_cone_search : trace -> A -> A -> A -> option string -> outcome (@Table A);
  ned_query_region : trace -> A -> A -> A -> outcome (option (@Table A));
  get_objects_center : @Table A -> outcome (A * A * A);
  spherical_match :
    @column A -> @column A -> @column A -> @column A -> A ->
    outcome (list nat * list nat * list A)
}.

(** One interaction: the answer is computed from the past, the event is
    appended to it. *)
Definition call {X} (ev : event) (reply : trace -> outcome X) : M trace X :=
  fun w => (reply w, (w ++ [ev])%list).

Definition print_ (args : list pyarg) : M trace unit :=
  call (Printed args) (fun _ => Return tt).

(** The [verbose] argument: false, true, or a [print]-like callable. *)
Inductive verbosity : Type := Quiet | Verbose | Callback.

(** [log = (verbose if callable(verbose) else print) if verbose
           else lambda *args, **kwargs: None] *)
Definition log (verbose : verbosity) (args : list pyarg) : M trace unit :=
  match verbose with
  | Quiet => ret tt
  | Verbose => print_ args
  | Callback => call (Called args) (fun _ => Return tt)
  end.

End World.

(* ================================================================== *)
(** ** The [catalogs] table *)

Record descriptor : Type := mkDescriptor {
  vizier : string;
  name : string;
  extra_columns : option (list string)
}.

Definition catalogs : Dict.t descriptor := [
  ("ps1", mkDescriptor "II/349/ps1" "PanSTARRS DR1" None);
  ("gaiadr2", mkDescriptor "I/345/gaia2" "Gaia DR2" (Some ["E(BR/RP)"]));
  ("gaiaedr3", mkDescriptor "I/350/gaiaedr3" "Gaia EDR3" None);
  ("gaiadr3syn", mkDescriptor "I/360/syntphot" "Gaia EDR3"
     (Some ["**"; "_RAJ2000"; "_DEJ2000"]));
  ("usnob1", mkDescriptor "I/284/out" "USNO-B1" None);
  ("gsc", mkDescriptor "I/271/out" "GSC 2.2" None);
  ("skymapper", mkDescriptor "II/358/smss" "SkyMapper DR1.1" None);
  ("vsx", mkDescriptor "B/vsx/vsx" "AAVSO VSX" None);
  ("apass", mkDescriptor "II/336/apass9" "APASS DR9" None);
  ("sdss", mkDescriptor "V/147/sdss12" "SDSS DR12" (Some ["_RAJ2000"; "_DEJ2000"]));
  ("atlas", mkDescriptor "J/ApJ/867/105/refcat2" "ATLAS-REFCAT2"
     (Some ["_RAJ2000"; "_DEJ2000"; "e_Gmag"; "e_gmag"; "e_rmag"; "e_imag";
            "e_zmag"; "e_Jmag"; "e_Kmag"]))
].

(** [d.get('extra', [])] *)
Definition get_extra (d : descriptor) : list string :=
  match extra_columns d with Some l => l | None => [] end.

(* ================================================================== *)
(** ** [get_cat_vizier] *)

Section GetCatVizier.
Context {A : Type} `{Scalar A}.
Local Open Scope np_scope.

Let stmt : Type := @Table A -> outcome (@Table A).

(** Statements executed one after the other on the same table. *)
Definition block (l : list stmt) : stmt :=
  fun t => fold_left (fun acc s => t' <-? acc ;; s t') l (Return t).

(** [np.log(10)] *)
Definition np_log_10 : @expr A := fun _ => Return (vnum ln10).

(** [target[mask] = rhs], for a local array [target]: the right-hand
    side is evaluated first. *)
Definition assign_where (target : @value A) (mask rhs : @expr A)
  : @Table A -> outcome (@value A) :=
  fun t => v <-? rhs t ;; m <-? mask t ;; mask_assign target m v.

(** *** ps1 and atlas (lines 105-131) *)

Definition pB1 : list Q :=
  [0.10339527794499666; -0.492149523946056; 1.2093816061394638; 0.061925048331498395]%Q.
Definition pB2 : list Q :=
  [-0.2571974580267897; 0.9211495207523038; -0.8243222108864755; 0.0619250483314976]%Q.
Definition pV1 : list Q :=
  [-0.011452922062676726; -9.949308251868327e-05; -0.4650511584366353; -0.007076854914511554]%Q.
Definition pV2 : list Q :=
  [0.012749150754020416; 0.057554580469724864; -0.09019328095355343; -0.007076854914511329]%Q.
Definition pR1 : list Q :=
  [0.004905242602502597; -0.046545625824660514; 0.07830702317352654; -0.08438139204305026]%Q.
Definition pR2 : list Q :=
  [-0.07782426914647306; 0.14090289318728444; -0.3634922073369279; -0.08438139204305031]%Q.
Definition pI1 : list Q :=
  [-0.02274814414922734; 0.048462952908062046; -0.046965058282604985; -0.19478935830847588]%Q.
Definition pI2 : list Q :=
  [0.025124060889537177; -0.048672562735374666; -1.199591061144479; -0.1947893583084762]%Q.

Definition augment_ps1 : stmt := block [
  setitem "B" (col "gmag" + polyval pB1 (col "gmag" - col "rmag")
                          + polyval pB2 (col "rmag" - col "imag"));
  setitem "V" (col "gmag" + polyval pV1 (col "gmag" - col "rmag")
                          + polyval pV2 (col "rmag" - col "imag"));
  setitem "R" (col "rmag" + polyval pR1 (col "gmag" - col "rmag")
                          + polyval pR2 (col "rmag" - col "imag"));
  setitem "I" (col "imag" + polyval pI1 (col "gmag" - col "rmag")
                          + polyval pI2 (col "imag" - col "zmag"));

  setitem "good" ((col "gmag" - col "rmag" > $(-0.5)) & (col "gmag" - col "rmag" < $2.5));
  setitem_and "good" ((col "rmag" - col "imag" > $(-0.5)) & (col "rmag" - col "imag" < $2.0));
  setitem_and "good" ((col "imag" - col "zmag" > $(-0.5)) & (col "imag" - col "zmag" < $1.0));

  setitem "g_SDSS" (col "gmag" + $0.013 + $0.145 * (col "gmag" - col "rmag")
                               + $0.019 * (col "gmag" - col "rmag") ** 2);
  setitem "r_SDSS" (col "rmag" - $0.001 + $0.004 * (col "gmag" - col "rmag")
                               + $0.007 * (col "gmag" - col "rmag") ** 2);
  setitem "i_SDSS" (col "imag" - $0.005 + $0.011 * (col "gmag" - col "rmag")
                               + $0.010 * (col "gmag" - col "rmag") ** 2);
  setitem "z_SDSS" (col "zmag")
].

(** *** gaiadr2 (lines 133-170) *)

Definition pB : list Q :=
  [-0.05927724559795761; 0.4224326324292696; 0.626219707920836; -0.011211539139725953]%Q.
Definition pV : list Q :=
  [0.0017624722901609662; 0.15671377090187089; 0.03123927839356175; 0.041448557506784556]%Q.
Definition pR : list Q :=
  [0.02045449129406191; 0.054005149296716175; -0.3135475489352255; 0.020545083667168156]%Q.
Definition pI : list Q :=
  [0.005092289380850884; 0.07027022935721515; -0.7025553064161775; -0.02747532184796779]%Q.
Definition pCB : list Q :=
  [876.4047401692277; 5.114021693079334; -2.7332873314449326; 0]%Q.
Definition pCV : list Q :=
  [98.03049528983964; 20.582521666713028; 0.8690079603974803; 0]%Q.
Definition pCR : list Q :=
  [347.42190542330945; 39.42482430363565; 0.8626828845232541; 0]%Q.
Definition pCI : list Q :=
  [79.4028706486939; 9.176899238787003; -0.7826315256072135; 0]%Q.

(** Lines 152-155: the corrected copy of the G magnitudes [g]. *)
Definition gcorr (g : @value A) : @Table A -> outcome (@value A) :=
  fun cat =>
    let g := var g in
    gcorr <-? g cat ;;
    gcorr <-? assign_where gcorr ((g > $2) & (g < $6))
                ($(-0.047344) + $1.16405 * g.[(g > $2) & (g < $6)]
                   - $0.046799 * g.[(g > $2) & (g < $6)] ** 2
                   + $0.0035015 * g.[(g > $2) & (g < $6)] ** 3) cat ;;
    gcorr <-? assign_where gcorr ((g > $6) & (g < $16))
                (g.[(g > $6) & (g < $16)] - $0.0032 * (g.[(g > $6) & (g < $16)] - $6)) cat ;;
    assign_where gcorr (g > $16) (g.[g > $16] - $0.032) cat.

Definition augment_gaiadr2 : stmt :=
  fun cat =>
    g <-? col "Gmag" cat ;;
    bp_rp <-? (col "BPmag" - col "RPmag") cat ;;
    Cstar <-? (col "E_BR_RP_"
                 - polyval [-0.00445024; 0.0570293; -0.02810592; 1.20477819]%Q (var bp_rp)) cat ;;
    g <-? gcorr g cat ;;
    let g := var g in
    let bp_rp := var bp_rp in
    let Cstar := var Cstar in
    block [
      setitem "B" (g + polyval pB bp_rp + polyval pCB Cstar);
      setitem "V" (g + polyval pV bp_rp + polyval pCV Cstar);
      setitem "R" (g + polyval pR bp_rp + polyval pCR Cstar);
      setitem "I" (g + polyval pI bp_rp + polyval pCI Cstar);

      setitem "gmag" (col "B" - $0.108 - $0.485 * (col "B" - col "V")
                               - $0.032 * (col "B" - col "V") ** 2);
      setitem "rmag" (col "V" + $0.082 - $0.462 * (col "B" - col "V")
                               + $0.041 * (col "B" - col "V") ** 2);

      setitem "g_SDSS" (g - ($0.13518 - $0.46245 * bp_rp - $0.25171 * bp_rp ** 2
                               + $0.021349 * bp_rp ** 3));
      setitem "r_SDSS" (g - ($(-0.12879) + $0.24662 * bp_rp - $0.027464 * bp_rp ** 2
                               - $0.049465 * bp_rp ** 3));
      setitem "i_SDSS" (g - ($(-0.29676) + $0.64728 * bp_rp - $0.10141 * bp_rp ** 2))
    ] cat.

(** *** skymapper (lines 172-177) *)

Definition augment_skymapper : stmt :=
  block (map (fun x => setitem (x ++ "_PS1") (col (x ++ "PSF")))
             ["u"; "g"; "r"; "i"; "z"]).

(** *** apass (lines 179-189) *)

Definition augment_apass : stmt := block ([
  setitem "Rmag" (col "r_mag" - $0.157 - $0.087 * (col "g_mag" - col "r_mag")
                              - $0.014 * (col "g_mag" - col "r_mag") ** 2);
  setitem "e_Rmag" (col "e_r_mag");
  setitem "Imag" (col "i_mag" - $0.354 - $0.118 * (col "g_mag" - col "r_mag")
                              - $0.004 * (col "g_mag" - col "r_mag") ** 2);
  setitem "e_Imag" (col "e_i_mag")
] ++ map (fun x => setitem x (col (x ++ "mag"))) ["B"; "V"; "R"; "I"])%list.

(** *** gaiadr3syn (lines 191-206) *)

Definition passbands : list string :=
  ["U"; "B"; "V"; "R"; "I"; "u"; "g"; "r"; "i"; "z"; "y"].

Definition pg : list Q :=
  [-0.030414391501015867; -0.09960002492299584; -0.002910024005294562]%Q.
Definition pr : list Q :=
  [-0.009566553708653305; 0.014924591443344211; -0.003928147919030857]%Q.
Definition pi : list Q :=
  [-0.010802807724098494; 0.01124900218746879; 0.01274293783734852]%Q.
Definition pz : list Q :=
  [-0.0031896767661109523; 0.06537983414287968; 0.007695587806229381]%Q.

Definition augment_gaiadr3syn : stmt := block (
  map (fun name => setitem ("e_" ++ name ++ "mag")
                     ($2.5 / np_log_10 * col ("e_F" ++ name) / col ("F" ++ name)))
      passbands
  ++ [
  setitem "g_ps1" (col "gmag" + polyval pg (col "gmag" - col "rmag"));
  setitem "r_ps1" (col "rmag" + polyval pr (col "gmag" - col "rmag"));
  setitem "i_ps1" (col "imag" + polyval pi (col "gmag" - col "rmag"));
  setitem "z_ps1" (col "zmag" + polyval pz (col "gmag" - col "rmag"))
])%list.

(** Lines 105-206: the [if]/[elif] chain on the catalogue name. *)
Definition augment (catalog : string) : stmt :=
  if (catalog =? "ps1") || (catalog =? "atlas") then augment_ps1
  else if catalog =? "gaiadr2" then augment_gaiadr2
  else if catalog =? "skymapper" then augment_skymapper
  else if catalog =? "apass" then augment_apass
  else if catalog =? "gaiadr3syn" then augment_gaiadr3syn
  else fun cat => Return cat.

(** Lines 99-101: [_RAJ2000]/[_DEJ2000] become the canonical pair. *)
Definition fix_radec : stmt :=
  fun cat =>
    if Dict.contains "_RAJ2000" (columns cat)
       && Dict.contains "_DEJ2000" (columns cat)
       && negb (Dict.contains "RAJ2000" (columns cat))
    then rename_columns ["_RAJ2000"; "_DEJ2000"] ["RAJ2000"; "DEJ2000"] cat
    else Return cat.

Variable svc : @Services A.

(** [vizier.query_region(SkyCoord(ra0, dec0, unit='deg'), radius=sr0*u.deg,
                         catalog=vizier_id, cache=...)] *)
Definition query_region (q : @VizierRequest A)
  : M (@trace A) (option (list (@Table A))) :=
  call (VizierQuery q) (fun w => vizier_query_region svc w q).

(** [not cats or not len(cats) == 1] *)
Definition not_one_result (cats : option (list (@Table A))) : bool :=
  match cats with
  | None | Some [] => true
  | Some l => negb (List.length l =? 1)%nat
  end.

(** [cats[0]] *)
Definition first_table (cats : option (list (@Table A))) : outcome (@Table A) :=
  match cats with
  | Some (t :: _) => Return t
  | Some [] => Raise IndexError
  | None => Raise TypeError
  end.

(** Lines 93-208, once [cats] holds one result set. *)
Definition finish_cat (catalog vizier_id name : string) (verbose : verbosity)
    (cats : option (list (@Table A))) : M (@trace A) (@retval A) :=
  cat <- lift (first_table cats) ;;
  let cat := set_meta "vizier_id" vizier_id cat in
  let cat := set_meta "name" name cat in
  log verbose [PStr "Got"; PInt (len cat); PStr "entries with";
               PInt (List.length (colnames cat)); PStr "columns"] ;;;
  cat <- lift (fix_radec cat) ;;
  cat <- lift (augment catalog cat) ;;
  ret (RTable cat).

(** Lines 68-77: the Vizier identifier, the display name and the
    requested columns. *)
Definition resolve (catalog : string) (extra : list string)
  : string * string * list string :=
  let default := ["*"; "RAJ2000"; "DEJ2000"; "e_RAJ2000"; "e_DEJ2000"] in
  match Dict.get catalog catalogs with
  | Some d => (vizier d, name d, (default ++ extra ++ get_extra d)%list)
  | None => (catalog, catalog, (default ++ extra)%list)
  end.

(** Lines 79-81. *)
Definition announce (verbose : verbosity) (vizier_id : string) (columns : list string)
    (ra0 dec0 sr0 : A) (filters : list (string * string)) : M (@trace A) unit :=
  log verbose [PStr "Requesting from VizieR:"; PStr vizier_id;
               PStr "columns:"; PStrList columns] ;;;
  log verbose [PStr "Center:"; PNum ra0; PNum dec0; PStr "radius:"; PNum sr0] ;;;
  log verbose [PStr "Filters:"; PDict filters].

Definition get_cat_vizier (ra0 dec0 sr0 : A) (catalog : string) (limit : Z)
    (filters : list (string * string)) (extra : list string) (verbose : verbosity)
  : M (@trace A) (@retval A) :=
  let '(vizier_id, name, columns) := resolve catalog extra in
  announce verbose vizier_id columns ra0 dec0 sr0 filters ;;;
  let vizier := mkVizierRequest limit columns filters ra0 dec0 sr0 vizier_id in
  cats <- query_region (vizier true) ;;
  if not_one_result cats then
    cats <- query_region (vizier false) ;;
    if not_one_result cats then
      print_ [PStr "Error requesting catalogue"; PStr catalog] ;;;
      ret RNone
    else finish_cat catalog vizier_id name verbose cats
  else finish_cat catalog vizier_id name verbose cats.

End GetCatVizier.

(* ================================================================== *)
(** ** Cross-matching: [xmatch_objects], [xmatch_skybot], [xmatch_ned] *)

Section XMatch.
Context {A : Type} `{Scalar A}.
Variable svc : @Services A.

(** [t[name]] as a statement of its own. *)
Definition getitem (t : @Table A) (name : string) : outcome (@column A) :=
  match Dict.get name (columns t) with
  | Some c => Return c
  | None => Raise KeyError
  end.

(** [row[name]] for the row number [i] of [t]. *)
Definition row_item (t : @Table A) (i : nat) (name : string) : outcome (@scalar A) :=
  c <-? getitem t name ;;
  match col_item c i with
  | Some s => Return s
  | None => Raise IndexError
  end.

(** A coordinate handed to [SkyCoord(..., unit='deg')]. *)
Definition as_degrees (s : @scalar A) : outcome A :=
  match s with
  | SNum a => Return a
  | _ => Raise TypeError
  end.

(** [c[idx]] for an index array [idx]. *)
Fixpoint take (c : @column A) (idx : list nat) : outcome (list (@scalar A)) :=
  match idx with
  | [] => Return []
  | i :: idx' =>
      match col_item c i with
      | Some s => r <-? take c idx' ;; Return (s :: r)
      | None => Raise IndexError
      end
  end.

Fixpoint update {X} (l : list X) (i : nat) (x : X) : option (list X) :=
  match l, i with
  | [], _ => None
  | _ :: r, O => Some (x :: r)
  | y :: r, S j => option_map (cons y) (update r j x)
  end.

(** [c[idx] = vals] on a masked column: the entries are written in the
    order of [idx], and a written entry is no longer masked. *)
Fixpoint put (l : list (@scalar A)) (idx : list nat) (vals : list (@scalar A))
  : outcome (list (@scalar A)) :=
  match idx, vals with
  | [], [] => Return l
  | i :: idx', v :: vals' =>
      match update l i v with
      | Some l' => put l' idx' vals'
      | None => Raise IndexError
      end
  | _, _ => Raise ValueError
  end.

(** *** [xmatch_objects] (lines 210-230) *)

Definition xmatch_objects (obj : @Table A) (catalog : string) (sr : A)
    (col_ra col_dec : string) : M (@trace A) (@retval A) :=
  let vizier_id :=
    match Dict.get catalog catalogs with
    | Some d => vizier d
    | None => catalog
    end in
  xcat <- call (XMatchQuery obj ("vizier:" ++ vizier_id) sr col_ra col_dec)
               (fun w => xmatch_query svc w obj ("vizier:" ++ vizier_id) sr col_ra col_dec) ;;
  ret (RTable xcat).

(** *** [xmatch_skybot] (lines 232-267) *)

(** Lines 262-265.  The new column is built from a scalar, so it is
    broadcast down the table, and line 263 masks all of it; line 264
    writes the identifiers [obj[col_id][oidx]] at the rows [cidx], which
    unmasks them; line 265 sets the mask of a fancy-indexed copy and leaves
    [xcat] as line 264 made it. *)
Definition annotate (obj xcat : @Table A) (col_id : string) (oidx cidx : list nat)
  : outcome (@Table A) :=
  ids <-? getitem obj col_id ;;
  _ <-? take ids [0%nat] ;;
  xcat <-? setitem col_id (var (VScalar SMasked)) xcat ;;
  vals <-? take ids oidx ;;
  target <-? getitem xcat col_id ;;
  cells <-? put (col_cells target) cidx vals ;;
  Return (mkTable (Dict.set col_id (MaskedCol cells) (columns xcat)) (meta xcat)).

Definition xmatch_skybot (obj : @Table A) (sr : A) (time : option string)
    (col_ra col_dec col_id : string) : M (@trace A) (@retval A) :=
  c <- lift (get_objects_center svc obj) ;;
  let '(ra0, dec0, sr0) := c in
  let radius := fadd sr0 (fmul (lit 2.0) sr) in
  r <- try_except
         (xcat <- call (SkybotConeSearch ra0 dec0 radius time)
                       (fun w => skybot_cone_search svc w ra0 dec0 radius time) ;;
          ret (Some xcat))
         [RuntimeError; KeyError; ConnectionError; OSError]
         (ret None) ;;
  match r with
  | None => ret RNone
  | Some xcat =>
      o_ra <- lift (getitem obj col_ra) ;;
      o_dec <- lift (getitem obj col_dec) ;;
      c_ra <- lift (getitem xcat "RA") ;;
      c_dec <- lift (getitem xcat "DEC") ;;
      m <- lift (spherical_match svc o_ra o_dec c_ra c_dec (fdiv (lit 10) (lit 3600))) ;;
      let '(oidx, cidx, dist) := m in
      xcat <- lift (annotate obj xcat col_id oidx cidx) ;;
      ret (RTable xcat)
  end.

(** *** [xmatch_ned] (lines 269-297) *)

Definition TableMergeError : pyexc := Derived "TableMergeError" ValueError.

Definition concat_col (c1 c2 : @column A) : outcome (@column A) :=
  match c1, c2 with
  | NumCol a, NumCol b => Return (NumCol (a ++ b)%list)
  | BoolCol a, BoolCol b => Return (BoolCol (a ++ b)%list)
  | StrCol a, StrCol b => Return (StrCol (a ++ b)%list)
  | MaskedCol a, _ => Return (MaskedCol (a ++ col_cells c2)%list)
  | _, MaskedCol b => Return (MaskedCol (col_cells c1 ++ b)%list)
  | _, _ => Raise TableMergeError
  end.

Fixpoint stack_cols (d1 d2 : Dict.t (@column A)) : outcome (Dict.t (@column A)) :=
  match d1 with
  | [] => Return []
  | (k, c1) :: r =>
      match Dict.get k d2 with
      | Some c2 =>
          c <-? concat_col c1 c2 ;;
          r' <-? stack_cols r d2 ;;
          Return ((k, c) :: r')
      | None => Raise TableMergeError
      end
  end.

(** Two tables on top of each other, [join_type='exact']: the same
    column names on both sides; metadata conflicts go to the later. *)
Definition stack (t1 t2 : @Table A) : outcome (@Table A) :=
  if (List.length (columns t1) =? List.length (columns t2))%nat then
    cols <-? stack_cols (columns t1) (columns t2) ;;
    Return (mkTable cols
              (fold_left (fun m kv => Dict.set (fst kv) (snd kv) m) (meta t2) (meta t1)))
  else Raise TableMergeError.

(** [vstack(tables, join_type='exact', metadata_conflicts='silent')] *)
Definition vstack (tables : list (@Table A)) : outcome (@Table A) :=
  match tables with
  | [] => Raise ValueError
  | t :: ts => fold_left (fun acc t' => a <-? acc ;; stack a t') ts (Return t)
  end.

(** The body of the [for row in obj] loop for the rows [rows], with the
    list [xcat] collected so far. *)
Fixpoint ned_loop (obj : @Table A) (sr : A) (col_ra col_dec col_id : string)
    (rows : list nat) (xcat : list (@Table A)) : M (@trace A) (list (@Table A)) :=
  match rows with
  | [] => ret xcat
  | i :: rows' =>
      ra <- lift (x <-? row_item obj i col_ra ;; as_degrees x) ;;
      dec <- lift (x <-? row_item obj i col_dec ;; as_degrees x) ;;
      res <- call (NedQuery ra dec sr) (fun w => ned_query_region svc w ra dec sr) ;;
      if truthy res then
        match res with
        | Some t =>
            id <- lift (row_item obj i col_id) ;;
            t <- lift (setitem "id" (var (VScalar id)) t) ;;
            ned_loop obj sr col_ra col_dec col_id rows' (xcat ++ [t])%list
        | None => raise TypeError
        end
      else ned_loop obj sr col_ra col_dec col_id rows' xcat
  end.

Definition xmatch_ned (obj : @Table A) (sr : A) (col_ra col_dec col_id : string)
  : M (@trace A) (@retval A) :=
  xcat <- ned_loop obj sr col_ra col_dec col_id (seq 0 (len obj)) [] ;;
  match xcat with
  | _ :: _ => xcat <- lift (vstack xcat) ;; ret (RTable xcat)
  | [] => ret (RList xcat)
  end.

End XMatch.

(* ================================================================== *)
(** ** Vocabulary of the statements *)

Section Vocabulary.
Context {A : Type} `{Scalar A}.

(** The Vizier requests of a trace, in order. *)
Definition vizier_queries (w : @trace A) : list (@VizierRequest A) :=
  flat_map (fun ev => match ev with VizierQuery q => [q] | _ => [] end) w.

(** The six catalogues with an augmentation branch. *)
Definition supported (catalog : string) : bool :=
  existsb (String.eqb catalog)
    ["ps1"; "atlas"; "gaiadr2"; "skymapper"; "apass"; "gaiadr3syn"].

(** The G correction as the documentation of Gaia DR2 words it: one
    formula per open brightness range, the identity elsewhere. *)
Definition g_correction (g : A) : A :=
  if fgt g (lit 2) && flt g (lit 6) then
    fadd (fsub (fadd (lit (-0.047344)) (fmul (lit 1.16405) g))
               (fmul (lit 0.046799) (fpow g 2)))
         (fmul (lit 0.0035015) (fpow g 3))
  else if fgt g (lit 6) && flt g (lit 16) then
    fsub g (fmul (lit 0.0032) (fsub g (lit 6)))
  else if fgt g (lit 16) then fsub g (lit 0.032)
  else g.

(** The validity domain of the ps1/atlas fits for one row. *)
Definition in_fit_domain (g r i z : A) : Prop :=
  (fgt (fsub g r) (lit (-0.5)) = true /\ flt (fsub g r) (lit 2.5) = true) /\
  (fgt (fsub r i) (lit (-0.5)) = true /\ flt (fsub r i) (lit 2.0) = true) /\
  (fgt (fsub i z) (lit (-0.5)) = true /\ flt (fsub i z) (lit 1.0) = true).

(** The value of [(xs - ys > lo) & (xs - ys < hi)] on two arrays. *)
Definition in_range (lo hi : Q) (xs ys : list A) : list bool :=
  map2 andb (map (fun x => fgt x (lit lo)) (map2 fsub xs ys))
            (map (fun x => flt x (lit hi)) (map2 fsub xs ys)).

(** [t] has a numeric column [k]. *)
Definition numeric (k : string) (t : @Table A) : Prop :=
  exists l, Dict.get k (columns t) = Some (NumCol l).

(** [t] has a boolean column [k]. *)
Definition boolean (k : string) (t : @Table A) : Prop :=
  exists l, Dict.get k (columns t) = Some (BoolCol l).

(** The expression evaluates to a numeric array, to a number, to a
    boolean array. *)
Definition yields_array (e : @expr A) (t : @Table A) : Prop :=
  exists l, e t = Return (varr l).

Definition yields_number (e : @expr A) (t : @Table A) : Prop :=
  exists a, e t = Return (vnum a).

Definition yields_mask (e : @expr A) (t : @Table A) : Prop :=
  exists l, e t = Return (VCol (BoolCol l)).

(** The error categories as section 7 of the specification names them:
    runtime, lookup, connection and I/O errors. *)
Definition spec_categories : list pyexc :=
  [RuntimeError; LookupError; ConnectionError; OSError].

(** A NED answer stamped with the identifier of the object it is for. *)
Definition stamped (id : @scalar A) (t : @Table A) : @Table A :=
  mkTable (Dict.set "id" (broadcast id (len t)) (columns t)) (meta t).

(** The NED requests for a list of positions, in order. *)
Definition ned_queries (sr : A) (coords : list (A * A)) : list (@event A) :=
  map (fun c => NedQuery (fst c) (snd c) sr) coords.

(** NED, asked about [coords] one after the other from the past [w] on,
    answers with [replies] and never fails. *)
Fixpoint ned_answers (svc : @Services A) (sr : A) (w : @trace A)
    (coords : list (A * A)) (replies : list (option (@Table A))) : Prop :=
  match coords, replies with
  | [], [] => True
  | (ra, dec) :: coords', r :: replies' =>
      ned_query_region svc w ra dec sr = Return r
      /\ ned_answers svc sr (w ++ [NedQuery ra dec sr])%list coords' replies'
  | _, _ => False
  end.

(** The positions of the objects, row by row. *)
Definition object_coords (obj : @Table A) (col_ra col_dec : string)
  : option (list (A * A)) :=
  if (len obj =? 0)%nat then Some []
  else
    match Dict.get col_ra (columns obj), Dict.get col_dec (columns obj) with
    | Some (NumCol ras), Some (NumCol decs) =>
        if (List.length ras =? len obj)%nat && (List.length decs =? len obj)%nat
        then Some (combine ras decs) else None
    | _, _ => None
    end.

(** The identifiers of the objects, row by row. *)
Definition object_ids (obj : @Table A) (col_id : string) : option (list (@scalar A)) :=
  if (len obj =? 0)%nat then Some []
  else
    match Dict.get col_id (columns obj) with
    | Some ids => if (col_len ids =? len obj)%nat then Some (col_cells ids) else None
    | None => None
    end.

(** The non-empty answers, each stamped with the identifier of its object. *)
Definition included (ids : list (@scalar A)) (replies : list (option (@Table A)))
  : list (@Table A) :=
  flat_map (fun p => match snd p with
                     | Some t => if truthy (snd p) then [stamped (fst p) t] else []
                     | None => []
                     end)
           (combine ids replies).

(** The cells of the column [k] of [t]; nothing when there is no such
    column. *)
Definition column_cells (k : string) (t : @Table A) : list (@scalar A) :=
  match Dict.get k (columns t) with
  | Some c => col_cells c
  | None => []
  end.

(** The identifier column the claim expects: the identifier of an object
    once for every row of its non-empty answer. *)
Definition expected_ids (ids : list (@scalar A)) (replies : list (option (@Table A)))
  : list (@scalar A) :=
  flat_map (fun p => match snd p with
                     | Some t => if truthy (snd p) then repeat (fst p) (len t) else []
                     | None => []
                     end)
           (combine ids replies).

(** Modelled from the spec: [astrometry.spherical_match] lives in a
    module that is not among the sources.  Section 4.3 describes it as
    "local nearest-neighbor matching (great-circle distance) between
    returned ephemeris positions and input objects": every position of
    the second list is paired with the closest position of the first
    list, provided that one is within the radius.  [dist ra1 dec1 ra2
    dec2] is the great-circle distance in degrees. *)
Section NearestNeighbour.
Variable dist : A -> A -> A -> A -> A.

Fixpoint nearest (i : nat) (objs : list (A * A)) (ra dec : A)
    (best : option (nat * A)) : option (nat * A) :=
  match objs with
  | [] => best
  | (ra1, dec1) :: objs' =>
      let d := dist ra1 dec1 ra dec in
      let best' :=
        match best with
        | Some (_, d0) => if flt d d0 then Some (i, d) else best
        | None => Some (i, d)
        end in
      nearest (S i) objs' ra dec best'
  end.

Fixpoint match_rows (j : nat) (objs rows : list (A * A)) (sr : A)
  : list nat * list nat * list A :=
  match rows with
  | [] => ([], [], [])
  | (ra, dec) :: rows' =>
      let '(oidx, cidx, ds) := match_rows (S j) objs rows' sr in
      match nearest 0 objs ra dec None with
      | Some (i, d) =>
          if fgt d sr then (oidx, cidx, ds) else (i :: oidx, j :: cidx, d :: ds)
      | None => (oidx, cidx, ds)
      end
  end.

Definition nearest_neighbour_match (ra1 dec1 ra2 dec2 : @column A) (sr : A)
  : outcome (list nat * list nat * list A) :=
  match ra1, dec1, ra2, dec2 with
  | NumCol a1, NumCol d1, NumCol a2, NumCol d2 =>
      Return (match_rows 0 (combine a1 d1) (combine a2 d2) sr)
  | _, _, _, _ => Raise TypeError
  end.
End NearestNeighbour.

End Vocabulary.

(* ================================================================== *)
(** ** Reading a table row by row; what a run works on and leaves alone *)

Section Readings.
Context {A : Type} `{Scalar A}.

(** [np.polyval(p, x)] for one number [x]: Horner's scheme. *)
Definition horner (p : list Q) (x : A) : A :=
  fold_left (fun y pv => fadd (fmul y x) (lit pv)) p (lit 0).

(** The element at row [n] of a numeric value; a number is the same in
    every row. *)
Definition entry (v : @value A) (n : nat) : option A :=
  match v with
  | VScalar (SNum a) => Some a
  | VCol (NumCol l) => nth_error l n
  | _ => None
  end.

(** [t[k][n]] for a numeric column [k]. *)
Definition cell (k : string) (t : @Table A) (n : nat) : option A :=
  match Dict.get k (columns t) with
  | Some c => entry (VCol c) n
  | None => None
  end.

(** An elementwise operation on two entries. *)
Definition entry2 (f : A -> A -> A) (x y : option A) : option A :=
  match x, y with
  | Some a, Some b => Some (f a b)
  | _, _ => None
  end.

(** The columns the branch of a catalogue assigns (the targets of the
    assignments of lines 118-206). *)
Definition written (catalog : string) : list string :=
  if (catalog =? "ps1") || (catalog =? "atlas") then
    ["B"; "V"; "R"; "I"; "good"; "g_SDSS"; "r_SDSS"; "i_SDSS"; "z_SDSS"]
  else if catalog =? "gaiadr2" then
    ["B"; "V"; "R"; "I"; "gmag"; "rmag"; "g_SDSS"; "r_SDSS"; "i_SDSS"]
  else if catalog =? "skymapper" then
    map (fun x => String.append x "_PS1") ["u"; "g"; "r"; "i"; "z"]
  else if catalog =? "apass" then
    ["Rmag"; "e_Rmag"; "Imag"; "e_Imag"; "B"; "V"; "R"; "I"]
  else if catalog =? "gaiadr3syn" then
    (map (fun x => String.append "e_" (String.append x "mag")) passbands
     ++ ["g_ps1"; "r_ps1"; "i_ps1"; "z_ps1"])%list
  else [].

(** A statement that, when it succeeds, leaves the metadata and every
    column outside [ks] as they were and removes no column. *)
Definition assigns_only (ks : list string) (s : @Table A -> outcome (@Table A)) : Prop :=
  forall t t', s t = Return t' ->
    meta t' = meta t
    /\ (forall k, ~ In k ks -> Dict.get k (columns t') = Dict.get k (columns t))
    /\ (forall k, Dict.contains k (columns t) = true -> Dict.contains k (columns t') = true).

(** The single table of the Vizier answer a run of [get_cat_vizier] goes
    on with: the one of the first answer or, when the first answer is not
    one result set, the one of the answer to the retry. *)
Definition delivers (svc : @Services A) (ra0 dec0 sr0 : A) (catalog : string) (limit : Z)
    (filters : list (string * string)) (extra : list string) (verbose : verbosity)
    (w : @trace A) (t : @Table A) : Prop :=
  let '(vizier_id, _, cols) := resolve catalog extra in
  let q := mkVizierRequest limit cols filters ra0 dec0 sr0 vizier_id in
  let w1 := snd (announce verbose vizier_id cols ra0 dec0 sr0 filters w) in
  vizier_query_region svc w1 (q true) = Return (Some [t])
  \/ exists cats1,
       vizier_query_region svc w1 (q true) = Return cats1
       /\ not_one_result cats1 = true
       /\ vizier_query_region svc (w1 ++ [VizierQuery (q true)])%list (q false)
          = Return (Some [t]).

(** The columns once lines 99-101 have run. *)
Definition canonical_radec (d : Dict.t (@column A)) : Dict.t (@column A) :=
  if Dict.contains "_RAJ2000" d && Dict.contains "_DEJ2000" d
     && negb (Dict.contains "RAJ2000" d)
  then Dict.rename "_DEJ2000" "DEJ2000" (Dict.rename "_RAJ2000" "RAJ2000" d)
  else d.

(** What went through [print], in order. *)
Definition printed (w : @trace A) : list (list (@pyarg A)) :=
  flat_map (fun ev => match ev with Printed args => [args] | _ => [] end) w.

End Readings.

(* ================================================================== *)
(** ** Sample worlds over the rationals *)

Module Sample.
Local Open Scope Q_scope.

(** Three PanSTARRS-like rows; only the first lies in the fit domain. *)
Definition ps1_table : @Table Q := mkTable
  [("_RAJ2000", NumCol [10.1; 10.2; 10.3]); ("_DEJ2000", NumCol [20.1; 20.2; 20.3]);
   ("gmag", NumCol [15.0; 16.0; 20.0]); ("rmag", NumCol [14.5; 17.0; 17.0]);
   ("imag", NumCol [14.2; 17.1; 16.0]); ("zmag", NumCol [14.0; 17.05; 15.5])]
  [("ID", "II_349_ps1")].

(** Two rows of synthetic photometry: fluxes and flux errors per band. *)
Definition syn_table : @Table Q := mkTable
  (flat_map (fun x => [(String.append "F" x, NumCol [100; 250]);
                       (String.append "e_F" x, NumCol [2; 5])])
            passbands
   ++ [("gmag", NumCol [15.0; 16.0]); ("rmag", NumCol [14.5; 17.0]);
       ("imag", NumCol [14.2; 17.1]); ("zmag", NumCol [14.0; 17.05])])%list
  [].

Definition usno_table : @Table Q := mkTable
  [("_RAJ2000", NumCol [10.1]); ("_DEJ2000", NumCol [20.1]); ("B1mag", NumCol [17.3])]
  [].

(** Great-circle distance of two points of the equator, degrees. *)
Definition equator_separation (ra1 dec1 ra2 dec2 : Q) : Q := Qabs (ra1 - ra2).

(** One object at the origin, called "a". *)
Definition one_object : @Table Q := mkTable
  [("ra", NumCol [0]); ("dec", NumCol [0]); ("id", StrCol ["a"])] [].

(** An object list without rows. *)
Definition no_objects : @Table Q := mkTable
  [("ra", NumCol []); ("dec", NumCol []); ("id", StrCol [])] [].

(** Two objects on the equator. *)
Definition two_objects : @Table Q := mkTable
  [("ra", NumCol [0; 1]); ("dec", NumCol [0; 0]); ("id", StrCol ["a"; "b"])] [].

(** One minor planet 5 arcsec east of the origin. *)
Definition ephemeris : @Table Q := mkTable
  [("Name", StrCol ["Ceres"]); ("RA", NumCol [5 / 3600]); ("DEC", NumCol [0])] [].

Definition ned_hit : @Table Q := mkTable
  [("Object Name", StrCol ["NGC 1"; "NGC 2"]); ("Redshift", NumCol [0.01; 0.02])] [].

Definition ned_empty : @Table Q := mkTable
  [("Object Name", StrCol []); ("Redshift", NumCol [])] [].

(** A world where Vizier answers with [reply] unless the cache is used,
    SkyBoT answers with [skybot], NED knows something at right ascension
    1 only, and objects are centred at the origin with extent 1 degree. *)
Definition world (cached fresh : outcome (option (list (@Table Q))))
    (skybot : outcome (@Table Q)) : @Services Q :=
  mkServices
    (fun _ q => if req_cache q then cached else fresh)
    (fun _ obj _ _ _ _ => Return obj)
    (fun _ _ _ _ _ => skybot)
    (fun _ ra _ _ => if Qeq_bool ra 1 then Return (Some ned_hit) else Return (Some ned_empty))
    (fun _ => Return (0, 0, 1))
    (nearest_neighbour_match equator_separation).

(** NED never finds anything. *)
Definition silent_ned : @Services Q :=
  mkServices
    (fun _ _ => Return None)
    (fun _ obj _ _ _ _ => Return obj)
    (fun _ _ _ _ _ => Raise RuntimeError)
    (fun _ ra _ _ => if Qeq_bool ra 1 then Return None else Return (Some ned_empty))
    (fun _ => Return (0, 0, 1))
    (nearest_neighbour_match equator_separation).

(** Vizier delivers [t] on the first request. *)
Definition vizier_has (t : @Table Q) : @Services Q :=
  world (Return (Some [t])) (Return None) (Raise RuntimeError).

(** The table [get_cat_vizier] returns for [catalog] when Vizier
    delivers [t]. *)
Definition retrieved (catalog : string) (t : @Table Q) : @Table Q :=
  match fst (get_cat_vizier (vizier_has t) 10 20 (1 # 2) catalog (-1) [] [] Quiet []) with
  | Return (RTable t') => t'
  | _ => mkTable [] []
  end.

(** Two APASS-like rows. *)
Definition apass_table : @Table Q := mkTable
  [("RAJ2000", NumCol [10.1; 10.2]); ("DEJ2000", NumCol [20.1; 20.2]);
   ("Bmag", NumCol [15.9; 17.2]); ("Vmag", NumCol [15.2; 16.4]);
   ("g_mag", NumCol [15.5; 16.8]); ("r_mag", NumCol [15.0; 16.1]);
   ("i_mag", NumCol [14.8; 15.9]);
   ("e_r_mag", NumCol [0.02; 0.05]); ("e_i_mag", NumCol [0.03; 0.06])]
  [].

(** One SkyMapper-like row. *)
Definition skymapper_table : @Table Q := mkTable
  [("RAJ2000", NumCol [10.1]); ("DEJ2000", NumCol [20.1]);
   ("uPSF", NumCol [17.5]); ("gPSF", NumCol [16.0]); ("rPSF", NumCol [15.5]);
   ("iPSF", NumCol [15.3]); ("zPSF", NumCol [15.2])]
  [].

(** Three Gaia-like rows, one in each corrected range of G. *)
Definition gaia_table : @Table Q := mkTable
  [("RA_ICRS", NumCol [10.1; 10.2; 10.3]); ("DE_ICRS", NumCol [20.1; 20.2; 20.3]);
   ("Gmag", NumCol [5; 10; 17]); ("BPmag", NumCol [5.4; 10.5; 17.8]);
   ("RPmag", NumCol [4.5; 9.4; 16.1]); ("E_BR_RP_", NumCol [1.21; 1.25; 1.3])]
  [].

(** A PanSTARRS-like table that lacks the z magnitudes. *)
Definition no_zmag_table : @Table Q := mkTable
  [("RAJ2000", NumCol [10.1]); ("DEJ2000", NumCol [20.1]);
   ("gmag", NumCol [15.0]); ("rmag", NumCol [14.5]); ("imag", NumCol [14.2])]
  [].

End Sample.

(* ================================================================== *)
(** ** Basic facts: dictionaries, lists, the monads *)

Open Scope nat_scope.
Open Scope list_scope.

Section DictFacts.
Variable V : Type.
Implicit Types (d : Dict.t V) (k : string) (v : V).

Lemma get_set_same k v d : Dict.get k (Dict.set k v d) = Some v.
Proof.
  induction d as [|[k' v'] d IH]; simpl.
  - now rewrite String.eqb_refl.
  - destruct (String.eqb k k') eqn:E; simpl; rewrite ?String.eqb_refl, ?E; auto.
Qed.

Lemma get_set_other k k' v d :
  String.eqb k k' = false -> Dict.get k (Dict.set k' v d) = Dict.get k d.
Proof.
  intros N. induction d as [|[k0 v0] d IH]; simpl.
  - now rewrite N.
  - destruct (String.eqb k' k0) eqn:E; simpl.
    + apply String.eqb_eq in E. subst k0. now rewrite N.
    + destruct (String.eqb k k0); auto.
Qed.

Lemma rename_values old new d :
  map snd (Dict.rename old new d) = map snd d.
Proof.
  induction d as [|[k v] d IH]; simpl; auto.
  destruct (String.eqb old k); simpl; congruence.
Qed.

Lemma rename_length old new d :
  List.length (Dict.rename old new d) = List.length d.
Proof.
  rewrite <- (length_map snd), rename_values. apply length_map.
Qed.
End DictFacts.

Section ListFacts.
Context {X Y Z : Type}.

Lemma map2_nth_error (f : X -> Y -> Z) l l' i :
  nth_error (map2 f l l') i =
  match nth_error l i, nth_error l' i with
  | Some a, Some b => Some (f a b)
  | _, _ => None
  end.
Proof.
  revert l' i.
  induction l as [|a l IH]; intros [|b l'] [|i]; simpl; auto;
    now destruct (nth_error l i).
Qed.
End ListFacts.

Lemma obind_Return_inv {X Y} (o : outcome X) (k : X -> outcome Y) y :
  obind o k = Return y -> exists x, o = Return x /\ k x = Return y.
Proof. destruct o; simpl; [eauto | discriminate]. Qed.

Lemma fold_obind_Raise {X T} (f : X -> T -> outcome X) (l : list T) e :
  fold_left (fun acc s => x <-? acc ;; f x s) l (Raise e) = Raise e.
Proof. induction l; simpl; auto. Qed.

(* ================================================================== *)
(** ** Retrieval: the retry and the failure report *)

Section Retrieval.
Context {A : Type} `{Scalar A}.
Variable svc : @Services A.

Lemma vizier_queries_app (w w' : @trace A) :
  vizier_queries (w ++ w') = (vizier_queries w ++ vizier_queries w')%list.
Proof. apply flat_map_app. Qed.

(** Logging never raises and adds no Vizier request. *)
Lemma log_run verbose args (w : @trace A) :
  exists evs, log verbose args w = (Return tt, (w ++ evs)%list) /\ vizier_queries evs = [].
Proof.
  destruct verbose; cbv [log print_ call ret].
  - exists []. now rewrite app_nil_r.
  - now eexists [_].
  - now eexists [_].
Qed.

Lemma announce_run verbose vizier_id columns ra0 dec0 sr0 filters (w : @trace A) :
  exists evs,
    announce verbose vizier_id columns ra0 dec0 sr0 filters w = (Return tt, (w ++ evs)%list)
    /\ vizier_queries evs = [].
Proof.
  unfold announce, bind.
  destruct (log_run verbose [PStr "Requesting from VizieR:"; PStr vizier_id;
                             PStr "columns:"; PStrList columns] w) as (e1 & -> & V1).
  destruct (log_run verbose [PStr "Center:"; PNum ra0; PNum dec0; PStr "radius:"; PNum sr0]
              (w ++ e1)) as (e2 & -> & V2).
  destruct (log_run verbose [PStr "Filters:"; PDict filters] ((w ++ e1) ++ e2))
    as (e3 & -> & V3).
  exists (e1 ++ e2 ++ e3)%list. rewrite !app_assoc. split; auto.
  now rewrite !vizier_queries_app, V1, V2, V3.
Qed.

(** Once a single result set is at hand no further request is made. *)
Lemma finish_cat_run catalog vizier_id name verbose cats (w : @trace A) :
  exists evs,
    snd (finish_cat catalog vizier_id name verbose cats w) = (w ++ evs)%list
    /\ vizier_queries evs = [].
Proof.
  unfold finish_cat, bind, lift, ret.
  destruct (first_table cats) as [t|e]; [|exists []; now rewrite app_nil_r].
  match goal with |- context [log verbose ?a w] =>
    destruct (log_run verbose a w) as (evs & -> & V) end.
  exists evs. split; auto.
  destruct (fix_radec _); simpl; auto.
  destruct (augment _ _); simpl; auto.
Qed.

(** The shape of every run of [get_cat_vizier]: the announcement, the
    first request, and what follows from its answer. *)
Lemma get_cat_vizier_unfold ra0 dec0 sr0 catalog limit filters extra verbose
      vizier_id name columns (w : @trace A) :
  resolve catalog extra = (vizier_id, name, columns) ->
  let q := mkVizierRequest limit columns filters ra0 dec0 sr0 vizier_id in
  let w1 := snd (announce verbose vizier_id columns ra0 dec0 sr0 filters w) in
  let w2 := (w1 ++ [VizierQuery (q true)])%list in
  let w3 := (w2 ++ [VizierQuery (q false)])%list in
  get_cat_vizier svc ra0 dec0 sr0 catalog limit filters extra verbose w =
  match vizier_query_region svc w1 (q true) with
  | Raise e => (Raise e, w2)
  | Return cats1 =>
      if not_one_result cats1 then
        match vizier_query_region svc w2 (q false) with
        | Raise e => (Raise e, w3)
        | Return cats2 =>
            if not_one_result cats2 then
              (Return RNone,
               (w3 ++ [Printed [PStr "Error requesting catalogue"; PStr catalog]])%list)
            else finish_cat catalog vizier_id name verbose cats2 w3
        end
      else finish_cat catalog vizier_id name verbose cats1 w2
  end.
Proof.
  intros R q w1 w2 w3. unfold get_cat_vizier. rewrite R.
  unfold bind at 1.
  destruct (announce_run verbose vizier_id columns ra0 dec0 sr0 filters w) as (evs & E & _).
  subst w3 w2 w1. rewrite E. simpl snd.
  unfold bind at 1. unfold query_region at 1, call at 1. fold q.
  destruct (vizier_query_region svc (w ++ evs) (q true)) as [cats1|e]; auto.
  destruct (not_one_result cats1); auto.
  unfold bind at 1. unfold query_region at 1, call at 1.
  destruct (vizier_query_region svc _ (q false)) as [cats2|e]; auto.
  destruct (not_one_result cats2); auto.
Qed.

(** C6.  When the first Vizier answer is not exactly one result set, the
    request is repeated exactly once, identical but with the cache
    disabled; when that answer is not one result set either, the failure
    is printed and [None] is returned, and nothing is raised. *)
Theorem get_cat_vizier_retries_once
      ra0 dec0 sr0 catalog limit filters extra verbose vizier_id name columns
      (w : @trace A) cats1 :
  resolve catalog extra = (vizier_id, name, columns) ->
  let q := mkVizierRequest limit columns filters ra0 dec0 sr0 vizier_id in
  let w1 := snd (announce verbose vizier_id columns ra0 dec0 sr0 filters w) in
  vizier_query_region svc w1 (q true) = Return cats1 ->
  not_one_result cats1 = true ->
  vizier_queries
    (snd (get_cat_vizier svc ra0 dec0 sr0 catalog limit filters extra verbose w))
  = (vizier_queries w ++ [q true; q false])%list
  /\ forall cats2,
      vizier_query_region svc (w1 ++ [VizierQuery (q true)])%list (q false) = Return cats2 ->
      not_one_result cats2 = true ->
      get_cat_vizier svc ra0 dec0 sr0 catalog limit filters extra verbose w
      = (Return RNone,
         (w1 ++ [VizierQuery (q true); VizierQuery (q false);
                 Printed [PStr "Error requesting catalogue"; PStr catalog]])%list).
Proof.
  intros R q w1 Q1 N1.
  rewrite get_cat_vizier_unfold with (1 := R).
  fold q w1. rewrite Q1, N1.
  assert (V1 : vizier_queries w1 = vizier_queries w).
  { subst w1.
    destruct (announce_run verbose vizier_id columns ra0 dec0 sr0 filters w) as (evs & -> & V).
    simpl. now rewrite vizier_queries_app, V, app_nil_r. }
  split.
  - destruct (vizier_query_region svc _ (q false)) as [cats2|e].
    + destruct (not_one_result cats2).
      * simpl. rewrite !vizier_queries_app, V1. simpl.
        now rewrite ?app_nil_r, <- ?app_assoc.
      * destruct (finish_cat_run catalog vizier_id name verbose cats2
                    ((w1 ++ [VizierQuery (q true)]) ++ [VizierQuery (q false)])%list)
          as (evs & -> & V).
        rewrite !vizier_queries_app, V, V1. simpl.
        now rewrite ?app_nil_r, <- ?app_assoc.
    + simpl. rewrite !vizier_queries_app, V1. simpl.
      now rewrite ?app_nil_r, <- ?app_assoc.
  - intros cats2 Q2 N2. rewrite Q2, N2. now rewrite <- !app_assoc.
Qed.

End Retrieval.

(** A world in which Vizier has nothing: one retry, the message, [None]. *)
Lemma get_cat_vizier_retries_once_witness :
  let q := mkVizierRequest (-1) ["*"; "RAJ2000"; "DEJ2000"; "e_RAJ2000"; "e_DEJ2000"]
             [] 10%Q 20%Q (1 # 2)%Q "II/349/ps1" in
  let svc := Sample.world (Return None) (Return (Some [])) (Raise RuntimeError) in
  vizier_queries
    (snd (get_cat_vizier svc 10%Q 20%Q (1 # 2)%Q "ps1" (-1) [] [] Quiet []))
  = [q true; q false]
  /\ get_cat_vizier svc 10%Q 20%Q (1 # 2)%Q "ps1" (-1) [] [] Quiet []
     = (Return RNone,
        [VizierQuery (q true); VizierQuery (q false);
         Printed [PStr "Error requesting catalogue"; PStr "ps1"]]).
Proof.
  intros q svc0.
  destruct (@get_cat_vizier_retries_once Q _ svc0 10%Q 20%Q (1 # 2)%Q "ps1" (-1)%Z [] []
              Quiet "II/349/ps1" "PanSTARRS DR1"
              ["*"; "RAJ2000"; "DEJ2000"; "e_RAJ2000"; "e_DEJ2000"] [] None
              eq_refl eq_refl eq_refl) as [V R].
  split; [exact V | exact (R (Some []) eq_refl eq_refl)].
Defined.

(* ================================================================== *)
(** ** Catalogues without an augmentation branch *)

Section PassThrough.
Context {A : Type} `{Scalar A}.
Variable svc : @Services A.

Lemma get_rename_other (V : Type) k old new (d : Dict.t V) :
  String.eqb old k = false -> String.eqb k new = false ->
  Dict.get k (Dict.rename old new d) = Dict.get k d.
Proof.
  intros N1 N2. induction d as [|[k0 v0] d IH]; simpl; auto.
  destruct (String.eqb old k0) eqn:E; simpl.
  - apply String.eqb_eq in E. subst k0. rewrite N2.
    rewrite String.eqb_sym in N1. now rewrite N1.
  - destruct (String.eqb k k0); auto.
Qed.

Lemma augment_unsupported catalog (cat : @Table A) :
  supported catalog = false -> augment catalog cat = Return cat.
Proof.
  unfold supported, augment. simpl. intros S.
  repeat (apply orb_false_iff in S; destruct S as [? S]).
  repeat match goal with E : String.eqb _ _ = false |- _ => rewrite E; clear E end.
  reflexivity.
Qed.

(** What [fix_radec] can do to a table: nothing, or the two renamings. *)
Lemma fix_radec_effect (t t' : @Table A) :
  fix_radec t = Return t' ->
  meta t' = meta t
  /\ map snd (columns t') = map snd (columns t)
  /\ columns t' =
     if Dict.contains "_RAJ2000" (columns t) && Dict.contains "_DEJ2000" (columns t)
        && negb (Dict.contains "RAJ2000" (columns t))
     then Dict.rename "_DEJ2000" "DEJ2000" (Dict.rename "_RAJ2000" "RAJ2000" (columns t))
     else columns t.
Proof.
  unfold fix_radec.
  destruct (Dict.contains "_RAJ2000" (columns t)) eqn:C1; simpl;
    [|intros [= <-]; auto].
  destruct (Dict.contains "_DEJ2000" (columns t)) eqn:C2; simpl;
    [|intros [= <-]; auto].
  destruct (Dict.contains "RAJ2000" (columns t)) eqn:C3; simpl;
    [intros [= <-]; auto|].
  unfold rename_column at 1. rewrite C1, C3. simpl.
  unfold rename_column. simpl.
  destruct (negb _); [discriminate|].
  destruct (Dict.contains "DEJ2000" _); [discriminate|].
  intros [= <-]. simpl. now rewrite !rename_values.
Qed.

Lemma finish_cat_unsupported catalog vizier_id name verbose t rest (w : @trace A) :
  supported catalog = false ->
  fst (finish_cat catalog vizier_id name verbose (Some (t :: rest)) w)
  = (t' <-? fix_radec (set_meta "name" name (set_meta "vizier_id" vizier_id t)) ;;
     Return (RTable t')).
Proof.
  intros S. unfold finish_cat, bind, lift, ret. simpl first_table. cbv iota beta.
  match goal with |- context [log verbose ?a w] =>
    destruct (log_run verbose a w) as (evs & -> & _) end.
  destruct (fix_radec _) as [t'|e]; simpl; auto.
  now rewrite augment_unsupported.
Qed.


End PassThrough.



(* ================================================================== *)
(** ** SkyBoT: the cone, the caught errors, the matching radius *)

Section Skybot.
Context {A : Type} `{Scalar A}.
Variable svc : @Services A.

(** The run of [xmatch_skybot] up to the answer of SkyBoT. *)
Lemma xmatch_skybot_unfold obj sr time col_ra col_dec col_id (w : @trace A) ra0 dec0 sr0 :
  get_objects_center svc obj = Return (ra0, dec0, sr0) ->
  let radius := fadd sr0 (fmul (lit 2.0) sr) in
  let w1 := w ++ [SkybotConeSearch ra0 dec0 radius time] in
  xmatch_skybot svc obj sr time col_ra col_dec col_id w =
  match skybot_cone_search svc w ra0 dec0 radius time with
  | Raise e =>
      if matches [RuntimeError; KeyError; ConnectionError; OSError] e
      then (Return RNone, w1) else (Raise e, w1)
  | Return xcat =>
      ((o_ra <-? getitem obj col_ra ;;
        o_dec <-? getitem obj col_dec ;;
        c_ra <-? getitem xcat "RA" ;;
        c_dec <-? getitem xcat "DEC" ;;
        m <-? spherical_match svc o_ra o_dec c_ra c_dec (fdiv (lit 10) (lit 3600)) ;;
        xcat' <-? annotate obj xcat col_id (fst (fst m)) (snd (fst m)) ;;
        Return (RTable xcat')), w1)
  end.
Proof.
  intros C radius w1. unfold xmatch_skybot, bind at 1, lift at 1. rewrite C.
  fold radius. unfold bind at 1, try_except, bind at 1, call.
  destruct (skybot_cone_search svc w ra0 dec0 radius time) as [xcat|e].
  - unfold ret, bind, lift.
    destruct (getitem obj col_ra); simpl; auto.
    destruct (getitem obj col_dec); simpl; auto.
    destruct (getitem xcat "RA"); simpl; auto.
    destruct (getitem xcat "DEC"); simpl; auto.
    destruct (spherical_match svc _ _ _ _ _) as [[[oidx cidx] dist]|]; simpl; auto.
    destruct (annotate _ _ _ _ _); simpl; auto.
  - destruct (matches _ e); auto.
Qed.


(** [except (RuntimeError, KeyError, ConnectionError, OSError)] spelled
    out on the class of the exception. *)
Lemma skybot_caught_classes e :
  matches [RuntimeError; KeyError; ConnectionError; OSError] e
  = issubclass e RuntimeError || issubclass e KeyError
    || issubclass e ConnectionError || issubclass e OSError.
Proof. unfold matches. simpl. now rewrite orb_false_r, !orb_assoc. Qed.

End Skybot.



(* ================================================================== *)
(** ** NED: one request per object *)

Section Ned.
Context {A : Type} `{Scalar A}.
Variable svc : @Services A.
Variables (obj : @Table A) (sr : A) (col_ra col_dec col_id : string).

Local Abbreviation loop := (ned_loop svc obj sr col_ra col_dec col_id).

(** One turn of the loop. *)
Lemma ned_loop_cons i rows xcat (w : @trace A) :
  loop (i :: rows) xcat w =
  match (x <-? row_item obj i col_ra ;; as_degrees x) with
  | Raise e => (Raise e, w)
  | Return ra =>
      match (x <-? row_item obj i col_dec ;; as_degrees x) with
      | Raise e => (Raise e, w)
      | Return dec =>
          let w1 := w ++ [NedQuery ra dec sr] in
          match ned_query_region svc w ra dec sr with
          | Raise e => (Raise e, w1)
          | Return res =>
              if truthy res then
                match res with
                | Some t =>
                    match (id <-? row_item obj i col_id ;;
                           setitem "id" (var (VScalar id)) t) with
                    | Raise e => (Raise e, w1)
                    | Return t' => loop rows (xcat ++ [t']) w1
                    end
                | None => (Raise TypeError, w1)
                end
              else loop rows xcat w1
          end
      end
  end.
Proof.
  simpl. unfold bind, lift, call, raise.
  destruct (x <-? row_item obj i col_ra ;; as_degrees x) as [ra|e]; auto.
  destruct (x <-? row_item obj i col_dec ;; as_degrees x) as [dec|e]; auto.
  destruct (ned_query_region svc w ra dec sr) as [res|e]; auto.
  destruct (truthy res); auto.
  destruct res as [t|]; auto.
  destruct (row_item obj i col_id) as [id|e]; simpl; auto.
Qed.

(** The trace only grows. *)
Lemma ned_loop_extends rows : forall xcat (w : @trace A),
  exists evs, snd (loop rows xcat w) = w ++ evs.
Proof.
  induction rows as [|i rows IH]; intros xcat w.
  - exists []. simpl. now rewrite app_nil_r.
  - rewrite ned_loop_cons.
    destruct (x <-? row_item obj i col_ra ;; as_degrees x) as [ra|e];
      [|exists []; simpl; now rewrite app_nil_r].
    destruct (x <-? row_item obj i col_dec ;; as_degrees x) as [dec|e];
      [|exists []; simpl; now rewrite app_nil_r].
    cbv zeta.
    assert (Hrec : forall xc, exists evs,
               snd (loop rows xc (w ++ [NedQuery ra dec sr])) = w ++ evs).
    { intros xc. destruct (IH xc (w ++ [NedQuery ra dec sr])) as (evs & ->).
      exists ([NedQuery ra dec sr] ++ evs). now rewrite app_assoc. }
    destruct (ned_query_region svc w ra dec sr) as [res|e];
      [|now exists [NedQuery ra dec sr]].
    destruct (truthy res); [|apply Hrec].
    destruct res as [t|]; [|now exists [NedQuery ra dec sr]].
    destruct (id <-? row_item obj i col_id ;; setitem "id" (var (VScalar id)) t);
      [apply Hrec | now exists [NedQuery ra dec sr]].
Qed.

Lemma app_same_length {X} (a b x y : list X) :
  List.length a = List.length b -> a ++ x = b ++ y -> a = b /\ x = y.
Proof.
  revert b. induction a as [|u a IH]; intros [|v b] L E; simpl in *; try discriminate; auto.
  injection E as -> E. injection L as L. destruct (IH b L E) as [-> ->]. auto.
Qed.

(** Nothing in the loop catches: a request of the run that NED answered
    with an exception ends the run with that exception. *)
Lemma ned_loop_propagates rows : forall xcat (w wk : @trace A) ra dec sr' rest e,
  snd (loop rows xcat w) = wk ++ NedQuery ra dec sr' :: rest ->
  List.length w <= List.length wk ->
  ned_query_region svc wk ra dec sr' = Raise e ->
  fst (loop rows xcat w) = Raise e.
Proof.
  induction rows as [|i rows IH]; intros xcat w wk ra dec sr' rest e T L Q.
  - simpl in T. apply (f_equal (@List.length _)) in T.
    rewrite length_app in T. simpl in T. lia.
  - rewrite ned_loop_cons in T |- *.
    assert (Stop : forall X (o : outcome X), snd (o, w) = wk ++ NedQuery ra dec sr' :: rest -> False).
    { intros X o E. simpl in E. apply (f_equal (@List.length _)) in E.
      rewrite length_app in E. simpl in E. lia. }
    destruct (x <-? row_item obj i col_ra ;; as_degrees x) as [ra0|e0];
      [|now apply Stop in T].
    destruct (x <-? row_item obj i col_dec ;; as_degrees x) as [dec0|e0];
      [|now apply Stop in T].
    cbv zeta in *.
    set (w1 := w ++ [NedQuery ra0 dec0 sr]) in *.
    destruct (Nat.eq_dec (List.length wk) (List.length w)) as [EQ|NE].
    + (* the failing request is the one of this turn *)
      assert (Here : forall o : outcome (list (@Table A)),
                 (exists evs, snd (o, snd (o, w1)) = w1 ++ evs) -> True) by auto.
      clear Here.
      assert (W : exists evs, wk ++ NedQuery ra dec sr' :: rest = w1 ++ evs).
      { rewrite <- T.
        destruct (ned_query_region svc w ra0 dec0 sr) as [res|e0];
          [|exists []; simpl; now rewrite app_nil_r].
        destruct (truthy res); [|apply ned_loop_extends].
        destruct res as [t|]; [|exists []; simpl; now rewrite app_nil_r].
        destruct (id <-? row_item obj i col_id ;; setitem "id" (var (VScalar id)) t);
          [apply ned_loop_extends | exists []; simpl; now rewrite app_nil_r]. }
      destruct W as (evs & W). subst w1. rewrite <- app_assoc in W. simpl in W.
      apply app_same_length in W; auto. destruct W as [-> W].
      injection W as -> -> -> _. now rewrite Q.
    + assert (L1 : List.length w1 <= List.length wk).
      { subst w1. rewrite length_app. simpl. lia. }
      assert (Stop1 : forall X (o : outcome X),
                 snd (o, w1) = wk ++ NedQuery ra dec sr' :: rest -> False).
      { intros X o E. simpl in E. apply (f_equal (@List.length _)) in E.
        rewrite length_app in E. simpl in E. lia. }
      destruct (ned_query_region svc w ra0 dec0 sr) as [res|e0];
        [|now apply Stop1 in T].
      destruct (truthy res); [|now apply IH with (1 := T)].
      destruct res as [t|]; [|now apply Stop1 in T].
      destruct (id <-? row_item obj i col_id ;; setitem "id" (var (VScalar id)) t);
        [now apply IH with (1 := T) | now apply Stop1 in T].
Qed.

End Ned.

Section NedClosedForm.
Context {A : Type} `{Scalar A}.
Variable svc : @Services A.
Variables (obj : @Table A) (sr : A) (col_ra col_dec col_id : string).

Local Abbreviation loop := (ned_loop svc obj sr col_ra col_dec col_id).

Lemma col_item_cells (c : @column A) i : col_item c i = nth_error (col_cells c) i.
Proof. destruct c; simpl; auto; now rewrite nth_error_map. Qed.

Lemma col_len_cells (c : @column A) : col_len c = List.length (col_cells c).
Proof. destruct c; simpl; auto; now rewrite length_map. Qed.

Lemma nth_error_combine {X Y} (l : list X) (l' : list Y) i x y :
  nth_error (combine l l') i = Some (x, y) ->
  nth_error l i = Some x /\ nth_error l' i = Some y.
Proof.
  revert l' i. induction l as [|a l IH]; intros [|b l'] [|i]; simpl; try discriminate.
  - now intros [= -> ->].
  - apply IH.
Qed.

(** The rows read back from the table. *)
Lemma object_coords_rows coords j c :
  object_coords obj col_ra col_dec = Some coords ->
  nth_error coords j = Some c ->
  (x <-? row_item obj j col_ra ;; as_degrees x) = Return (fst c)
  /\ (x <-? row_item obj j col_dec ;; as_degrees x) = Return (snd c).
Proof.
  unfold object_coords, row_item, getitem.
  destruct (len obj =? 0); [intros [= <-]; now destruct j|].
  destruct (Dict.get col_ra (columns obj)) as [[ras| | |]|]; try discriminate.
  destruct (Dict.get col_dec (columns obj)) as [[decs| | |]|]; try discriminate.
  destruct (_ && _); [|discriminate]. intros [= <-] N. destruct c as [ra dec].
  apply nth_error_combine in N. destruct N as [N1 N2]. simpl.
  now rewrite N1, N2.
Qed.

Lemma object_coords_length coords :
  object_coords obj col_ra col_dec = Some coords -> List.length coords = len obj.
Proof.
  unfold object_coords.
  destruct (len obj =? 0) eqn:E; [intros [= <-]; now apply Nat.eqb_eq in E|].
  destruct (Dict.get col_ra (columns obj)) as [[ras| | |]|]; try discriminate.
  destruct (Dict.get col_dec (columns obj)) as [[decs| | |]|]; try discriminate.
  destruct (List.length ras =? len obj) eqn:E1; [|discriminate].
  destruct (List.length decs =? len obj) eqn:E2; [|discriminate].
  intros [= <-]. apply Nat.eqb_eq in E1, E2. rewrite length_combine. lia.
Qed.

Lemma object_ids_rows ids j id :
  object_ids obj col_id = Some ids ->
  nth_error ids j = Some id ->
  row_item obj j col_id = Return id.
Proof.
  unfold object_ids, row_item, getitem.
  destruct (len obj =? 0); [intros [= <-]; now destruct j|].
  destruct (Dict.get col_id (columns obj)) as [c|]; [|discriminate].
  destruct (_ =? _); [|discriminate]. intros [= <-] N. simpl.
  now rewrite col_item_cells, N.
Qed.

Lemma object_ids_length ids :
  object_ids obj col_id = Some ids -> List.length ids = len obj.
Proof.
  unfold object_ids.
  destruct (len obj =? 0) eqn:E; [intros [= <-]; now apply Nat.eqb_eq in E|].
  destruct (Dict.get col_id (columns obj)) as [c|]; [|discriminate].
  destruct (col_len c =? len obj) eqn:E1; [|discriminate].
  intros [= <-]. apply Nat.eqb_eq in E1. now rewrite <- col_len_cells.
Qed.

(** Stamping a non-empty answer. *)
Lemma setitem_stamp id (t : @Table A) :
  truthy (Some t) = true ->
  setitem "id" (var (VScalar id)) t = Return (stamped id t).
Proof.
  unfold truthy, setitem, var, to_column, stamped. simpl.
  now destruct (len t =? 0).
Qed.

(** The loop when NED answers every request. *)
Lemma ned_loop_closed coords : forall k ids replies xcat (w : @trace A),
  (forall j c, nth_error coords j = Some c ->
     (x <-? row_item obj (k + j) col_ra ;; as_degrees x) = Return (fst c)
     /\ (x <-? row_item obj (k + j) col_dec ;; as_degrees x) = Return (snd c)) ->
  (forall j id, nth_error ids j = Some id -> row_item obj (k + j) col_id = Return id) ->
  List.length ids = List.length coords ->
  ned_answers svc sr w coords replies ->
  loop (seq k (List.length coords)) xcat w
  = (Return (xcat ++ included ids replies), w ++ ned_queries sr coords).
Proof.
  induction coords as [|[ra dec] coords IH]; intros k ids replies xcat w C I L N.
  - destruct replies; [|contradiction]. destruct ids; [|discriminate].
    simpl. unfold ret. now rewrite !app_nil_r.
  - destruct replies as [|r replies]; [contradiction|]. destruct N as [Q N].
    destruct ids as [|id ids]; [discriminate|]. injection L as L.
    simpl seq. rewrite ned_loop_cons.
    destruct (C 0 (ra, dec) eq_refl) as [C1 C2]. rewrite Nat.add_0_r in C1, C2.
    rewrite C1, C2. simpl fst. simpl snd. cbv zeta. rewrite Q.
    assert (C' : forall j c, nth_error coords j = Some c ->
              (x <-? row_item obj (S k + j) col_ra ;; as_degrees x) = Return (fst c)
              /\ (x <-? row_item obj (S k + j) col_dec ;; as_degrees x) = Return (snd c)).
    { intros j c E. specialize (C (S j) c E). now rewrite Nat.add_succ_r in C. }
    assert (I' : forall j x, nth_error ids j = Some x ->
              row_item obj (S k + j) col_id = Return x).
    { intros j x E. specialize (I (S j) x E). now rewrite Nat.add_succ_r in I. }
    unfold included. simpl combine. simpl flat_map. fold (included ids replies).
    destruct (truthy r) eqn:T.
    + destruct r as [t|]; [|discriminate].
      specialize (I 0 id eq_refl). rewrite Nat.add_0_r in I. rewrite I. simpl obind.
      rewrite setitem_stamp by exact T.
      rewrite (IH (S k) ids replies _ _ C' I' L N).
      simpl ned_queries. now rewrite <- !app_assoc.
    + rewrite (IH (S k) ids replies _ _ C' I' L N).
      simpl ned_queries. rewrite <- !app_assoc. simpl.
      now destruct r.
Qed.

(** The loop when NED answers every request with nothing. *)
Lemma ned_loop_silent coords : forall k replies xcat (w : @trace A),
  (forall j c, nth_error coords j = Some c ->
     (x <-? row_item obj (k + j) col_ra ;; as_degrees x) = Return (fst c)
     /\ (x <-? row_item obj (k + j) col_dec ;; as_degrees x) = Return (snd c)) ->
  ned_answers svc sr w coords replies ->
  Forall (fun r => truthy r = false) replies ->
  loop (seq k (List.length coords)) xcat w = (Return xcat, w ++ ned_queries sr coords).
Proof.
  induction coords as [|[ra dec] coords IH]; intros k replies xcat w C N F.
  - simpl. unfold ret. now rewrite app_nil_r.
  - destruct replies as [|r replies]; [contradiction|]. destruct N as [Q N].
    inversion F as [|? ? T F']; subst.
    simpl seq. rewrite ned_loop_cons.
    destruct (C 0 (ra, dec) eq_refl) as [C1 C2]. rewrite Nat.add_0_r in C1, C2.
    rewrite C1, C2. simpl fst. simpl snd. cbv zeta. rewrite Q, T.
    rewrite (IH (S k) replies xcat _); auto.
    + simpl ned_queries. now rewrite <- !app_assoc.
    + intros j c E. specialize (C (S j) c E). now rewrite Nat.add_succ_r in C.
Qed.

End NedClosedForm.

Section Vstack.
Context {A : Type} `{Scalar A}.

Lemma concat_col_cells (c1 c2 c : @column A) :
  concat_col c1 c2 = Return c -> col_cells c = col_cells c1 ++ col_cells c2.
Proof.
  destruct c1, c2; simpl; intros [= <-]; simpl; auto; now rewrite map_app.
Qed.

Lemma stack_cols_get (d1 d2 d : Dict.t (@column A)) k c1 :
  stack_cols d1 d2 = Return d ->
  Dict.get k d1 = Some c1 ->
  exists c2 c, Dict.get k d2 = Some c2 /\ concat_col c1 c2 = Return c
               /\ Dict.get k d = Some c.
Proof.
  revert d. induction d1 as [|[k0 c0] d1 IH]; intros d S G; [discriminate|].
  simpl in S, G.
  destruct (Dict.get k0 d2) as [c2|] eqn:G2; [|discriminate].
  apply obind_Return_inv in S. destruct S as (c & Cc & S).
  apply obind_Return_inv in S. destruct S as (r' & Sr & S).
  injection S as <-. simpl.
  destruct (String.eqb k k0) eqn:E.
  - apply String.eqb_eq in E. subst k0. injection G as <-. eauto.
  - eauto.
Qed.

(** Stacking appends the cells of every column of the upper table. *)
Lemma stack_column_cells (t1 t2 t : @Table A) k :
  stack t1 t2 = Return t ->
  Dict.contains k (columns t1) = true ->
  Dict.contains k (columns t) = true
  /\ column_cells k t = column_cells k t1 ++ column_cells k t2.
Proof.
  unfold stack, Dict.contains, column_cells.
  destruct (_ =? _); [|discriminate]. intros S C.
  apply obind_Return_inv in S. destruct S as (cols & S & [= <-]). simpl.
  destruct (Dict.get k (columns t1)) as [c1|] eqn:G1; [|discriminate].
  edestruct stack_cols_get as (c2 & c & G2 & Cc & G); [exact S | exact G1 |].
  rewrite G2, G. split; auto. now apply concat_col_cells.
Qed.

Lemma vstack_column_cells (l : list (@Table A)) : forall t T k,
  vstack (t :: l) = Return T ->
  Dict.contains k (columns t) = true ->
  column_cells k T = flat_map (column_cells k) (t :: l).
Proof.
  induction l as [|t' l IH]; intros t T k V C.
  - simpl in V. injection V as <-. simpl. now rewrite app_nil_r.
  - simpl in V. destruct (stack t t') as [a|e] eqn:S.
    + edestruct stack_column_cells as [Ca Cells]; [exact S | exact C |].
      change (vstack (a :: l) = Return T) in V.
      rewrite (IH a T k V Ca). simpl. now rewrite Cells, <- app_assoc.
    + simpl in V. rewrite fold_obind_Raise in V. discriminate.
Qed.

Lemma col_cells_broadcast (s : @scalar A) n : col_cells (broadcast s n) = repeat s n.
Proof. destruct s; simpl; auto; apply map_repeat. Qed.

Lemma stamped_id_cells (id : @scalar A) t : column_cells "id" (stamped id t) = repeat id (len t).
Proof.
  unfold column_cells, stamped. simpl. rewrite get_set_same. apply col_cells_broadcast.
Qed.

Lemma included_id_cells (ids : list (@scalar A)) replies :
  flat_map (column_cells "id") (included ids replies) = expected_ids ids replies.
Proof.
  unfold included, expected_ids.
  induction (combine ids replies) as [|[id r] l IH]; simpl; auto.
  rewrite flat_map_app, IH. f_equal.
  destruct r as [t|]; simpl; auto.
  destruct (negb _); simpl; auto.
  now rewrite stamped_id_cells, app_nil_r.
Qed.

Lemma included_has_id (ids : list (@scalar A)) replies t :
  In t (included ids replies) -> Dict.contains "id" (columns t) = true.
Proof.
  unfold included. rewrite in_flat_map. intros ([id r] & _ & I). simpl in I.
  destruct r as [t0|]; [|contradiction].
  destruct (truthy (Some t0)); [|contradiction].
  destruct I as [<-|[]]. unfold stamped, Dict.contains. simpl.
  now rewrite get_set_same.
Qed.

End Vstack.

Section NedResults.
Context {A : Type} `{Scalar A}.
Variable svc : @Services A.

(** [xmatch_ned] when NED answers every request. *)
Lemma xmatch_ned_closed obj sr col_ra col_dec col_id (w : @trace A) coords ids replies :
  object_coords obj col_ra col_dec = Some coords ->
  object_ids obj col_id = Some ids ->
  ned_answers svc sr w coords replies ->
  xmatch_ned svc obj sr col_ra col_dec col_id w
  = (match included ids replies with
     | [] => Return (RList [])
     | _ :: _ => t <-? vstack (included ids replies) ;; Return (RTable t)
     end,
     w ++ ned_queries sr coords).
Proof.
  intros C I N. unfold xmatch_ned, bind at 1.
  assert (LC : List.length coords = len obj) by (eapply object_coords_length; exact C).
  rewrite <- LC.
  rewrite ned_loop_closed with (ids := ids) (replies := replies).
  - change ([] ++ included ids replies) with (included ids replies).
    destruct (included ids replies) as [|t l]; auto.
    unfold bind, lift, ret. now destruct (vstack (t :: l)).
  - intros j c E. now apply object_coords_rows with (coords := coords).
  - intros j id E. now apply object_ids_rows with (ids := ids).
  - rewrite LC. eapply object_ids_length; exact I.
  - exact N.
Qed.

Lemma ned_answers_length sr coords : forall replies (w : @trace A),
  ned_answers svc sr w coords replies ->
  List.length replies = List.length coords.
Proof.
  induction coords as [|[ra dec] coords IH]; intros [|r replies] w N;
    simpl in *; try contradiction; auto.
  destruct N as [_ N]. f_equal. eapply IH; exact N.
Qed.

(** A non-empty answer makes the list of stamped tables non-empty. *)
Lemma included_nonempty (replies : list (option (@Table A))) : forall ids,
  List.length ids = List.length replies ->
  Exists (fun r => truthy r = true) replies ->
  included ids replies <> [].
Proof.
  unfold included.
  induction replies as [|r replies IH]; intros [|id ids] L E; try discriminate.
  - inversion E.
  - injection L as L. simpl. inversion E as [? ? T | ? ? E']; subst.
    + destruct r as [t|]; [|discriminate]. rewrite T. discriminate.
    + specialize (IH ids L E').
      destruct (match r with Some t => _ | None => _ end); [exact IH | discriminate].
Qed.


(** C10.  When NED finds nothing for any object -- so also when there is
    no object -- the result is the empty Python list; the result is never
    [None], and a list that is returned is always empty.  When NED finds
    something for some object the result is not a list: what is returned
    then is a table. *)
Theorem xmatch_ned_nothing_found obj sr col_ra col_dec col_id (w : @trace A) :
  (forall coords replies,
     object_coords obj col_ra col_dec = Some coords ->
     ned_answers svc sr w coords replies ->
     Forall (fun r => truthy r = false) replies ->
     xmatch_ned svc obj sr col_ra col_dec col_id w
     = (Return (RList []), w ++ ned_queries sr coords))
  /\ fst (xmatch_ned svc obj sr col_ra col_dec col_id w) <> Return RNone
  /\ (forall l, fst (xmatch_ned svc obj sr col_ra col_dec col_id w) = Return (RList l) ->
                l = [])
  /\ (forall coords ids replies,
        object_coords obj col_ra col_dec = Some coords ->
        object_ids obj col_id = Some ids ->
        ned_answers svc sr w coords replies ->
        Exists (fun r => truthy r = true) replies ->
        forall l, fst (xmatch_ned svc obj sr col_ra col_dec col_id w) <> Return (RList l)).
Proof.
  split; [|split; [|split]].
  - intros coords replies C N F. unfold xmatch_ned, bind.
    assert (LC : List.length coords = len obj) by (eapply object_coords_length; exact C).
    rewrite <- LC.
    rewrite ned_loop_silent with (replies := replies); auto.
    intros j c E. now apply object_coords_rows with (coords := coords).
  - unfold xmatch_ned, bind.
    destruct (ned_loop _ _ _ _ _ _ _ _ _) as [[[|t l]|e] w']; simpl; try discriminate.
    unfold bind, lift, ret.
    match goal with |- context [fold_left ?f ?l ?a] => destruct (fold_left f l a) end;
      simpl; discriminate.
  - intros l. unfold xmatch_ned, bind.
    destruct (ned_loop _ _ _ _ _ _ _ _ _) as [[[|t l']|e] w']; simpl; try discriminate.
    + now intros [= <-].
    + unfold bind, lift, ret.
      match goal with |- context [fold_left ?f ?l ?a] => destruct (fold_left f l a) end;
        simpl; discriminate.
  - intros coords ids replies C I N E l.
    rewrite xmatch_ned_closed with (1 := C) (2 := I) (3 := N). simpl fst.
    assert (NE : included ids replies <> []).
    { apply included_nonempty; auto.
      assert (LR : List.length replies = List.length coords)
        by (eapply ned_answers_length; exact N).
      rewrite LR.
      assert (LC : List.length coords = len obj) by (eapply object_coords_length; exact C).
      rewrite LC. eapply object_ids_length; exact I. }
    destruct (included ids replies) as [|t ts]; [congruence|].
    destruct (vstack (t :: ts)); simpl; discriminate.
Qed.

End NedResults.


(** No object at all, and two objects NED knows nothing about. *)
Lemma xmatch_ned_nothing_found_witness :
  xmatch_ned Sample.silent_ned Sample.no_objects (3 / 3600)%Q "ra" "dec" "id" []
  = (Return (RList []), [])
  /\ xmatch_ned Sample.silent_ned Sample.two_objects (3 / 3600)%Q "ra" "dec" "id" []
     = (Return (RList []), [NedQuery 0%Q 0%Q (3 / 3600)%Q; NedQuery 1%Q 0%Q (3 / 3600)%Q]).
Proof.
  split.
  - exact (proj1 (@xmatch_ned_nothing_found Q Sample.silent_ned Sample.no_objects
                    (3 / 3600)%Q "ra" "dec" "id" [])
                 [] [] eq_refl I (Forall_nil _)).
  - exact (proj1 (@xmatch_ned_nothing_found Q Sample.silent_ned Sample.two_objects
                    (3 / 3600)%Q "ra" "dec" "id" [])
                 [(0, 0); (1, 0)]%Q [Some Sample.ned_empty; None] eq_refl
                 (conj eq_refl (conj eq_refl I))
                 (@Forall_cons _ _ (Some Sample.ned_empty) _ eq_refl
                    (@Forall_cons _ _ None _ eq_refl (Forall_nil _)))).
Defined.

(* ================================================================== *)
(** ** Which service failures are caught *)

Section Errors.
Context {A : Type} `{Scalar A}.
Variable svc : @Services A.

Lemma xmatch_ned_trace obj sr col_ra col_dec col_id (w : @trace A) :
  snd (xmatch_ned svc obj sr col_ra col_dec col_id w)
  = snd (ned_loop svc obj sr col_ra col_dec col_id (seq 0 (len obj)) [] w).
Proof.
  unfold xmatch_ned, bind.
  destruct (ned_loop _ _ _ _ _ _ _ _ _) as [[[|t l]|e] w']; auto.
  unfold lift, ret. now destruct (vstack (t :: l)).
Qed.

Lemma xmatch_ned_raises obj sr col_ra col_dec col_id (w : @trace A) e :
  fst (ned_loop svc obj sr col_ra col_dec col_id (seq 0 (len obj)) [] w) = Raise e ->
  fst (xmatch_ned svc obj sr col_ra col_dec col_id w) = Raise e.
Proof.
  unfold xmatch_ned, bind.
  destruct (ned_loop _ _ _ _ _ _ _ _ _) as [[xcat|e'] w']; simpl;
    [discriminate | now intros [= ->]].
Qed.


End Errors.




(* ================================================================== *)
(** ** The Gaia DR2 correction of G *)

(** The rationals satisfy the laws of the order. *)
Lemma Qltb_lt (a b : Q) : Qltb a b = true <-> (a < b)%Q.
Proof.
  unfold Qltb. rewrite Qlt_alt. destruct (a ?= b)%Q; split; congruence.
Qed.

#[export] Instance Q_ScalarLaws : @ScalarLaws Q Q_Scalar.
Proof.
  split; simpl.
  - reflexivity.
  - intros a b L. apply Qltb_lt in L.
    destruct (Qltb b a) eqn:E; auto. apply Qltb_lt in E. lra.
  - intros a b c L1 L2. apply Qltb_lt in L1, L2. apply Qltb_lt. lra.
  - intros p q L. now apply Qltb_lt.
Qed.

Section MaskedAssignment.
Context {X : Type}.

Lemma map2_map_same {Y Z W} (f : Y -> Z -> W) (a : X -> Y) (b : X -> Z) l :
  map2 f (map a l) (map b l) = map (fun x => f (a x) (b x)) l.
Proof. induction l; simpl; congruence. Qed.

Lemma map2_left_map {Y Z} (f : X -> Y -> Z) (b : X -> Y) l :
  map2 f l (map b l) = map (fun x => f x (b x)) l.
Proof. induction l; simpl; congruence. Qed.

End MaskedAssignment.

Section GCorrection.
Context {A : Type} {HS : Scalar A} {HL : @ScalarLaws A HS}.

Lemma compress_map (p : A -> bool) (f : A -> A) l :
  compress (map p l) (map f l) = map f (compress (map p l) l).
Proof. induction l as [|x l IH]; simpl; auto. destruct (p x); simpl; congruence. Qed.

(** Assigning [f] of the selected elements back to their places. *)
Lemma scatter_map (p : A -> bool) (f h : A -> A) l :
  scatter (map p l) (map f (compress (map p l) l)) (map h l)
  = map (fun x => if p x then f x else h x) l.
Proof.
  induction l as [|x l IH]; simpl; auto.
  destruct (p x); simpl; now rewrite IH.
Qed.

Lemma scatter_map_id (p : A -> bool) (f : A -> A) l :
  scatter (map p l) (map f (compress (map p l) l)) l
  = map (fun x => if p x then f x else x) l.
Proof.
  induction l as [|x l IH]; simpl; auto.
  destruct (p x); simpl; now rewrite IH.
Qed.

(** The three ranges exclude each other. *)
Lemma ranges_disjoint (g : A) :
  (fgt g (lit 16) = true -> fgt g (lit 6) && flt g (lit 16) = false
                           /\ fgt g (lit 2) && flt g (lit 6) = false)
  /\ (fgt g (lit 6) && flt g (lit 16) = true -> fgt g (lit 2) && flt g (lit 6) = false).
Proof.
  split.
  - intros G. rewrite fgt_flt in G. split.
    + rewrite (flt_asym _ _ G). apply andb_false_r.
    + destruct (flt g (lit 6)) eqn:L; [|apply andb_false_r].
      pose proof (flt_lit _ _ (flt_trans _ _ _ G L)) as Abs.
      apply Qlt_not_le in Abs. exfalso. apply Abs. discriminate.
  - intros G. apply andb_true_iff in G. destruct G as [G _].
    rewrite fgt_flt in G. rewrite (flt_asym _ _ G). apply andb_false_r.
Qed.

(** Lines 152-155 on an array: the three assignments through masks
    amount to one elementwise function. *)
Lemma gcorr_map (gs : list A) (cat : @Table A) :
  gcorr (varr gs) cat = Return (varr (map g_correction gs)).
Proof.
  cbv [gcorr assign_where var num lift2 egt elt eand esub eadd emul epow eindex obind
       compare bitand arith power mask_index mask_assign vnum varr].
  do 3 f_equal.
  rewrite !map_map, !map2_map_same, map2_left_map.
  rewrite scatter_map_id, !scatter_map.
  apply map_ext. intros g.
  unfold g_correction.
  destruct (ranges_disjoint g) as [D3 D2].
  destruct (fgt g (lit 16)) eqn:G3.
  - destruct (D3 eq_refl) as [-> ->]. reflexivity.
  - destruct (fgt g (lit 6) && flt g (lit 16)) eqn:G2.
    + rewrite (D2 eq_refl). reflexivity.
    + destruct (fgt g (lit 2) && flt g (lit 6)); reflexivity.
Qed.

End GCorrection.

(* ================================================================== *)
(** ** Reading the columns of an augmented table *)

Section Blocks.
Context {A : Type} `{Scalar A}.
Local Open Scope np_scope.

Lemma block_cons_inv (s : @Table A -> outcome (@Table A)) l t t' :
  block (s :: l) t = Return t' ->
  exists t1, s t = Return t1 /\ block l t1 = Return t'.
Proof.
  unfold block. simpl. destruct (s t) as [t1|e]; [eauto|].
  rewrite fold_obind_Raise. discriminate.
Qed.

Lemma block_nil_inv (t t' : @Table A) : block [] t = Return t' -> t' = t.
Proof. now intros [= ->]. Qed.

Lemma block_app_inv (l1 l2 : list (@Table A -> outcome (@Table A))) : forall t t',
  block (l1 ++ l2) t = Return t' ->
  exists t1, block l1 t = Return t1 /\ block l2 t1 = Return t'.
Proof.
  induction l1 as [|s l1 IH]; intros t t' B.
  - exists t. split; auto.
  - simpl app in B. apply block_cons_inv in B. destruct B as (t0 & S0 & B).
    destruct (IH _ _ B) as (t1 & B1 & B2). exists t1. split; auto.
    unfold block in *. simpl. now rewrite S0.
Qed.

(** A successful [cat[name] = e] changes the column [name] and nothing
    else. *)
Lemma setitem_inv name (e : @expr A) t t' :
  setitem name e t = Return t' ->
  exists v c, e t = Return v /\ to_column v t = Return c
              /\ columns t' = Dict.set name c (columns t) /\ meta t' = meta t.
Proof.
  unfold setitem. intros S.
  apply obind_Return_inv in S. destruct S as (v & E & S).
  apply obind_Return_inv in S. destruct S as (c & C & [= <-]).
  exists v, c. auto.
Qed.

Lemma setitem_frame name (e : @expr A) t t' k :
  setitem name e t = Return t' -> String.eqb k name = false ->
  Dict.get k (columns t') = Dict.get k (columns t).
Proof.
  intros S N. apply setitem_inv in S. destruct S as (v & c & _ & _ & -> & _).
  now apply get_set_other.
Qed.

(** The difference of two columns. *)
Lemma sub_cols_inv a b (t : @Table A) v :
  (col a - col b) t = Return v ->
  exists xs ys, Dict.get a (columns t) = Some (NumCol xs)
                /\ Dict.get b (columns t) = Some (NumCol ys)
                /\ v = varr (map2 fsub xs ys).
Proof.
  cbv [esub lift2 col obind arith].
  destruct (Dict.get a (columns t)) as [[xs| | |]|];
    destruct (Dict.get b (columns t)) as [[ys| | |]|]; try discriminate.
  intros [= <-]. eauto.
Qed.

Lemma range_test_inv a b lo hi (t : @Table A) v :
  ((col a - col b > $lo) & (col a - col b < $hi)) t = Return v ->
  exists xs ys, Dict.get a (columns t) = Some (NumCol xs)
                /\ Dict.get b (columns t) = Some (NumCol ys)
                /\ v = VCol (BoolCol (in_range lo hi xs ys)).
Proof.
  cbv [eand egt elt esub lift2 col num obind arith compare bitand vnum varr].
  destruct (Dict.get a (columns t)) as [[xs| | |]|];
    destruct (Dict.get b (columns t)) as [[ys| | |]|]; try discriminate.
  intros [= <-]. eauto.
Qed.

Lemma good_first_inv a b lo hi (t t' : @Table A) :
  setitem "good" ((col a - col b > $lo) & (col a - col b < $hi)) t = Return t' ->
  exists xs ys, Dict.get a (columns t) = Some (NumCol xs)
                /\ Dict.get b (columns t) = Some (NumCol ys)
                /\ columns t' = Dict.set "good" (BoolCol (in_range lo hi xs ys)) (columns t).
Proof.
  intros S. apply setitem_inv in S. destruct S as (v & c & E & C & Cols & _).
  apply range_test_inv in E. destruct E as (xs & ys & Ga & Gb & ->).
  injection C as <-. eauto.
Qed.

Lemma good_and_inv a b lo hi (t t' : @Table A) :
  setitem_and "good" ((col a - col b > $lo) & (col a - col b < $hi)) t = Return t' ->
  exists good xs ys,
    Dict.get "good" (columns t) = Some (BoolCol good)
    /\ Dict.get a (columns t) = Some (NumCol xs)
    /\ Dict.get b (columns t) = Some (NumCol ys)
    /\ columns t' = Dict.set "good" (BoolCol (map2 andb good (in_range lo hi xs ys)))
                      (columns t).
Proof.
  unfold setitem_and. intros S.
  apply setitem_inv in S. destruct S as (v & c & E & C & Cols & _).
  unfold eand at 1, lift2 at 1 in E.
  apply obind_Return_inv in E. destruct E as (g0 & G0 & E).
  apply obind_Return_inv in E. destruct E as (r & R & E).
  apply range_test_inv in R. destruct R as (xs & ys & Ga & Gb & ->).
  unfold col in G0. destruct (Dict.get "good" (columns t)) as [cg|]; [|discriminate].
  injection G0 as <-. destruct cg as [| good | |]; try discriminate.
  injection E as <-. injection C as <-. exists good, xs, ys. auto.
Qed.

(** One turn of the loop over the passbands of the synthetic photometry. *)
Lemma mag_error_inv x (t t' : @Table A) :
  setitem (String.append "e_" (String.append x "mag"))
    ($2.5 / np_log_10 * col (String.append "e_F" x) / col (String.append "F" x)) t
  = Return t' ->
  exists es fs,
    Dict.get (String.append "e_F" x) (columns t) = Some (NumCol es)
    /\ Dict.get (String.append "F" x) (columns t) = Some (NumCol fs)
    /\ columns t' =
       Dict.set (String.append "e_" (String.append x "mag"))
         (NumCol (map2 fdiv (map (fmul (fdiv (lit 2.5) ln10)) es) fs)) (columns t).
Proof.
  intros S. apply setitem_inv in S. destruct S as (v & c & E & C & Cols & _).
  revert E. cbv [ediv emul lift2 col num np_log_10 obind arith vnum varr].
  destruct (Dict.get (String.append "e_F" x) (columns t)) as [[es| | |]|];
    try discriminate;
    destruct (Dict.get (String.append "F" x) (columns t)) as [[fs| | |]|];
    try discriminate.
  intros [= <-]. injection C as <-. eauto.
Qed.

End Blocks.

(** Step a hypothesis [block (s :: l) t = Return t'] into its statements. *)
Ltac step_block B S :=
  apply block_cons_inv in B;
  let t := fresh "t" in destruct B as (t & S & B).

(** Replace the columns of intermediate tables by what they were set to,
    and look the key up. *)
Ltac chase :=
  repeat match goal with
         | C : columns ?t = Dict.set _ _ _ |- context [columns ?t] => rewrite C
         end;
  repeat first [rewrite get_set_same | rewrite get_set_other by reflexivity].

Ltac chase_in G :=
  repeat match goal with
         | C : columns ?t = Dict.set _ _ _ |- _ =>
             match type of G with context [columns t] => rewrite C in G end
         end;
  repeat first [rewrite get_set_same in G | rewrite get_set_other in G by reflexivity].

(* ================================================================== *)
(** ** What [get_cat_vizier] returns is an augmented table *)

Section Returned.
Context {A : Type} `{Scalar A}.
Variable svc : @Services A.

Lemma finish_cat_table catalog vizier_id name verbose cats (w : @trace A) cat' :
  fst (finish_cat catalog vizier_id name verbose cats w) = Return (RTable cat') ->
  exists cat, augment catalog cat = Return cat'.
Proof.
  unfold finish_cat, bind, lift, ret.
  destruct (first_table cats) as [t|e]; [|discriminate].
  match goal with |- context [log verbose ?a w] =>
    destruct (log_run verbose a w) as (evs & -> & _) end.
  destruct (fix_radec _) as [t1|e]; [|discriminate].
  destruct (augment catalog t1) as [t2|e] eqn:E; [|discriminate].
  simpl. intros [= <-]. eauto.
Qed.

Lemma get_cat_vizier_table ra0 dec0 sr0 catalog limit filters extra verbose
      (w : @trace A) cat' :
  fst (get_cat_vizier svc ra0 dec0 sr0 catalog limit filters extra verbose w)
  = Return (RTable cat') ->
  exists cat, augment catalog cat = Return cat'.
Proof.
  destruct (resolve catalog extra) as [[vizier_id name] cols] eqn:R.
  rewrite get_cat_vizier_unfold with (1 := R).
  destruct (vizier_query_region svc _ _) as [cats1|e]; [|discriminate].
  destruct (not_one_result cats1); [|apply finish_cat_table].
  destruct (vizier_query_region svc _ _) as [cats2|e]; [|discriminate].
  destruct (not_one_result cats2); [discriminate|apply finish_cat_table].
Qed.

End Returned.

(* ================================================================== *)
(** ** ps1 and atlas: the validity flag *)

Section GoodFlag.
Context {A : Type} `{Scalar A}.

Lemma in_range_nth lo hi (xs ys : list A) i :
  nth_error (in_range lo hi xs ys) i =
  match nth_error xs i, nth_error ys i with
  | Some x, Some y =>
      Some (fgt (fsub x y) (lit lo) && flt (fsub x y) (lit hi))
  | _, _ => None
  end.
Proof.
  unfold in_range. rewrite map2_nth_error, !nth_error_map, map2_nth_error.
  destruct (nth_error xs i), (nth_error ys i); reflexivity.
Qed.

(** The column [good] after lines 123-125. *)
Lemma augment_ps1_good (cat cat' : @Table A) :
  augment_ps1 cat = Return cat' ->
  exists gs rs ims zs,
    Dict.get "gmag" (columns cat') = Some (NumCol gs)
    /\ Dict.get "rmag" (columns cat') = Some (NumCol rs)
    /\ Dict.get "imag" (columns cat') = Some (NumCol ims)
    /\ Dict.get "zmag" (columns cat') = Some (NumCol zs)
    /\ Dict.get "good" (columns cat')
       = Some (BoolCol (map2 andb
                          (map2 andb (in_range (-0.5) 2.5 gs rs) (in_range (-0.5) 2.0 rs ims))
                          (in_range (-0.5) 1.0 ims zs))).
Proof.
  unfold augment_ps1. intros B.
  step_block B S1. step_block B S2. step_block B S3. step_block B S4.
  step_block B S5. step_block B S6. step_block B S7. step_block B S8.
  step_block B S9. step_block B S10. step_block B S11.
  apply block_nil_inv in B. subst cat'.
  apply setitem_inv in S1, S2, S3, S4, S8, S9, S10, S11.
  destruct S1 as (? & ? & _ & _ & C1 & _). destruct S2 as (? & ? & _ & _ & C2 & _).
  destruct S3 as (? & ? & _ & _ & C3 & _). destruct S4 as (? & ? & _ & _ & C4 & _).
  destruct S8 as (? & ? & _ & _ & C8 & _). destruct S9 as (? & ? & _ & _ & C9 & _).
  destruct S10 as (? & ? & _ & _ & C10 & _). destruct S11 as (? & ? & _ & _ & C11 & _).
  apply good_first_inv in S5. destruct S5 as (gs & rs & Gg & Gr & C5).
  apply good_and_inv in S6. destruct S6 as (good1 & rs' & ims & G1 & Gr' & Gi & C6).
  apply good_and_inv in S7. destruct S7 as (good2 & ims' & zs & G2 & Gi' & Gz & C7).
  chase_in Gg. chase_in Gr. chase_in G1. chase_in Gr'. chase_in Gi.
  chase_in G2. chase_in Gi'. chase_in Gz.
  rewrite Gr in Gr'. injection Gr' as <-. rewrite Gi in Gi'. injection Gi' as <-.
  injection G1 as <-. injection G2 as <-.
  exists gs, rs, ims, zs. repeat split; chase; auto.
Qed.


End GoodFlag.


(* ================================================================== *)
(** ** gaiadr3syn: magnitude errors from flux errors *)

Section MagnitudeErrors.
Context {A : Type} `{Scalar A}.

(** The columns [e_Xmag] after the loop of lines 193-194 and the four
    assignments that follow it. *)
Lemma augment_gaiadr3syn_errors (cat cat' : @Table A) x :
  augment_gaiadr3syn cat = Return cat' ->
  In x passbands ->
  exists fs es,
    Dict.get (String.append "F" x) (columns cat') = Some (NumCol fs)
    /\ Dict.get (String.append "e_F" x) (columns cat') = Some (NumCol es)
    /\ Dict.get (String.append "e_" (String.append x "mag")) (columns cat')
       = Some (NumCol (map2 fdiv (map (fmul (fdiv (lit 2.5) ln10)) es) fs)).
Proof.
  unfold augment_gaiadr3syn. intros B X.
  apply block_app_inv in B. destruct B as (t0 & B & B').
  unfold passbands in B. cbn [map] in B.
  step_block B S1. step_block B S2. step_block B S3. step_block B S4.
  step_block B S5. step_block B S6. step_block B S7. step_block B S8.
  step_block B S9. step_block B S10. step_block B S11.
  apply block_nil_inv in B. subst t0.
  step_block B' T1. step_block B' T2. step_block B' T3. step_block B' T4.
  apply block_nil_inv in B'. subst cat'.
  apply setitem_inv in T1, T2, T3, T4.
  destruct T1 as (? & ? & _ & _ & D1 & _). destruct T2 as (? & ? & _ & _ & D2 & _).
  destruct T3 as (? & ? & _ & _ & D3 & _). destruct T4 as (? & ? & _ & _ & D4 & _).
  apply (mag_error_inv "U") in S1. destruct S1 as (e1 & f1 & E1 & F1 & C1).
  apply (mag_error_inv "B") in S2. destruct S2 as (e2 & f2 & E2 & F2 & C2).
  apply (mag_error_inv "V") in S3. destruct S3 as (e3 & f3 & E3 & F3 & C3).
  apply (mag_error_inv "R") in S4. destruct S4 as (e4 & f4 & E4 & F4 & C4).
  apply (mag_error_inv "I") in S5. destruct S5 as (e5 & f5 & E5 & F5 & C5).
  apply (mag_error_inv "u") in S6. destruct S6 as (e6 & f6 & E6 & F6 & C6).
  apply (mag_error_inv "g") in S7. destruct S7 as (e7 & f7 & E7 & F7 & C7).
  apply (mag_error_inv "r") in S8. destruct S8 as (e8 & f8 & E8 & F8 & C8).
  apply (mag_error_inv "i") in S9. destruct S9 as (e9 & f9 & E9 & F9 & C9).
  apply (mag_error_inv "z") in S10. destruct S10 as (e10 & f10 & E10 & F10 & C10).
  apply (mag_error_inv "y") in S11. destruct S11 as (e11 & f11 & E11 & F11 & C11).
  cbn [String.append] in *.
  chase_in E1. chase_in F1. chase_in E2. chase_in F2. chase_in E3. chase_in F3.
  chase_in E4. chase_in F4. chase_in E5. chase_in F5. chase_in E6. chase_in F6.
  chase_in E7. chase_in F7. chase_in E8. chase_in F8. chase_in E9. chase_in F9.
  chase_in E10. chase_in F10. chase_in E11. chase_in F11.
  simpl in X.
  repeat (destruct X as [<- | X];
          [cbn [String.append]; do 2 eexists; repeat split; chase; eauto|]).
  contradiction.
Qed.


End MagnitudeErrors.


(* ================================================================== *)
(** ** gaiadr2: the corrected G and the fits that use it *)

Section GaiaDR2.
Context {A : Type} {HS : Scalar A} {HL : @ScalarLaws A HS}.
Local Open Scope np_scope.

Lemma flt_lit_irrefl (p : Q) : flt (lit p) (lit p) = false.
Proof.
  destruct (flt (lit p) (lit p)) eqn:E; auto.
  apply flt_lit in E. now apply Qlt_irrefl in E.
Qed.

Lemma flt_lit_false (p q : Q) : (q <= p)%Q -> flt (lit p) (lit q) = false.
Proof.
  intros L. destruct (flt (lit p) (lit q)) eqn:E; auto.
  apply flt_lit in E. now apply Qlt_not_le in E.
Qed.

(** The column [i_SDSS] of the augmented table and the columns it is
    computed from. *)
Lemma augment_gaiadr2_i_SDSS (cat cat' : @Table A) :
  augment_gaiadr2 cat = Return cat' ->
  exists gs bps rps,
    Dict.get "Gmag" (columns cat') = Some (NumCol gs)
    /\ Dict.get "BPmag" (columns cat') = Some (NumCol bps)
    /\ Dict.get "RPmag" (columns cat') = Some (NumCol rps)
    /\ Dict.get "i_SDSS" (columns cat')
       = Some (NumCol
           (map2 fsub (map g_correction gs)
              (map2 fsub
                 (map (fadd (lit (-0.29676)))
                      (map (fmul (lit 0.64728)) (map2 fsub bps rps)))
                 (map (fmul (lit 0.10141))
                      (map (fun x => fpow x 2) (map2 fsub bps rps)))))).
Proof.
  unfold augment_gaiadr2. intros B.
  apply obind_Return_inv in B. destruct B as (g & G & B).
  apply obind_Return_inv in B. destruct B as (bp_rp & BP & B).
  apply obind_Return_inv in B. destruct B as (Cstar & _ & B).
  apply obind_Return_inv in B. destruct B as (g' & GC & B).
  apply sub_cols_inv in BP. destruct BP as (bps & rps & Gb & Gr & ->).
  unfold col in G. destruct (Dict.get "Gmag" (columns cat)) as [c|] eqn:Gg; [|discriminate].
  injection G as <-.
  destruct c as [gs| | |]; try (cbv in GC; discriminate).
  change (VCol (NumCol gs)) with (varr gs) in GC. rewrite gcorr_map in GC.
  injection GC as <-.
  step_block B S1. step_block B S2. step_block B S3. step_block B S4.
  step_block B S5. step_block B S6. step_block B S7. step_block B S8.
  step_block B S9. apply block_nil_inv in B. subst cat'.
  apply setitem_inv in S1, S2, S3, S4, S5, S6, S7, S8, S9.
  destruct S1 as (? & ? & _ & _ & C1 & _). destruct S2 as (? & ? & _ & _ & C2 & _).
  destruct S3 as (? & ? & _ & _ & C3 & _). destruct S4 as (? & ? & _ & _ & C4 & _).
  destruct S5 as (? & ? & _ & _ & C5 & _). destruct S6 as (? & ? & _ & _ & C6 & _).
  destruct S7 as (? & ? & _ & _ & C7 & _). destruct S8 as (? & ? & _ & _ & C8 & _).
  destruct S9 as (v & c & E & C & C9 & _).
  cbv [esub eadd emul epow lift2 var num obind arith power vnum varr] in E.
  injection E as <-. injection C as <-.
  exists gs, bps, rps. repeat split; chase; auto.
Qed.


End GaiaDR2.


(* ================================================================== *)
(** ** The augmentation succeeds on numeric columns *)

Section Totality.
Context {A : Type} `{Scalar A}.
Local Open Scope np_scope.

Lemma col_array k (t : @Table A) : numeric k t -> yields_array (col k) t.
Proof. intros (l & G). exists l. unfold col. now rewrite G. Qed.

Lemma col_mask k (t : @Table A) : boolean k t -> yields_mask (col k) t.
Proof. intros (l & G). exists l. unfold col. now rewrite G. Qed.

Lemma num_number q (t : @Table A) : yields_number (num q) t.
Proof. now eexists. Qed.

Lemma log_number (t : @Table A) : yields_number np_log_10 t.
Proof. now eexists. Qed.

Lemma var_array l (t : @Table A) : yields_array (var (varr l)) t.
Proof. now eexists. Qed.

Lemma arith_aa f (e1 e2 : @expr A) t :
  yields_array e1 t -> yields_array e2 t -> yields_array (lift2 (arith f) e1 e2) t.
Proof.
  intros (l1 & E1) (l2 & E2). red. unfold lift2. rewrite E1, E2. now eexists.
Qed.

Lemma arith_an f (e1 e2 : @expr A) t :
  yields_array e1 t -> yields_number e2 t -> yields_array (lift2 (arith f) e1 e2) t.
Proof.
  intros (l1 & E1) (l2 & E2). red. unfold lift2. rewrite E1, E2. now eexists.
Qed.

Lemma arith_na f (e1 e2 : @expr A) t :
  yields_number e1 t -> yields_array e2 t -> yields_array (lift2 (arith f) e1 e2) t.
Proof.
  intros (l1 & E1) (l2 & E2). red. unfold lift2. rewrite E1, E2. now eexists.
Qed.

Lemma arith_nn f (e1 e2 : @expr A) t :
  yields_number e1 t -> yields_number e2 t -> yields_number (lift2 (arith f) e1 e2) t.
Proof.
  intros (l1 & E1) (l2 & E2). red. unfold lift2. rewrite E1, E2. now eexists.
Qed.

Lemma compare_an f (e1 e2 : @expr A) t :
  yields_array e1 t -> yields_number e2 t -> yields_mask (lift2 (compare f) e1 e2) t.
Proof.
  intros (l1 & E1) (l2 & E2). red. unfold lift2. rewrite E1, E2. now eexists.
Qed.

Lemma and_mm (e1 e2 : @expr A) t :
  yields_mask e1 t -> yields_mask e2 t -> yields_mask (eand e1 e2) t.
Proof.
  intros (l1 & E1) (l2 & E2). red. unfold eand, lift2. rewrite E1, E2. now eexists.
Qed.

Lemma pow_array (e : @expr A) n t : yields_array e t -> yields_array (epow e n) t.
Proof. intros (l & E). red. unfold epow. rewrite E. now eexists. Qed.

Lemma np_polyval_array p : forall (acc l : list A),
  exists r,
    fold_left
      (fun (o : outcome (@value A)) (pv : Q) =>
         y <-? o ;; yx <-? arith fmul y (varr l) ;; arith fadd yx (vnum (lit pv)))
      p (Return (varr acc))
    = Return (varr r).
Proof.
  induction p as [|pv p IH]; intros acc l; simpl; [now eexists|]. apply IH.
Qed.

Lemma polyval_array p (e : @expr A) t : yields_array e t -> yields_array (polyval p e) t.
Proof.
  intros (l & E). red. unfold polyval, np_polyval. rewrite E. simpl.
  apply np_polyval_array.
Qed.

(** [cat[name] = e] for an array [e]: the table gains the numeric column
    [name] and keeps its other numeric columns. *)
Lemma setitem_array name (e : @expr A) t :
  yields_array e t ->
  exists t', setitem name e t = Return t'
             /\ forall ks, Forall (fun k => numeric k t) ks ->
                           Forall (fun k => numeric k t') (name :: ks).
Proof.
  intros (l & E). unfold setitem. rewrite E. simpl. eexists. split; [reflexivity|].
  intros ks N. constructor.
  - exists l. simpl. apply get_set_same.
  - eapply Forall_impl; [|exact N]. intros k (lk & G). unfold numeric. simpl.
    destruct (String.eqb k name) eqn:Ek.
    + apply String.eqb_eq in Ek. subst k. rewrite get_set_same. eauto.
    + rewrite get_set_other by exact Ek. eauto.
Qed.

(** [cat[name] = e] for a boolean array [e], [name] not being one of the
    numeric columns [ks]. *)
Lemma setitem_mask name (e : @expr A) t ks :
  yields_mask e t ->
  existsb (String.eqb name) ks = false ->
  Forall (fun k => numeric k t) ks ->
  exists t', setitem name e t = Return t'
             /\ boolean name t' /\ Forall (fun k => numeric k t') ks.
Proof.
  intros (l & E) Fresh N. unfold setitem. rewrite E. simpl. eexists.
  split; [reflexivity|]. split.
  - exists l. simpl. apply get_set_same.
  - rewrite Forall_forall in *. intros k I. destruct (N k I) as (lk & G).
    exists lk. simpl. rewrite get_set_other; auto.
    destruct (String.eqb k name) eqn:Ek; auto.
    apply String.eqb_eq in Ek. subst k.
    assert (X : existsb (String.eqb name) ks = true).
    { apply existsb_exists. exists name. split; auto. apply String.eqb_refl. }
    congruence.
Qed.

Lemma setitem_and_eq name (e : @expr A) :
  setitem_and name e = setitem name (eand (col name) e).
Proof. reflexivity. Qed.

Lemma block_step (s : @Table A -> outcome (@Table A)) l t t1 :
  s t = Return t1 -> block (s :: l) t = block l t1.
Proof. intros S. unfold block. simpl. now rewrite S. Qed.

Lemma numeric_in ks k (t : @Table A) :
  Forall (fun k => numeric k t) ks -> In k ks -> numeric k t.
Proof. rewrite Forall_forall. auto. Qed.

End Totality.

(** The kind of value of an expression, from the kinds of its parts. *)
Ltac np_kind :=
  solve
    [ assumption
    | apply num_number
    | apply log_number
    | apply var_array
    | apply col_array; eapply numeric_in;
      [eassumption | cbn; repeat (first [left; reflexivity | right])]
    | apply col_mask; assumption
    | apply polyval_array; np_kind
    | apply pow_array; np_kind
    | apply and_mm; np_kind
    | apply compare_an; np_kind
    | apply arith_aa; np_kind
    | apply arith_an; np_kind
    | apply arith_na; np_kind
    | apply arith_nn; np_kind ].

(** Run the next statement of a block of assignments of arrays. *)
Ltac run_array :=
  match goal with
  | N : Forall (fun k => numeric k ?t) _
    |- exists t', block (setitem ?name ?e :: ?l) ?t = Return t' =>
      let t1 := fresh "t" in
      let S := fresh "S" in
      let N1 := fresh "N" in
      let Y := fresh "Y" in
      assert (Y : yields_array e t) by np_kind;
      destruct (setitem_array name Y) as (t1 & S & N1);
      specialize (N1 _ N); rewrite block_step with (1 := S); clear S N Y
  end.

Section TotalityResults.
Context {A : Type} `{Scalar A}.
Local Open Scope np_scope.

(** The ps1/atlas branch returns a table as soon as the four magnitudes
    are numeric columns. *)
Lemma augment_ps1_returns (cat : @Table A) :
  Forall (fun k => numeric k cat) ["gmag"; "rmag"; "imag"; "zmag"] ->
  exists cat', augment_ps1 cat = Return cat'.
Proof.
  intros N. unfold augment_ps1.
  do 4 run_array.
  match goal with
  | N : Forall _ ?ks |- exists t', block (setitem ?name ?e :: ?l) ?t = Return t' =>
      assert (Y5 : yields_mask e t) by np_kind;
      destruct (setitem_mask name (ks := ks) Y5 eq_refl N) as (t5 & S5 & B5 & N5);
      rewrite block_step with (1 := S5); clear S5 N Y5
  end.
  rewrite !setitem_and_eq.
  match goal with
  | N : Forall _ ?ks |- exists t', block (setitem ?name ?e :: ?l) ?t = Return t' =>
      assert (Y6 : yields_mask e t) by np_kind;
      destruct (setitem_mask name (ks := ks) Y6 eq_refl N) as (t6 & S6 & B6 & N6);
      rewrite block_step with (1 := S6); clear S6 N B5 Y6
  end.
  match goal with
  | N : Forall _ ?ks |- exists t', block (setitem ?name ?e :: ?l) ?t = Return t' =>
      assert (Y7 : yields_mask e t) by np_kind;
      destruct (setitem_mask name (ks := ks) Y7 eq_refl N) as (t7 & S7 & B7 & N7);
      rewrite block_step with (1 := S7); clear S7 N B6 Y7
  end.
  do 4 run_array.
  now eexists.
Qed.

(** The gaiadr3syn branch returns a table as soon as the fluxes, the flux
    errors and the four Sloan magnitudes are numeric columns. *)
Lemma augment_gaiadr3syn_returns (cat : @Table A) :
  Forall (fun k => numeric k cat)
    (flat_map (fun x => [String.append "F" x; String.append "e_F" x]) passbands
     ++ ["gmag"; "rmag"; "imag"; "zmag"]) ->
  exists cat', augment_gaiadr3syn cat = Return cat'.
Proof.
  intros N. unfold augment_gaiadr3syn, passbands in *.
  cbn [map app flat_map String.append] in *.
  do 15 run_array.
  now eexists.
Qed.

Lemma gcorr_array (gs : list A) (cat : @Table A) :
  exists l, gcorr (varr gs) cat = Return (varr l).
Proof.
  eexists.
  cbv [gcorr assign_where var num lift2 egt elt eand esub eadd emul epow eindex obind
       compare bitand arith power mask_index mask_assign vnum varr].
  reflexivity.
Qed.

(** The gaiadr2 branch returns a table as soon as G, BP, RP and the
    excess factor are numeric columns. *)
Lemma augment_gaiadr2_returns (cat : @Table A) :
  Forall (fun k => numeric k cat) ["Gmag"; "BPmag"; "RPmag"; "E_BR_RP_"] ->
  exists cat', augment_gaiadr2 cat = Return cat'.
Proof.
  intros N. unfold augment_gaiadr2.
  assert (G : yields_array (col "Gmag") cat) by np_kind.
  destruct G as (gs & ->). cbn [obind].
  assert (B : yields_array (col "BPmag" - col "RPmag") cat) by np_kind.
  destruct B as (bp_rp & ->). cbn [obind].
  match goal with |- context [obind (?e cat)] =>
    assert (C : yields_array e cat) by np_kind end.
  destruct C as (Cstar & ->). cbn [obind].
  destruct (gcorr_array gs cat) as (g & ->). cbn [obind].
  do 9 run_array.
  now eexists.
Qed.

End TotalityResults.

Section Returns.
Context {A : Type} `{Scalar A}.
Variable svc : @Services A.

Lemma finish_cat_fst catalog vizier_id name verbose t rest (w : @trace A) :
  fst (finish_cat catalog vizier_id name verbose (Some (t :: rest)) w)
  = (t1 <-? fix_radec (set_meta "name" name (set_meta "vizier_id" vizier_id t)) ;;
     t2 <-? augment catalog t1 ;;
     Return (RTable t2)).
Proof.
  unfold finish_cat, bind, lift, ret. simpl first_table. cbv iota beta.
  match goal with |- context [log verbose ?a w] =>
    destruct (log_run verbose a w) as (evs & -> & _) end.
  destruct (fix_radec _) as [t1|e]; simpl; auto.
  destruct (augment catalog t1); auto.
Qed.

(** For the catalogues with fits, [get_cat_vizier] does return a table
    when Vizier delivers one result set whose columns, after the
    coordinate columns got their canonical names, include the numeric
    columns the branch of the catalogue reads. *)
Theorem get_cat_vizier_returns ra0 dec0 sr0 catalog limit filters extra verbose
      vizier_id name cols (w : @trace A) t t1 :
  resolve catalog extra = (vizier_id, name, cols) ->
  vizier_query_region svc
    (snd (announce verbose vizier_id cols ra0 dec0 sr0 filters w))
    (mkVizierRequest limit cols filters ra0 dec0 sr0 vizier_id true)
  = Return (Some [t]) ->
  fix_radec (set_meta "name" name (set_meta "vizier_id" vizier_id t)) = Return t1 ->
  ((catalog = "ps1" \/ catalog = "atlas")
   /\ Forall (fun k => numeric k t1) ["gmag"; "rmag"; "imag"; "zmag"])
  \/ (catalog = "gaiadr2"
      /\ Forall (fun k => numeric k t1) ["Gmag"; "BPmag"; "RPmag"; "E_BR_RP_"])
  \/ (catalog = "gaiadr3syn"
      /\ Forall (fun k => numeric k t1)
           (flat_map (fun x => [String.append "F" x; String.append "e_F" x]) passbands
            ++ ["gmag"; "rmag"; "imag"; "zmag"])) ->
  exists cat',
    fst (get_cat_vizier svc ra0 dec0 sr0 catalog limit filters extra verbose w)
    = Return (RTable cat').
Proof.
  intros R Q F K.
  rewrite get_cat_vizier_unfold with (1 := R). rewrite Q.
  simpl not_one_result. cbv iota. rewrite finish_cat_fst, F. simpl obind.
  assert (Aug : exists cat', augment catalog t1 = Return cat').
  { destruct K as [[[-> | ->] N] | [[-> N] | [-> N]]].
    - now apply augment_ps1_returns.
    - now apply augment_ps1_returns.
    - now apply augment_gaiadr2_returns.
    - now apply augment_gaiadr3syn_returns. }
  destruct Aug as (cat' & ->). now exists cat'.
Qed.

End Returns.

Lemma get_cat_vizier_returns_witness :
  exists cat',
    fst (get_cat_vizier (Sample.vizier_has Sample.ps1_table)
           10%Q 20%Q (1 # 2)%Q "ps1" (-1) [] [] Quiet [])
    = Return (RTable cat').
Proof.
  refine (@get_cat_vizier_returns Q _ (Sample.vizier_has Sample.ps1_table)
            10%Q 20%Q (1 # 2)%Q "ps1" (-1)%Z [] [] Quiet "II/349/ps1" "PanSTARRS DR1"
            ["*"; "RAJ2000"; "DEJ2000"; "e_RAJ2000"; "e_DEJ2000"] []
            Sample.ps1_table _ eq_refl eq_refl eq_refl _).
  left. split; [now left|].
  repeat constructor; eexists; reflexivity.
Defined.

(** Over the rationals the domain test is the one of the documentation:
    three strict double inequalities on the colour indices. *)
Lemma in_fit_domain_rational (g r i z : Q) :
  in_fit_domain g r i z <->
  ((-0.5 < g - r)%Q /\ (g - r < 2.5)%Q)
  /\ ((-0.5 < r - i)%Q /\ (r - i < 2.0)%Q)
  /\ ((-0.5 < i - z)%Q /\ (i - z < 1.0)%Q).
Proof.
  unfold in_fit_domain. simpl. rewrite !Qltb_lt. reflexivity.
Qed.

(* ================================================================== *)
(** ** The value of an expression at one row *)

Section Entries.
Context {A : Type} `{Scalar A}.
Local Open Scope np_scope.

Lemma lift2_inv (op : @value A -> @value A -> outcome (@value A)) (e1 e2 : @expr A) t v :
  lift2 op e1 e2 t = Return v ->
  exists a b, e1 t = Return a /\ e2 t = Return b /\ op a b = Return v.
Proof.
  unfold lift2. intros E.
  apply obind_Return_inv in E. destruct E as (a & E1 & E).
  apply obind_Return_inv in E. destruct E as (b & E2 & E). eauto.
Qed.

Lemma arith_entry (f : A -> A -> A) (a b v : @value A) n :
  arith f a b = Return v -> entry v n = entry2 f (entry a n) (entry b n).
Proof.
  destruct a as [[x| | |]|[l| | |]], b as [[y| | |]|[l'| | |]]; simpl;
    try discriminate; intros [= <-]; simpl; auto.
  - rewrite nth_error_map. now destruct (nth_error l' n).
  - rewrite nth_error_map. now destruct (nth_error l n).
  - apply map2_nth_error.
Qed.

(** An operation with an array on one side gives an array. *)
Lemma arith_array_l (f : A -> A -> A) c (b v : @value A) :
  arith f (VCol c) b = Return v -> exists l, v = VCol (NumCol l).
Proof.
  destruct c, b as [[| | |]|[| | |]]; simpl; try discriminate; intros [= <-];
    eexists; reflexivity.
Qed.

Lemma arith_array_r (f : A -> A -> A) c (a v : @value A) :
  arith f a (VCol c) = Return v -> exists l, v = VCol (NumCol l).
Proof.
  destruct c, a as [[| | |]|[| | |]]; simpl; try discriminate; intros [= <-];
    eexists; reflexivity.
Qed.

Lemma power_entry (a v : @value A) k n :
  power a k = Return v -> entry v n = option_map (fun x => fpow x k) (entry a n).
Proof.
  destruct a as [[x| | |]|[l| | |]]; simpl; try discriminate; intros [= <-]; simpl; auto.
  apply nth_error_map.
Qed.

Lemma power_array c (v : @value A) k :
  power (VCol c) k = Return v -> exists l, v = VCol (NumCol l).
Proof. destruct c; simpl; try discriminate; intros [= <-]; eexists; reflexivity. Qed.

Lemma epow_inv (e : @expr A) k t v :
  epow e k t = Return v -> exists a, e t = Return a /\ power a k = Return v.
Proof. unfold epow. apply obind_Return_inv. Qed.

Lemma polyval_inv p (e : @expr A) t v :
  polyval p e t = Return v -> exists x, e t = Return x /\ np_polyval p x = Return v.
Proof. unfold polyval. apply obind_Return_inv. Qed.

Lemma np_polyval_fold p (x : @value A) n : forall (y0 v : @value A) (h : A -> A),
  entry y0 n = option_map h (entry x n) ->
  fold_left
    (fun (acc : outcome (@value A)) (pv : Q) =>
       y <-? acc ;; yx <-? arith fmul y x ;; arith fadd yx (vnum (lit pv)))
    p (Return y0) = Return v ->
  entry v n
  = option_map (fun a => fold_left (fun y pv => fadd (fmul y a) (lit pv)) p (h a)) (entry x n).
Proof.
  induction p as [|pv p IH]; intros y0 v h E0 F.
  - injection F as <-. exact E0.
  - simpl in F.
    destruct (arith fmul y0 x) as [yx|e] eqn:M;
      [|simpl in F; rewrite fold_obind_Raise in F; discriminate].
    simpl in F.
    destruct (arith fadd yx (vnum (lit pv))) as [y1|e] eqn:S;
      [|rewrite fold_obind_Raise in F; discriminate].
    simpl. apply (IH y1 v (fun a => fadd (fmul (h a) a) (lit pv))); auto.
    rewrite arith_entry with (1 := S). rewrite arith_entry with (1 := M).
    rewrite E0. simpl.
    now destruct (entry x n).
Qed.

(** [np.polyval] evaluates the polynomial row by row. *)
Lemma np_polyval_entry p (x v : @value A) n :
  np_polyval p x = Return v -> entry v n = option_map (horner p) (entry x n).
Proof.
  unfold np_polyval. intros F.
  destruct (zeros_like x) as [y0|e] eqn:Z; [|rewrite fold_obind_Raise in F; discriminate].
  apply np_polyval_fold with (n := n) (h := fun _ : A => lit 0) in F; [exact F|].
  destruct x as [[a| | |]|[l| | |]]; try discriminate; injection Z as <-; simpl; auto.
  apply nth_error_map.
Qed.

Lemma np_polyval_array_inv p c (v : @value A) :
  np_polyval p (VCol c) = Return v -> exists l, v = VCol (NumCol l).
Proof.
  unfold np_polyval. destruct c as [l| | |]; simpl;
    try (rewrite fold_obind_Raise; discriminate).
  intros F. destruct (np_polyval_array p (map (fun _ => lit 0) l) l) as (r & R).
  assert (E : Return v = Return (varr r)) by (rewrite <- F, <- R; reflexivity).
  injection E as ->. now exists r.
Qed.

Lemma col_inv k (t : @Table A) v :
  col k t = Return v ->
  exists c, Dict.get k (columns t) = Some c /\ v = VCol c.
Proof.
  unfold col. destruct (Dict.get k (columns t)) as [c|]; [|discriminate].
  intros [= <-]. eauto.
Qed.

Lemma col_entry k (t : @Table A) c n :
  Dict.get k (columns t) = Some c -> entry (VCol c) n = cell k t n.
Proof. unfold cell. now intros ->. Qed.

Lemma cell_frame k (t t' : @Table A) n :
  Dict.get k (columns t') = Dict.get k (columns t) -> cell k t' n = cell k t n.
Proof. unfold cell. now intros ->. Qed.

Lemma cell_set k (t : @Table A) c n :
  Dict.get k (columns t) = Some c -> cell k t n = entry (VCol c) n.
Proof. unfold cell. now intros ->. Qed.

Lemma to_column_array c (t : @Table A) c' :
  to_column (VCol c) t = Return c' -> c' = c.
Proof. now intros [= <-]. Qed.

End Entries.

(** Turn [E : e t = Return v] into the value of [v] at row [n], in terms
    of the cells of [t]; [v] is replaced by what its kind is known to be. *)
Ltac np_arith_kind O :=
  first
    [ apply arith_array_l in O; let l := fresh "l" in destruct O as (l & ->)
    | apply arith_array_r in O; let l := fresh "l" in destruct O as (l & ->)
    | simpl in O; injection O as <- ].

Ltac np_inv E n :=
  lazymatch type of E with
  | col ?k ?t = Return ?v =>
      let c := fresh "c" in
      let G := fresh "G" in
      apply col_inv in E; destruct E as (c & G & ->);
      apply col_entry with (n := n) in G; rename G into E
  | num ?q ?t = Return ?v =>
      injection E as <-;
      assert (E : entry (vnum (lit q)) n = Some (lit q)) by reflexivity
  | np_log_10 ?t = Return ?v =>
      injection E as <-;
      assert (E : entry (vnum ln10) n = Some ln10) by reflexivity
  | var ?x ?t = Return ?v =>
      injection E as <-;
      assert (E : entry x n = entry x n) by reflexivity
  | epow ?e ?k ?t = Return ?v =>
      let a := fresh "a" in
      let E1 := fresh "E" in
      let O := fresh "O" in
      apply epow_inv in E; destruct E as (a & E1 & O);
      np_inv E1 n;
      pose proof O as E; apply power_entry with (n := n) in E;
      try rewrite E1 in E; clear E1;
      first [ apply power_array in O; let l := fresh "l" in destruct O as (l & ->)
            | simpl in O; injection O as <- ]
  | polyval ?p ?e ?t = Return ?v =>
      let a := fresh "a" in
      let E1 := fresh "E" in
      let O := fresh "O" in
      apply polyval_inv in E; destruct E as (a & E1 & O);
      np_inv E1 n;
      pose proof O as E; apply np_polyval_entry with (n := n) in E;
      try rewrite E1 in E; clear E1;
      apply np_polyval_array_inv in O; let l := fresh "l" in destruct O as (l & ->)
  | _ ?e1 ?e2 ?t = Return ?v =>
      let a := fresh "a" in
      let b := fresh "b" in
      let E1 := fresh "E" in
      let E2 := fresh "E" in
      let O := fresh "O" in
      apply lift2_inv in E; destruct E as (a & b & E1 & E2 & O);
      np_inv E1 n; np_inv E2 n;
      pose proof O as E; apply arith_entry with (n := n) in E;
      try rewrite E1 in E; try rewrite E2 in E; clear E1 E2;
      np_arith_kind O
  end.


(** Express the cells of the goal by the cells of the table [t0] the
    block started from and by the values assigned since. *)
Ltac cell_norm t0 :=
  repeat match goal with
         | |- context [cell ?k ?t ?n] =>
             lazymatch t with t0 => fail | _ => idtac end;
             first [ erewrite (@cell_set _ k t _ n) by (chase; reflexivity)
                   | rewrite (@cell_frame _ k t0 t n) by (chase; reflexivity) ]
         end.

Ltac cell_norm_in E t0 := revert E; cell_norm t0; intro E.

(** [inv_set], with the cells read in the table [t0]. *)
Ltac inv_set_at S n t0 :=
  let v := fresh "v" in
  let c := fresh "c" in
  let E := fresh "E" in
  let C := fresh "C" in
  let Cols := fresh "Cols" in
  apply setitem_inv in S; destruct S as (v & c & E & C & Cols & _);
  np_inv E n; apply to_column_array in C; subst c;
  cell_norm_in E t0.

(** A copy [cat[name] = cat[k]]. *)
Ltac inv_copy S :=
  let v := fresh "v" in
  let c := fresh "c" in
  let c0 := fresh "c" in
  let E := fresh "E" in
  let C := fresh "C" in
  let G := fresh "G" in
  let Cols := fresh "Cols" in
  apply setitem_inv in S; destruct S as (v & c & E & C & Cols & _);
  apply col_inv in E; destruct E as (c0 & G & ->);
  apply to_column_array in C; subst c; chase_in G.

(** Only the column a statement sets. *)
Ltac inv_cols S :=
  let Cols := fresh "Cols" in
  apply setitem_inv in S; destruct S as (? & ? & _ & _ & Cols & _).

(** Close a goal on the cell of an assigned column by the equation the
    assignment gave. *)
Ltac cell_solve t0 :=
  cell_norm t0;
  match goal with E : entry ?v ?n = _ |- entry ?v ?n = _ => rewrite E end;
  repeat match goal with |- context [cell ?k ?t ?n] => destruct (cell k t n) end;
  repeat match goal with |- context [entry ?v ?n] => destruct (entry v n) end;
  reflexivity.

(* ================================================================== *)
(** ** What a returned table owes to the table Vizier delivered *)

Section Frame.
Context {A : Type} `{Scalar A}.
Local Open Scope np_scope.

Lemma contains_set (V : Type) k k' (v : V) d :
  Dict.contains k d = true -> Dict.contains k (Dict.set k' v d) = true.
Proof.
  unfold Dict.contains. intros C.
  destruct (String.eqb k k') eqn:E.
  - apply String.eqb_eq in E. subst k'. now rewrite get_set_same.
  - now rewrite get_set_other.
Qed.

Lemma assigns_only_setitem ks name (e : @expr A) :
  In name ks -> assigns_only ks (setitem name e).
Proof.
  intros I t t' S. apply setitem_inv in S. destruct S as (v & c & _ & _ & Cols & M).
  split; [exact M|]. rewrite Cols. split.
  - intros k N. apply get_set_other.
    destruct (String.eqb k name) eqn:E; auto.
    apply String.eqb_eq in E. subst k. contradiction.
  - intros k. apply contains_set.
Qed.

Lemma assigns_only_block ks (l : list (@Table A -> outcome (@Table A))) :
  Forall (assigns_only ks) l -> assigns_only ks (block l).
Proof.
  induction 1 as [|s l S _ IH]; intros t t' B.
  - apply block_nil_inv in B. subst t'. auto.
  - apply block_cons_inv in B. destruct B as (t1 & S1 & B).
    destruct (S _ _ S1) as (M1 & F1 & K1). destruct (IH _ _ B) as (M2 & F2 & K2).
    split; [congruence|]. split.
    + intros k N. rewrite F2, F1; auto.
    + auto.
Qed.

Lemma assigns_only_map ks (f : string -> string) (g : string -> @expr A) xs :
  incl (map f xs) ks ->
  Forall (assigns_only ks) (map (fun x => setitem (f x) (g x)) xs).
Proof.
  induction xs as [|x xs IH]; intros I; simpl; constructor.
  - apply assigns_only_setitem. apply I. now left.
  - apply IH. intros k K. apply I. now right.
Qed.

(** The augmentation assigns the columns of its branch and nothing else. *)
Lemma augment_assigns catalog : assigns_only (written catalog) (augment catalog).
Proof.
  unfold augment, written.
  destruct (String.eqb catalog "ps1" || String.eqb catalog "atlas").
  { apply assigns_only_block. unfold setitem_and.
    repeat (apply Forall_cons; [apply assigns_only_setitem; simpl; tauto|]).
    apply Forall_nil. }
  destruct (String.eqb catalog "gaiadr2").
  { intros t t' B. unfold augment_gaiadr2 in B.
    apply obind_Return_inv in B. destruct B as (g & _ & B).
    apply obind_Return_inv in B. destruct B as (bp_rp & _ & B).
    apply obind_Return_inv in B. destruct B as (Cstar & _ & B).
    apply obind_Return_inv in B. destruct B as (g' & _ & B).
    revert t t' B. apply assigns_only_block.
    repeat (apply Forall_cons; [apply assigns_only_setitem; simpl; tauto|]).
    apply Forall_nil. }
  destruct (String.eqb catalog "skymapper").
  { apply assigns_only_block.
    apply (assigns_only_map (fun x => String.append x "_PS1") (fun x => col (String.append x "PSF"))).
    apply incl_refl. }
  destruct (String.eqb catalog "apass").
  { apply assigns_only_block. apply Forall_app. split.
    - repeat (apply Forall_cons; [apply assigns_only_setitem; simpl; tauto|]).
      apply Forall_nil.
    - apply (assigns_only_map (fun x => x) (fun x => col (String.append x "mag"))).
      simpl. intros k K. simpl. tauto. }
  destruct (String.eqb catalog "gaiadr3syn").
  { apply assigns_only_block. apply Forall_app. split.
    - apply (assigns_only_map (fun x => String.append "e_" (String.append x "mag"))
               (fun x => $2.5 / np_log_10 * col (String.append "e_F" x)
                         / col (String.append "F" x))).
      apply incl_appl, incl_refl.
    - repeat (apply Forall_cons;
              [apply assigns_only_setitem; apply in_or_app; right; simpl; tauto|]).
      apply Forall_nil. }
  intros t t' [= <-]. auto.
Qed.

(** No branch assigns a coordinate column. *)
Lemma written_not_radec catalog k :
  In k ["_RAJ2000"; "_DEJ2000"; "RAJ2000"; "DEJ2000"] -> ~ In k (written catalog).
Proof.
  unfold written, passbands. intros K.
  destruct (String.eqb catalog "ps1" || String.eqb catalog "atlas");
    [|destruct (String.eqb catalog "gaiadr2");
      [|destruct (String.eqb catalog "skymapper");
        [|destruct (String.eqb catalog "apass");
          [|destruct (String.eqb catalog "gaiadr3syn")]]]];
    simpl in *; intuition (subst; discriminate).
Qed.

Lemma get_rename_new (V : Type) old new (d : Dict.t V) v :
  Dict.get new d = None -> Dict.get old d = Some v ->
  Dict.get new (Dict.rename old new d) = Some v.
Proof.
  induction d as [|[k0 v0] d IH]; simpl; [discriminate|].
  intros N O.
  destruct (String.eqb new k0) eqn:En; [discriminate|].
  destruct (String.eqb old k0) eqn:Eo; simpl.
  - injection O as ->. now rewrite String.eqb_refl.
  - rewrite En. auto.
Qed.

Lemma fix_radec_canonical (t t' : @Table A) :
  fix_radec t = Return t' ->
  meta t' = meta t /\ columns t' = canonical_radec (columns t).
Proof.
  intros F. apply fix_radec_effect in F. destruct F as (M & _ & C). auto.
Qed.

(** After a successful renaming the canonical names hold the data of
    the underscored columns. *)
Lemma fix_radec_coords (t t' : @Table A) :
  fix_radec t = Return t' ->
  Dict.contains "_RAJ2000" (columns t) && Dict.contains "_DEJ2000" (columns t)
    && negb (Dict.contains "RAJ2000" (columns t)) = true ->
  Dict.get "RAJ2000" (columns t') = Dict.get "_RAJ2000" (columns t)
  /\ Dict.get "DEJ2000" (columns t') = Dict.get "_DEJ2000" (columns t)
  /\ Dict.contains "RAJ2000" (columns t') = true
  /\ Dict.contains "DEJ2000" (columns t') = true.
Proof.
  unfold fix_radec. intros F C. rewrite C in F.
  apply andb_true_iff in C. destruct C as [C C3].
  apply andb_true_iff in C. destruct C as [C1 C2].
  apply negb_true_iff in C3.
  simpl in F. unfold rename_column at 1 in F. rewrite C1, C3 in F. simpl in F.
  unfold rename_column in F. simpl in F.
  destruct (Dict.contains "_DEJ2000" (Dict.rename "_RAJ2000" "RAJ2000" (columns t)));
    [|discriminate].
  simpl in F.
  destruct (Dict.contains "DEJ2000" (Dict.rename "_RAJ2000" "RAJ2000" (columns t))) eqn:C4;
    [discriminate|].
  injection F as <-. simpl.
  unfold Dict.contains in *.
  destruct (Dict.get "_RAJ2000" (columns t)) as [ra|] eqn:G1; [|discriminate].
  destruct (Dict.get "_DEJ2000" (columns t)) as [de|] eqn:G2; [|discriminate].
  destruct (Dict.get "RAJ2000" (columns t)) eqn:G3; [discriminate|].
  destruct (Dict.get "DEJ2000" (Dict.rename "_RAJ2000" "RAJ2000" (columns t))) eqn:G4;
    [discriminate|].
  assert (R1 : Dict.get "RAJ2000" (Dict.rename "_RAJ2000" "RAJ2000" (columns t)) = Some ra)
    by now apply get_rename_new.
  assert (R2 : Dict.get "_DEJ2000" (Dict.rename "_RAJ2000" "RAJ2000" (columns t)) = Some de)
    by (rewrite get_rename_other by reflexivity; exact G2).
  rewrite get_rename_other by reflexivity. rewrite R1.
  rewrite get_rename_new with (v := de); auto.
Qed.

End Frame.

Section Origin.
Context {A : Type} `{Scalar A}.
Variable svc : @Services A.

Lemma one_result_inv (cats : option (list (@Table A))) :
  not_one_result cats = false -> exists t, cats = Some [t].
Proof.
  destruct cats as [[|t [|t' l]]|]; simpl; try discriminate. eauto.
Qed.

Lemma finish_cat_origin catalog vizier_id name verbose cats (w : @trace A) cat' :
  not_one_result cats = false ->
  fst (finish_cat catalog vizier_id name verbose cats w) = Return (RTable cat') ->
  exists t t1,
    cats = Some [t]
    /\ fix_radec (set_meta "name" name (set_meta "vizier_id" vizier_id t)) = Return t1
    /\ augment catalog t1 = Return cat'.
Proof.
  intros N R. apply one_result_inv in N. destruct N as (t & ->).
  rewrite finish_cat_fst in R.
  apply obind_Return_inv in R. destruct R as (t1 & F & R).
  apply obind_Return_inv in R. destruct R as (t2 & G & [= <-]).
  eauto.
Qed.

(** A returned table is the augmented, renamed, labelled table that
    Vizier delivered. *)
Lemma get_cat_vizier_origin ra0 dec0 sr0 catalog limit filters extra verbose
      vizier_id name cols (w : @trace A) cat' :
  resolve catalog extra = (vizier_id, name, cols) ->
  fst (get_cat_vizier svc ra0 dec0 sr0 catalog limit filters extra verbose w)
  = Return (RTable cat') ->
  exists t t1,
    delivers svc ra0 dec0 sr0 catalog limit filters extra verbose w t
    /\ fix_radec (set_meta "name" name (set_meta "vizier_id" vizier_id t)) = Return t1
    /\ augment catalog t1 = Return cat'.
Proof.
  intros R. unfold delivers. rewrite R.
  rewrite get_cat_vizier_unfold with (1 := R).
  destruct (vizier_query_region svc _ _) as [cats1|e]; [|discriminate].
  destruct (not_one_result cats1) eqn:N1.
  - destruct (vizier_query_region svc _ _) as [cats2|e]; [|discriminate].
    destruct (not_one_result cats2) eqn:N2; [discriminate|].
    intros F. apply finish_cat_origin in F; auto.
    destruct F as (t & t1 & -> & F & G). exists t, t1. split; auto.
    right. exists cats1. auto.
  - intros F. apply finish_cat_origin in F; auto.
    destruct F as (t & t1 & -> & F & G). exists t, t1. auto.
Qed.

Lemma resolve_eq catalog extra :
  resolve catalog extra
  = (match Dict.get catalog catalogs with Some d => vizier d | None => catalog end,
     match Dict.get catalog catalogs with Some d => name d | None => catalog end,
     snd (resolve catalog extra)).
Proof. unfold resolve. now destruct (Dict.get catalog catalogs). Qed.

(** X2.  Whenever [get_cat_vizier] returns a table, its
    [meta['vizier_id']] and [meta['name']] are the identifier and the
    name the catalogue resolves to (lines 68-77: the entries of
    [catalogs], or the catalogue string itself when it is not a key of
    [catalogs]), and the whole metadata is that of the table Vizier
    delivered with these two entries set (lines 93-95); neither the
    renaming nor any augmentation touches it. *)
Theorem get_cat_vizier_metadata ra0 dec0 sr0 catalog limit filters extra verbose
      (w : @trace A) cat' :
  fst (get_cat_vizier svc ra0 dec0 sr0 catalog limit filters extra verbose w)
  = Return (RTable cat') ->
  let vizier_id :=
    match Dict.get catalog catalogs with Some d => vizier d | None => catalog end in
  let name :=
    match Dict.get catalog catalogs with Some d => name d | None => catalog end in
  Dict.get "vizier_id" (meta cat') = Some vizier_id
  /\ Dict.get "name" (meta cat') = Some name
  /\ exists t,
       delivers svc ra0 dec0 sr0 catalog limit filters extra verbose w t
       /\ meta cat' = Dict.set "name" name (Dict.set "vizier_id" vizier_id (meta t)).
Proof.
  intros R vizier_id name.
  destruct (get_cat_vizier_origin _ _ _ _ _ _ _ _ _ (resolve_eq catalog extra) R)
    as (t & t1 & D & F & G).
  fold vizier_id name in F.
  apply fix_radec_canonical in F. destruct F as (M1 & _).
  destruct (augment_assigns catalog _ G) as (M2 & _).
  assert (M : meta cat' = Dict.set "name" name (Dict.set "vizier_id" vizier_id (meta t)))
    by (rewrite M2, M1; reflexivity).
  split; [|split; [|eauto]].
  - rewrite M. rewrite get_set_other by reflexivity. apply get_set_same.
  - rewrite M. apply get_set_same.
Qed.

(** X3.  Whenever [get_cat_vizier] returns a table, every column that
    is not a target of an assignment of the branch of the catalogue
    (lines 118-206) is the column of the table Vizier delivered, after the
    renaming of lines 99-101; and no column of that table is lost.  For a
    catalogue without a branch this is every column. *)
Theorem get_cat_vizier_frame ra0 dec0 sr0 catalog limit filters extra verbose
      (w : @trace A) cat' :
  fst (get_cat_vizier svc ra0 dec0 sr0 catalog limit filters extra verbose w)
  = Return (RTable cat') ->
  exists t,
    delivers svc ra0 dec0 sr0 catalog limit filters extra verbose w t
    /\ (forall k, ~ In k (written catalog) ->
          Dict.get k (columns cat') = Dict.get k (canonical_radec (columns t)))
    /\ (forall k, Dict.contains k (canonical_radec (columns t)) = true ->
          Dict.contains k (columns cat') = true).
Proof.
  intros R.
  destruct (get_cat_vizier_origin _ _ _ _ _ _ _ _ _ (resolve_eq catalog extra) R)
    as (t & t1 & D & F & G).
  apply fix_radec_canonical in F. destruct F as (_ & C1). simpl in C1.
  destruct (augment_assigns catalog _ G) as (_ & Fr & K).
  exists t. rewrite <- C1. auto.
Qed.

(** X4.  The coordinates of a returned table (lines 99-101).  When the
    table Vizier delivered has [_RAJ2000] and [_DEJ2000] and no [RAJ2000],
    the returned table has [RAJ2000] and [DEJ2000], holding the data of
    the underscored columns; otherwise each of the four coordinate columns
    is as Vizier delivered it.  No augmentation writes a coordinate
    column. *)
Theorem get_cat_vizier_coordinates ra0 dec0 sr0 catalog limit filters extra verbose
      (w : @trace A) cat' :
  fst (get_cat_vizier svc ra0 dec0 sr0 catalog limit filters extra verbose w)
  = Return (RTable cat') ->
  exists t,
    delivers svc ra0 dec0 sr0 catalog limit filters extra verbose w t
    /\ if Dict.contains "_RAJ2000" (columns t) && Dict.contains "_DEJ2000" (columns t)
          && negb (Dict.contains "RAJ2000" (columns t))
       then Dict.get "RAJ2000" (columns cat') = Dict.get "_RAJ2000" (columns t)
            /\ Dict.get "DEJ2000" (columns cat') = Dict.get "_DEJ2000" (columns t)
            /\ Dict.contains "RAJ2000" (columns cat') = true
            /\ Dict.contains "DEJ2000" (columns cat') = true
       else forall k, In k ["_RAJ2000"; "_DEJ2000"; "RAJ2000"; "DEJ2000"] ->
                      Dict.get k (columns cat') = Dict.get k (columns t).
Proof.
  intros R.
  destruct (get_cat_vizier_origin _ _ _ _ _ _ _ _ _ (resolve_eq catalog extra) R)
    as (t & t1 & D & F & G).
  destruct (augment_assigns catalog _ G) as (_ & Fr & K).
  exists t. split; auto.
  destruct (Dict.contains "_RAJ2000" (columns t) && Dict.contains "_DEJ2000" (columns t)
            && negb (Dict.contains "RAJ2000" (columns t))) eqn:C.
  - apply fix_radec_coords in F; [|exact C]. simpl in F.
    destruct F as (F1 & F2 & F3 & F4).
    rewrite !Fr by (apply written_not_radec; simpl; tauto).
    auto.
  - intros k I. rewrite Fr by now apply written_not_radec.
    apply fix_radec_canonical in F. destruct F as (_ & ->).
    unfold canonical_radec. simpl. now rewrite C.
Qed.

End Origin.

Lemma get_cat_vizier_metadata_witness :
  Dict.get "vizier_id" (meta (Sample.retrieved "ps1" Sample.ps1_table)) = Some "II/349/ps1"
  /\ Dict.get "name" (meta (Sample.retrieved "ps1" Sample.ps1_table)) = Some "PanSTARRS DR1"
  /\ exists t,
       delivers (Sample.vizier_has Sample.ps1_table) 10%Q 20%Q (1 # 2)%Q "ps1" (-1) [] []
         Quiet [] t
       /\ meta (Sample.retrieved "ps1" Sample.ps1_table)
          = Dict.set "name" "PanSTARRS DR1" (Dict.set "vizier_id" "II/349/ps1" (meta t)).
Proof.
  exact (@get_cat_vizier_metadata Q _ (Sample.vizier_has Sample.ps1_table)
           10%Q 20%Q (1 # 2)%Q "ps1" (-1)%Z [] [] Quiet []
           (Sample.retrieved "ps1" Sample.ps1_table) eq_refl).
Defined.

Lemma get_cat_vizier_frame_witness :
  exists t,
    delivers (Sample.vizier_has Sample.ps1_table) 10%Q 20%Q (1 # 2)%Q "ps1" (-1) [] []
      Quiet [] t
    /\ (forall k, ~ In k (written "ps1") ->
          Dict.get k (columns (Sample.retrieved "ps1" Sample.ps1_table))
          = Dict.get k (canonical_radec (columns t)))
    /\ (forall k, Dict.contains k (canonical_radec (columns t)) = true ->
          Dict.contains k (columns (Sample.retrieved "ps1" Sample.ps1_table)) = true).
Proof.
  exact (@get_cat_vizier_frame Q _ (Sample.vizier_has Sample.ps1_table)
           10%Q 20%Q (1 # 2)%Q "ps1" (-1)%Z [] [] Quiet []
           (Sample.retrieved "ps1" Sample.ps1_table) eq_refl).
Defined.

Lemma get_cat_vizier_coordinates_witness :
  exists t,
    delivers (Sample.vizier_has Sample.ps1_table) 10%Q 20%Q (1 # 2)%Q "ps1" (-1) [] []
      Quiet [] t
    /\ if Dict.contains "_RAJ2000" (columns t) && Dict.contains "_DEJ2000" (columns t)
          && negb (Dict.contains "RAJ2000" (columns t))
       then Dict.get "RAJ2000" (columns (Sample.retrieved "ps1" Sample.ps1_table))
            = Dict.get "_RAJ2000" (columns t)
            /\ Dict.get "DEJ2000" (columns (Sample.retrieved "ps1" Sample.ps1_table))
               = Dict.get "_DEJ2000" (columns t)
            /\ Dict.contains "RAJ2000" (columns (Sample.retrieved "ps1" Sample.ps1_table))
               = true
            /\ Dict.contains "DEJ2000" (columns (Sample.retrieved "ps1" Sample.ps1_table))
               = true
       else forall k, In k ["_RAJ2000"; "_DEJ2000"; "RAJ2000"; "DEJ2000"] ->
                      Dict.get k (columns (Sample.retrieved "ps1" Sample.ps1_table))
                      = Dict.get k (columns t).
Proof.
  exact (@get_cat_vizier_coordinates Q _ (Sample.vizier_has Sample.ps1_table)
           10%Q 20%Q (1 # 2)%Q "ps1" (-1)%Z [] [] Quiet []
           (Sample.retrieved "ps1" Sample.ps1_table) eq_refl).
Defined.

Section ControlFlow.
Context {A : Type} `{Scalar A}.
Variable svc : @Services A.

Lemma announce_queries verbose vizier_id cols ra0 dec0 sr0 filters (w : @trace A) :
  vizier_queries (snd (announce verbose vizier_id cols ra0 dec0 sr0 filters w))
  = vizier_queries w.
Proof.
  destruct (announce_run verbose vizier_id cols ra0 dec0 sr0 filters w) as (evs & -> & V).
  simpl. now rewrite vizier_queries_app, V, app_nil_r.
Qed.

(** Every run begins its dealings with Vizier by the cached request. *)
Lemma get_cat_vizier_first_request ra0 dec0 sr0 catalog limit filters extra verbose
      vizier_id name cols (w : @trace A) :
  resolve catalog extra = (vizier_id, name, cols) ->
  exists rest,
    vizier_queries
      (snd (get_cat_vizier svc ra0 dec0 sr0 catalog limit filters extra verbose w))
    = vizier_queries w
      ++ mkVizierRequest limit cols filters ra0 dec0 sr0 vizier_id true :: rest.
Proof.
  intros R. rewrite get_cat_vizier_unfold with (1 := R).
  set (q := mkVizierRequest limit cols filters ra0 dec0 sr0 vizier_id).
  set (w1 := snd (announce verbose vizier_id cols ra0 dec0 sr0 filters w)).
  assert (V1 : vizier_queries w1 = vizier_queries w) by apply announce_queries.
  assert (Fin : forall cats evs,
            exists rest,
              vizier_queries
                (snd (finish_cat catalog vizier_id name verbose cats
                        ((w1 ++ [VizierQuery (q true)]) ++ evs)))
              = vizier_queries w ++ q true :: rest).
  { intros cats evs.
    destruct (finish_cat_run catalog vizier_id name verbose cats
                ((w1 ++ [VizierQuery (q true)]) ++ evs)) as (evs' & -> & _).
    rewrite !vizier_queries_app, V1, <- !app_assoc. simpl. eauto. }
  assert (Stop : forall evs,
            exists rest,
              vizier_queries ((w1 ++ [VizierQuery (q true)]) ++ evs)
              = vizier_queries w ++ q true :: rest).
  { intros evs. rewrite !vizier_queries_app, V1, <- !app_assoc. simpl. eauto. }
  destruct (vizier_query_region svc w1 (q true)) as [cats1|e].
  - destruct (not_one_result cats1).
    + destruct (vizier_query_region svc _ (q false)) as [cats2|e].
      * destruct (not_one_result cats2).
        -- simpl. rewrite <- app_assoc. apply Stop.
        -- apply Fin.
      * simpl. apply Stop.
    + specialize (Fin cats1 []). now rewrite app_nil_r in Fin.
  - simpl. specialize (Stop []). now rewrite app_nil_r in Stop.
Qed.

(** X5.  The requests one call of [get_cat_vizier] sends to Vizier
    (lines 83-88): the cached request alone, or the cached request
    followed by the same request with [cache=False], and nothing else.
    The second request is not sent when the first answer is exactly one
    result set, nor when the first request raises. *)
Theorem get_cat_vizier_requests ra0 dec0 sr0 catalog limit filters extra verbose
      vizier_id name cols (w : @trace A) :
  resolve catalog extra = (vizier_id, name, cols) ->
  let q := mkVizierRequest limit cols filters ra0 dec0 sr0 vizier_id in
  let w1 := snd (announce verbose vizier_id cols ra0 dec0 sr0 filters w) in
  let asked :=
    vizier_queries
      (snd (get_cat_vizier svc ra0 dec0 sr0 catalog limit filters extra verbose w)) in
  (asked = vizier_queries w ++ [q true] \/ asked = vizier_queries w ++ [q true; q false])
  /\ (forall cats1,
        vizier_query_region svc w1 (q true) = Return cats1 ->
        not_one_result cats1 = false ->
        asked = vizier_queries w ++ [q true])
  /\ (forall e,
        vizier_query_region svc w1 (q true) = Raise e ->
        asked = vizier_queries w ++ [q true]).
Proof.
  intros R q w1 asked. subst asked.
  rewrite get_cat_vizier_unfold with (1 := R). fold q w1.
  assert (V1 : vizier_queries w1 = vizier_queries w) by apply announce_queries.
  assert (One : forall cats,
            vizier_queries
              (snd (finish_cat catalog vizier_id name verbose cats (w1 ++ [VizierQuery (q true)])))
            = vizier_queries w ++ [q true]).
  { intros cats.
    destruct (finish_cat_run catalog vizier_id name verbose cats (w1 ++ [VizierQuery (q true)]))
      as (evs & -> & V).
    rewrite !vizier_queries_app, V, V1. simpl. now rewrite app_nil_r. }
  assert (Two : forall cats,
            vizier_queries
              (snd (finish_cat catalog vizier_id name verbose cats
                      ((w1 ++ [VizierQuery (q true)]) ++ [VizierQuery (q false)])))
            = vizier_queries w ++ [q true; q false]).
  { intros cats.
    destruct (finish_cat_run catalog vizier_id name verbose cats
                ((w1 ++ [VizierQuery (q true)]) ++ [VizierQuery (q false)]))
      as (evs & -> & V).
    rewrite !vizier_queries_app, V, V1. simpl. now rewrite app_nil_r, <- app_assoc. }
  assert (T1 : vizier_queries (w1 ++ [VizierQuery (q true)]) = vizier_queries w ++ [q true]).
  { rewrite vizier_queries_app, V1. reflexivity. }
  assert (T2 : vizier_queries ((w1 ++ [VizierQuery (q true)]) ++ [VizierQuery (q false)])
               = vizier_queries w ++ [q true; q false]).
  { rewrite vizier_queries_app, T1, <- app_assoc. reflexivity. }
  split; [|split].
  - destruct (vizier_query_region svc w1 (q true)) as [cats1|e]; [|left; exact T1].
    destruct (not_one_result cats1); [|left; apply One].
    right.
    destruct (vizier_query_region svc _ (q false)) as [cats2|e]; [|exact T2].
    destruct (not_one_result cats2); [|apply Two].
    simpl. rewrite vizier_queries_app, T2. simpl. now rewrite app_nil_r.
  - intros cats1 Q1 N1. rewrite Q1, N1. apply One.
  - intros e Q1. rewrite Q1. exact T1.
Qed.

Lemma finish_cat_not_none catalog vizier_id name verbose cats (w : @trace A) r :
  fst (finish_cat catalog vizier_id name verbose cats w) = Return r ->
  exists t, r = RTable t.
Proof.
  unfold finish_cat, bind, lift, ret.
  destruct (first_table cats) as [t|e]; [|discriminate].
  match goal with |- context [log verbose ?a w] =>
    destruct (log_run verbose a w) as (evs & -> & _) end.
  destruct (fix_radec _) as [t1|e]; [|discriminate].
  destruct (augment catalog t1) as [t2|e]; [|discriminate].
  simpl. intros [= <-]. eauto.
Qed.

(** X6.  [get_cat_vizier] returns [None] exactly when both requests
    are answered and neither answer is exactly one result set (lines
    86-91); it then ends by printing [Error requesting catalogue] and the
    catalogue as the caller gave it.  It never returns a list. *)
Theorem get_cat_vizier_none_iff ra0 dec0 sr0 catalog limit filters extra verbose
      vizier_id name cols (w : @trace A) :
  resolve catalog extra = (vizier_id, name, cols) ->
  let q := mkVizierRequest limit cols filters ra0 dec0 sr0 vizier_id in
  let w1 := snd (announce verbose vizier_id cols ra0 dec0 sr0 filters w) in
  let run := get_cat_vizier svc ra0 dec0 sr0 catalog limit filters extra verbose w in
  (fst run = Return RNone <->
   exists cats1 cats2,
     vizier_query_region svc w1 (q true) = Return cats1
     /\ not_one_result cats1 = true
     /\ vizier_query_region svc (w1 ++ [VizierQuery (q true)]) (q false) = Return cats2
     /\ not_one_result cats2 = true)
  /\ (fst run = Return RNone ->
      exists w', snd run = w' ++ [Printed [PStr "Error requesting catalogue"; PStr catalog]])
  /\ (forall l, fst run <> Return (RList l)).
Proof.
  intros R q w1 run. subst run.
  rewrite get_cat_vizier_unfold with (1 := R). fold q w1.
  assert (NN : forall cats w0,
            fst (finish_cat catalog vizier_id name verbose cats w0) <> Return RNone).
  { intros cats w0 E. apply finish_cat_not_none in E. destruct E as (t & E). discriminate. }
  assert (NL : forall cats w0 l,
            fst (finish_cat catalog vizier_id name verbose cats w0) <> Return (RList l)).
  { intros cats w0 l E. apply finish_cat_not_none in E. destruct E as (t & E). discriminate. }
  destruct (vizier_query_region svc w1 (q true)) as [cats1|e].
  - destruct (not_one_result cats1) eqn:N1.
    + destruct (vizier_query_region svc _ (q false)) as [cats2|e].
      * destruct (not_one_result cats2) eqn:N2.
        -- split; [|split].
           ++ split; [intros _; exists cats1, cats2; auto | reflexivity].
           ++ intros _. eexists. reflexivity.
           ++ discriminate.
        -- split; [|split].
           ++ split; [intros E; now apply NN in E|].
              intros (c1 & c2 & [= <-] & _ & [= <-] & N). congruence.
           ++ intros E. now apply NN in E.
           ++ intros l. apply NL.
      * split; [|split]; try discriminate.
        split; [discriminate|]. intros (c1 & c2 & _ & _ & Q & _). discriminate.
    + split; [|split].
      * split; [intros E; now apply NN in E|].
        intros (c1 & c2 & [= <-] & N & _). congruence.
      * intros E. now apply NN in E.
      * intros l. apply NL.
  - split; [|split]; try discriminate.
    split; [discriminate|]. intros (c1 & c2 & Q & _). discriminate.
Qed.

Lemma printed_app (w w' : @trace A) : printed (w ++ w') = printed w ++ printed w'.
Proof. apply flat_map_app. Qed.

Lemma log_printed verbose args (w : @trace A) :
  verbose <> Verbose ->
  exists evs, log verbose args w = (Return tt, w ++ evs) /\ printed evs = [].
Proof.
  intros N. destruct verbose; [| contradiction |]; cbv [log print_ call ret].
  - exists []. now rewrite app_nil_r.
  - now eexists [_].
Qed.

Lemma announce_printed verbose vizier_id cols ra0 dec0 sr0 filters (w : @trace A) :
  verbose <> Verbose ->
  printed (snd (announce verbose vizier_id cols ra0 dec0 sr0 filters w)) = printed w.
Proof.
  intros N. unfold announce, bind.
  destruct (log_printed [PStr "Requesting from VizieR:"; PStr vizier_id;
                         PStr "columns:"; PStrList cols] w N) as (e1 & -> & P1).
  destruct (log_printed [PStr "Center:"; PNum ra0; PNum dec0; PStr "radius:"; PNum sr0]
              (w ++ e1) N) as (e2 & -> & P2).
  destruct (log_printed [PStr "Filters:"; PDict filters] ((w ++ e1) ++ e2) N)
    as (e3 & -> & P3).
  simpl. now rewrite !printed_app, P1, P2, P3, !app_nil_r.
Qed.

Lemma finish_cat_printed catalog vizier_id name verbose cats (w : @trace A) :
  verbose <> Verbose ->
  printed (snd (finish_cat catalog vizier_id name verbose cats w)) = printed w.
Proof.
  intros N. unfold finish_cat, bind, lift, ret.
  destruct (first_table cats) as [t|e]; [|reflexivity].
  match goal with |- context [log verbose ?a w] =>
    destruct (log_printed a w N) as (evs & -> & P) end.
  assert (E : printed (w ++ evs) = printed w) by now rewrite printed_app, P, app_nil_r.
  destruct (fix_radec _); simpl; auto.
  destruct (augment _ _); simpl; auto.
Qed.

(** X7.  Unless [verbose] is [True], a call of [get_cat_vizier]
    prints nothing, except for the failure message of line 90, which goes
    through [print] itself and not through [log] (line 64): it is printed
    also when [verbose] is [False] or a callable. *)
Theorem get_cat_vizier_prints ra0 dec0 sr0 catalog limit filters extra verbose
      (w : @trace A) :
  verbose <> Verbose ->
  printed (snd (get_cat_vizier svc ra0 dec0 sr0 catalog limit filters extra verbose w))
  = printed w
    ++ match fst (get_cat_vizier svc ra0 dec0 sr0 catalog limit filters extra verbose w) with
       | Return RNone => [[PStr "Error requesting catalogue"; PStr catalog]]
       | _ => []
       end.
Proof.
  intros N. destruct (resolve catalog extra) as [[vizier_id name] cols] eqn:R.
  rewrite get_cat_vizier_unfold with (1 := R).
  set (q := mkVizierRequest limit cols filters ra0 dec0 sr0 vizier_id).
  set (w1 := snd (announce verbose vizier_id cols ra0 dec0 sr0 filters w)).
  assert (P1 : printed w1 = printed w) by now apply announce_printed.
  assert (Fin : forall cats w0,
            printed w0 = printed w ->
            printed (snd (finish_cat catalog vizier_id name verbose cats w0))
            = printed w
              ++ match fst (finish_cat catalog vizier_id name verbose cats w0) with
                 | Return RNone => [[PStr "Error requesting catalogue"; PStr catalog]]
                 | _ => []
                 end).
  { intros cats w0 P0. rewrite finish_cat_printed by exact N. rewrite P0.
    destruct (fst (finish_cat catalog vizier_id name verbose cats w0)) as [r|e] eqn:E;
      [|now rewrite app_nil_r].
    apply finish_cat_not_none in E. destruct E as (t & ->). now rewrite app_nil_r. }
  destruct (vizier_query_region svc w1 (q true)) as [cats1|e].
  - destruct (not_one_result cats1).
    + destruct (vizier_query_region svc _ (q false)) as [cats2|e].
      * destruct (not_one_result cats2).
        -- simpl. rewrite !printed_app, P1. simpl. now rewrite !app_nil_r.
        -- apply Fin. rewrite !printed_app, P1. simpl. now rewrite !app_nil_r.
      * simpl. rewrite !printed_app, P1. simpl. now rewrite !app_nil_r.
    + apply Fin. rewrite !printed_app, P1. simpl. now rewrite !app_nil_r.
  - simpl. rewrite !printed_app, P1. simpl. now rewrite !app_nil_r.
Qed.

End ControlFlow.

Lemma get_cat_vizier_requests_witness :
  let q := mkVizierRequest (-1) ["*"; "RAJ2000"; "DEJ2000"; "e_RAJ2000"; "e_DEJ2000"]
             [] 10%Q 20%Q (1 # 2)%Q "II/349/ps1" in
  vizier_queries
    (snd (get_cat_vizier (Sample.vizier_has Sample.ps1_table)
            10%Q 20%Q (1 # 2)%Q "ps1" (-1) [] [] Quiet []))
  = [] ++ [q true].
Proof.
  intros q.
  exact (proj1 (proj2 (@get_cat_vizier_requests Q _ (Sample.vizier_has Sample.ps1_table)
                         10%Q 20%Q (1 # 2)%Q "ps1" (-1)%Z [] [] Quiet
                         "II/349/ps1" "PanSTARRS DR1"
                         ["*"; "RAJ2000"; "DEJ2000"; "e_RAJ2000"; "e_DEJ2000"] [] eq_refl))
               (Some [Sample.ps1_table]) eq_refl eq_refl).
Defined.

Lemma get_cat_vizier_none_iff_witness :
  fst (get_cat_vizier (Sample.world (Return None) (Return (Some [])) (Raise RuntimeError))
         10%Q 20%Q (1 # 2)%Q "ps1" (-1) [] [] Callback [])
  = Return RNone
  /\ exists w',
       snd (get_cat_vizier (Sample.world (Return None) (Return (Some [])) (Raise RuntimeError))
              10%Q 20%Q (1 # 2)%Q "ps1" (-1) [] [] Callback [])
       = w' ++ [Printed [PStr "Error requesting catalogue"; PStr "ps1"]].
Proof.
  destruct (@get_cat_vizier_none_iff Q _
              (Sample.world (Return None) (Return (Some [])) (Raise RuntimeError))
              10%Q 20%Q (1 # 2)%Q "ps1" (-1)%Z [] [] Callback
              "II/349/ps1" "PanSTARRS DR1"
              ["*"; "RAJ2000"; "DEJ2000"; "e_RAJ2000"; "e_DEJ2000"] [] eq_refl)
    as (Iff & Last & _).
  split; [reflexivity | exact (Last eq_refl)].
Defined.

Lemma get_cat_vizier_prints_witness :
  printed
    (snd (get_cat_vizier (Sample.world (Return None) (Return (Some [])) (Raise RuntimeError))
            10%Q 20%Q (1 # 2)%Q "ps1" (-1) [] [] Callback []))
  = [] ++ [[PStr "Error requesting catalogue"; PStr "ps1"]]
  /\ printed
       (snd (get_cat_vizier (Sample.vizier_has Sample.ps1_table)
               10%Q 20%Q (1 # 2)%Q "ps1" (-1) [] [] Callback []))
     = [] ++ [].
Proof.
  split.
  - refine (@get_cat_vizier_prints Q _
              (Sample.world (Return None) (Return (Some [])) (Raise RuntimeError))
              10%Q 20%Q (1 # 2)%Q "ps1" (-1)%Z [] [] Callback [] _).
    discriminate.
  - refine (@get_cat_vizier_prints Q _ (Sample.vizier_has Sample.ps1_table)
              10%Q 20%Q (1 # 2)%Q "ps1" (-1)%Z [] [] Callback [] _).
    discriminate.
Defined.

(* ================================================================== *)
(** ** The fits, row by row *)

Section Fits.
Context {A : Type} `{Scalar A}.
Variable svc : @Services A.




(** X11.  For [skymapper] (lines 174-175) each of [u_PS1], [g_PS1],
    [r_PS1], [i_PS1], [z_PS1] of the returned table is the column
    [uPSF], ..., [zPSF], which the returned table still has. *)
Theorem skymapper_copies ra0 dec0 sr0 limit filters extra verbose (w : @trace A) cat' x :
  In x ["u"; "g"; "r"; "i"; "z"] ->
  fst (get_cat_vizier svc ra0 dec0 sr0 "skymapper" limit filters extra verbose w)
  = Return (RTable cat') ->
  Dict.get (String.append x "_PS1") (columns cat')
  = Dict.get (String.append x "PSF") (columns cat')
  /\ Dict.contains (String.append x "PSF") (columns cat') = true.
Proof.
  intros X R. apply get_cat_vizier_table in R. destruct R as (cat & B).
  change (augment_skymapper cat = Return cat') in B.
  unfold augment_skymapper in B. cbn [map String.append] in B.
  step_block B S1. step_block B S2. step_block B S3. step_block B S4. step_block B S5.
  apply block_nil_inv in B. subst cat'.
  inv_copy S1. inv_copy S2. inv_copy S3. inv_copy S4. inv_copy S5.
  simpl in X.
  repeat (destruct X as [<- | X];
          [cbn [String.append]; unfold Dict.contains; chase;
           repeat match goal with G : _ = Some _ |- _ => rewrite G end; split; reflexivity|]).
  contradiction.
Qed.


End Fits.




Lemma skymapper_copies_witness :
  Dict.get "g_PS1" (columns (Sample.retrieved "skymapper" Sample.skymapper_table))
  = Some (NumCol [16.0%Q])
  /\ Dict.contains "gPSF" (columns (Sample.retrieved "skymapper" Sample.skymapper_table))
     = true.
Proof.
  exact (@skymapper_copies Q _ (Sample.vizier_has Sample.skymapper_table)
           10%Q 20%Q (1 # 2)%Q (-1)%Z [] [] Quiet []
           (Sample.retrieved "skymapper" Sample.skymapper_table) "g"
           (or_intror (or_introl eq_refl)) eq_refl).
Defined.


(* ================================================================== *)
(** ** gaiadr2: the fits on the corrected G *)

(** The first four bindings of the gaiadr2 branch, read at row [n]. *)
Ltac inv_gaiadr2_prefix B n cat :=
  let g := fresh "g" in
  let bp_rp := fresh "bp_rp" in
  let Cstar := fresh "Cstar" in
  let g' := fresh "g'" in
  let G := fresh "G" in
  let cg := fresh "cg" in
  let gs := fresh "gs" in
  unfold augment_gaiadr2 in B;
  apply obind_Return_inv in B; destruct B as (g & G & B);
  apply obind_Return_inv in B; destruct B as (bp_rp & BP & B);
  apply obind_Return_inv in B; destruct B as (Cstar & CS & B);
  apply obind_Return_inv in B; destruct B as (g' & GC & B);
  np_inv BP n; np_inv CS n; rewrite BP in CS;
  apply col_inv in G; destruct G as (cg & Gg & ->);
  destruct cg as [gs| | |]; try (cbv in GC; discriminate);
  change (VCol (NumCol gs)) with (varr gs) in GC; rewrite gcorr_map in GC;
  injection GC as <-; unfold varr in B;
  assert (Hg : entry (VCol (NumCol (map g_correction gs))) n
               = option_map g_correction (cell "Gmag" cat n))
    by (unfold cell; rewrite Gg; simpl; apply nth_error_map).

Section GaiaDR2Fits.
Context {A : Type} {HS : Scalar A} {HL : @ScalarLaws A HS}.
Variable svc : @Services A.



End GaiaDR2Fits.



(* ================================================================== *)
(** ** A column the augmentation reads is not there *)

Section Raises.
Context {A : Type} `{Scalar A}.
Local Open Scope np_scope.

Lemma col_missing k (t : @Table A) :
  Dict.get k (columns t) = None -> col k t = Raise KeyError.
Proof. unfold col. now intros ->. Qed.

Lemma lift2_raise_l op (e1 e2 : @expr A) t x :
  e1 t = Raise x -> lift2 op e1 e2 t = Raise x.
Proof. unfold lift2. now intros ->. Qed.

Lemma lift2_raise_r op (e1 e2 : @expr A) t x :
  yields_array e1 t \/ yields_number e1 t -> e2 t = Raise x -> lift2 op e1 e2 t = Raise x.
Proof. unfold lift2. intros [(l & ->) | (a & ->)] ->; reflexivity. Qed.

Lemma polyval_raise p (e : @expr A) t x : e t = Raise x -> polyval p e t = Raise x.
Proof. unfold polyval. now intros ->. Qed.

Lemma setitem_raise name (e : @expr A) t x : e t = Raise x -> setitem name e t = Raise x.
Proof. unfold setitem. now intros ->. Qed.

Lemma block_raise (s : @Table A -> outcome (@Table A)) l t x :
  s t = Raise x -> block (s :: l) t = Raise x.
Proof. intros S. unfold block. simpl. rewrite S. apply fold_obind_Raise. Qed.

(** A copy [cat[name] = cat[k]] of a column that is there. *)
Lemma setitem_copy name k (t : @Table A) c :
  Dict.get k (columns t) = Some c ->
  setitem name (col k) t = Return (mkTable (Dict.set name c (columns t)) (meta t)).
Proof. intros G. unfold setitem, col. now rewrite G. Qed.

End Raises.

(** The expression raises [KeyError] at the first column that is not
    there. *)
Ltac np_raise :=
  solve
    [ apply col_missing; assumption
    | apply polyval_raise; np_raise
    | apply lift2_raise_l; np_raise
    | apply lift2_raise_r; [first [left; np_kind | right; np_kind] | np_raise] ].

(** Run an assignment of an array in a block that is going to raise,
    carrying the fact [M] that a column is missing along. *)
Ltac run_array_missing M :=
  match goal with
  | N : Forall (fun k => numeric k ?t) _
    |- block (setitem ?name ?e :: ?l) ?t = Raise _ =>
      let t1 := fresh "t" in
      let S := fresh "S" in
      let N1 := fresh "N" in
      let Y := fresh "Y" in
      let F := fresh "F" in
      assert (Y : yields_array e t) by np_kind;
      destruct (setitem_array name Y) as (t1 & S & N1);
      specialize (N1 _ N); rewrite block_step with (1 := S);
      match type of M with
      | Dict.get ?k _ = None =>
          pose proof (@setitem_frame _ name e t t1 k S eq_refl) as F;
          rewrite <- F in M; clear F
      end;
      clear S N Y
  end.

Section Missing.
Context {A : Type} `{Scalar A}.
Local Open Scope np_scope.

Lemma augment_ps1_missing (t : @Table A) :
  Forall (fun k => numeric k t \/ Dict.get k (columns t) = None)
    ["gmag"; "rmag"; "imag"; "zmag"] ->
  Exists (fun k => Dict.get k (columns t) = None) ["gmag"; "rmag"; "imag"; "zmag"] ->
  augment_ps1 t = Raise KeyError.
Proof.
  intros F E. unfold augment_ps1.
  inversion F as [|? ? Kg F1]; subst. inversion F1 as [|? ? Kr F2]; subst.
  inversion F2 as [|? ? Ki F3]; subst. inversion F3 as [|? ? Kz _]; subst.
  clear F F1 F2 F3.
  destruct Kg as [Ng | Mg]; [|apply block_raise, setitem_raise; np_raise].
  assert (N1 : Forall (fun k => numeric k t) ["gmag"]) by (repeat constructor; assumption).
  destruct Kr as [Nr | Mr]; [|apply block_raise, setitem_raise; np_raise].
  assert (N2 : Forall (fun k => numeric k t) ["gmag"; "rmag"])
    by (repeat constructor; assumption).
  destruct Ki as [Ni | Mi]; [|apply block_raise, setitem_raise; np_raise].
  assert (N : Forall (fun k => numeric k t) ["gmag"; "rmag"; "imag"])
    by (repeat constructor; assumption).
  clear N1 N2.
  destruct Kz as [Nz | Mz].
  - exfalso.
    repeat match goal with
           | X : Exists _ _ |- _ => inversion X; clear X; subst
           end;
      match goal with
      | M : Dict.get ?k _ = None, Y : numeric ?k _ |- _ =>
          destruct Y as (? & Y); congruence
      end.
  - run_array_missing Mz. run_array_missing Mz. run_array_missing Mz.
    apply block_raise, setitem_raise; np_raise.
Qed.

Lemma augment_skymapper_missing (t : @Table A) :
  Exists (fun k => Dict.get k (columns t) = None)
    ["uPSF"; "gPSF"; "rPSF"; "iPSF"; "zPSF"] ->
  augment_skymapper t = Raise KeyError.
Proof.
  intros E. unfold augment_skymapper. cbn [map String.append].
  assert (Step : forall name k l (t0 : @Table A),
            (forall c, Dict.get k (columns t0) = Some c ->
                       block l (mkTable (Dict.set name c (columns t0)) (meta t0))
                       = Raise KeyError) ->
            block (setitem name (col k) :: l) t0 = Raise KeyError).
  { intros name k l t0 K. destruct (Dict.get k (columns t0)) as [c|] eqn:G.
    - rewrite block_step with (1 := setitem_copy name k t0 G). now apply K.
    - apply block_raise, setitem_raise, col_missing. exact G. }
  apply Step. intros cu Gu. apply Step. intros cg Gg. apply Step. intros cr Gr.
  apply Step. intros ci Gi. apply Step. intros cz Gz.
  cbn [columns] in *. rewrite ?get_set_other in * by reflexivity.
  exfalso.
  repeat match goal with
         | X : Exists _ _ |- _ => inversion X; clear X; subst
         end; congruence.
Qed.

End Missing.

Section MissingColumn.
Context {A : Type} `{Scalar A}.
Variable svc : @Services A.

(** What a run returns once Vizier has delivered its table. *)
Lemma get_cat_vizier_delivered ra0 dec0 sr0 catalog limit filters extra verbose
      vizier_id name cols (w : @trace A) t :
  resolve catalog extra = (vizier_id, name, cols) ->
  delivers svc ra0 dec0 sr0 catalog limit filters extra verbose w t ->
  fst (get_cat_vizier svc ra0 dec0 sr0 catalog limit filters extra verbose w)
  = (t1 <-? fix_radec (set_meta "name" name (set_meta "vizier_id" vizier_id t)) ;;
     t2 <-? augment catalog t1 ;;
     Return (RTable t2)).
Proof.
  intros R D. unfold delivers in D. rewrite R in D.
  rewrite get_cat_vizier_unfold with (1 := R).
  destruct D as [Q1 | (cats1 & Q1 & N1 & Q2)].
  - rewrite Q1. simpl not_one_result. cbv iota. apply finish_cat_fst.
  - rewrite Q1, N1, Q2. simpl not_one_result. cbv iota. apply finish_cat_fst.
Qed.

(** X15.  A column the augmentation reads is not guarded: when the
    table Vizier delivered, after the renaming, lacks one of [gmag],
    [rmag], [imag], [zmag] (for [ps1] and [atlas], the others being
    numeric where present) or one of the five PSF magnitudes (for
    [skymapper]), [get_cat_vizier] raises [KeyError] instead of returning
    the table or [None]. *)
Theorem get_cat_vizier_missing_column ra0 dec0 sr0 catalog limit filters extra verbose
      vizier_id name cols (w : @trace A) t t1 :
  resolve catalog extra = (vizier_id, name, cols) ->
  delivers svc ra0 dec0 sr0 catalog limit filters extra verbose w t ->
  fix_radec (set_meta "name" name (set_meta "vizier_id" vizier_id t)) = Return t1 ->
  ((catalog = "ps1" \/ catalog = "atlas")
   /\ Forall (fun k => numeric k t1 \/ Dict.get k (columns t1) = None)
        ["gmag"; "rmag"; "imag"; "zmag"]
   /\ Exists (fun k => Dict.get k (columns t1) = None) ["gmag"; "rmag"; "imag"; "zmag"])
  \/ (catalog = "skymapper"
      /\ Exists (fun k => Dict.get k (columns t1) = None)
           ["uPSF"; "gPSF"; "rPSF"; "iPSF"; "zPSF"]) ->
  fst (get_cat_vizier svc ra0 dec0 sr0 catalog limit filters extra verbose w)
  = Raise KeyError.
Proof.
  intros R D F K.
  rewrite get_cat_vizier_delivered with (1 := R) (2 := D). rewrite F. simpl obind.
  assert (Aug : augment catalog t1 = Raise KeyError).
  { destruct K as [[[-> | ->] [N E]] | [-> E]].
    - now apply augment_ps1_missing.
    - now apply augment_ps1_missing.
    - now apply augment_skymapper_missing. }
  now rewrite Aug.
Qed.

End MissingColumn.

Lemma get_cat_vizier_missing_column_witness :
  fst (get_cat_vizier (Sample.vizier_has Sample.no_zmag_table)
         10%Q 20%Q (1 # 2)%Q "ps1" (-1) [] [] Quiet [])
  = Raise KeyError.
Proof.
  refine (@get_cat_vizier_missing_column Q _ (Sample.vizier_has Sample.no_zmag_table)
            10%Q 20%Q (1 # 2)%Q "ps1" (-1)%Z [] [] Quiet "II/349/ps1" "PanSTARRS DR1"
            ["*"; "RAJ2000"; "DEJ2000"; "e_RAJ2000"; "e_DEJ2000"] []
            Sample.no_zmag_table _ eq_refl (or_introl eq_refl) eq_refl _).
  left. split; [now left|]. split.
  - do 3 (apply Forall_cons; [left; eexists; reflexivity|]).
    apply Forall_cons; [right; reflexivity | apply Forall_nil].
  - do 3 apply Exists_cons_tl. apply Exists_cons_hd. reflexivity.
Defined.

Section SkybotMore.
Context {A : Type} `{Scalar A}.
Variable svc : @Services A.

(** X16.  What the [try] of [xmatch_skybot] does not cover (lines
    249-259).  An exception of [get_objects_center] is raised to the caller
    before SkyBoT is asked; once SkyBoT has answered, a missing [col_ra]
    or [col_dec] of the objects or a missing [RA] or [DEC] of the answer
    raises [KeyError]; and an exception of [spherical_match] is raised to
    the caller as it is.  None of them gives [None]. *)
Theorem xmatch_skybot_unguarded obj sr time col_ra col_dec col_id (w : @trace A) :
  (forall e,
     get_objects_center svc obj = Raise e ->
     xmatch_skybot svc obj sr time col_ra col_dec col_id w = (Raise e, w))
  /\ (forall ra0 dec0 sr0 xcat,
        get_objects_center svc obj = Return (ra0, dec0, sr0) ->
        skybot_cone_search svc w ra0 dec0 (fadd sr0 (fmul (lit 2.0) sr)) time
        = Return xcat ->
        Dict.get col_ra (columns obj) = None \/ Dict.get col_dec (columns obj) = None
        \/ Dict.get "RA" (columns xcat) = None \/ Dict.get "DEC" (columns xcat) = None ->
        xmatch_skybot svc obj sr time col_ra col_dec col_id w
        = (Raise KeyError,
           w ++ [SkybotConeSearch ra0 dec0 (fadd sr0 (fmul (lit 2.0) sr)) time]))
  /\ (forall ra0 dec0 sr0 xcat o_ra o_dec c_ra c_dec e,
        get_objects_center svc obj = Return (ra0, dec0, sr0) ->
        skybot_cone_search svc w ra0 dec0 (fadd sr0 (fmul (lit 2.0) sr)) time
        = Return xcat ->
        Dict.get col_ra (columns obj) = Some o_ra ->
        Dict.get col_dec (columns obj) = Some o_dec ->
        Dict.get "RA" (columns xcat) = Some c_ra ->
        Dict.get "DEC" (columns xcat) = Some c_dec ->
        spherical_match svc o_ra o_dec c_ra c_dec (fdiv (lit 10) (lit 3600)) = Raise e ->
        fst (xmatch_skybot svc obj sr time col_ra col_dec col_id w) = Raise e).
Proof.
  split; [|split].
  - intros e C. unfold xmatch_skybot, bind, lift. now rewrite C.
  - intros ra0 dec0 sr0 xcat C Q K.
    rewrite xmatch_skybot_unfold with (1 := C). rewrite Q. f_equal.
    unfold getitem.
    destruct (Dict.get col_ra (columns obj)); [|reflexivity].
    destruct (Dict.get col_dec (columns obj)); [|reflexivity].
    destruct (Dict.get "RA" (columns xcat)); [|reflexivity].
    destruct (Dict.get "DEC" (columns xcat)); [|reflexivity].
    exfalso. destruct K as [K | [K | [K | K]]]; discriminate.
  - intros ra0 dec0 sr0 xcat o_ra o_dec c_ra c_dec e C Q G1 G2 G3 G4 M.
    rewrite xmatch_skybot_unfold with (1 := C). rewrite Q.
    unfold getitem. rewrite G1, G2, G3, G4. simpl. now rewrite M.
Qed.

End SkybotMore.

Lemma xmatch_skybot_unguarded_witness :
  xmatch_skybot (Sample.world (Return None) (Return None) (Return Sample.ephemeris))
    Sample.one_object (10 / 3600)%Q None "alpha" "dec" "id" []
  = (Raise KeyError, [] ++ [SkybotConeSearch 0%Q 0%Q (fadd 1%Q (fmul (lit 2.0) (10 / 3600)%Q)) None]).
Proof.
  exact (proj1 (proj2 (@xmatch_skybot_unguarded Q _
                         (Sample.world (Return None) (Return None) (Return Sample.ephemeris))
                         Sample.one_object (10 / 3600)%Q None "alpha" "dec" "id" []))
               0%Q 0%Q 1%Q Sample.ephemeris eq_refl eq_refl (or_introl eq_refl)).
Defined.

Section ObjectsAndNed.
Context {A : Type} `{Scalar A}.
Variable svc : @Services A.

(** X17.  [xmatch_objects] and [get_cat_vizier] resolve a catalogue
    alike (lines 68-77 and 223-226): the identifier [xmatch_objects] sends
    to XMatch, after [vizier:], is the catalogue of the first request
    [get_cat_vizier] sends to Vizier for the same [catalog]; and
    [xmatch_objects] makes this one query and returns or raises what it
    gives. *)
Theorem xmatch_objects_same_catalogue obj catalog sr col_ra col_dec (w : @trace A)
      ra0 dec0 sr0 limit filters extra verbose (w' : @trace A) :
  exists id q rest,
    vizier_queries
      (snd (get_cat_vizier svc ra0 dec0 sr0 catalog limit filters extra verbose w'))
    = vizier_queries w' ++ q :: rest
    /\ req_catalog q = id
    /\ xmatch_objects svc obj catalog sr col_ra col_dec w
       = (match xmatch_query svc w obj (String.append "vizier:" id) sr col_ra col_dec with
          | Return xcat => Return (RTable xcat)
          | Raise e => Raise e
          end,
          w ++ [XMatchQuery obj (String.append "vizier:" id) sr col_ra col_dec]).
Proof.
  destruct (resolve catalog extra) as [[vizier_id name] cols] eqn:R.
  destruct (@get_cat_vizier_first_request _ _ svc ra0 dec0 sr0 catalog limit filters extra
              verbose vizier_id name cols w' R) as (rest & V).
  exists vizier_id. eexists. exists rest. split; [exact V|]. split; [reflexivity|].
  unfold xmatch_objects, bind, call, ret.
  assert (I : vizier_id
              = match Dict.get catalog catalogs with Some d => vizier d | None => catalog end).
  { unfold resolve in R. destruct (Dict.get catalog catalogs); now injection R as <- _ _. }
  rewrite <- I.
  now destruct (xmatch_query svc w obj _ sr col_ra col_dec).
Qed.

(** X18.  For a table of objects with at least one row,
    [xmatch_ned] raises [KeyError] without asking NED anything when the
    table has no column [col_ra], or has a numeric, non-empty [col_ra]
    and no column [col_dec] (line 287). *)
Theorem xmatch_ned_missing_coordinates obj sr col_ra col_dec col_id (w : @trace A) :
  0 < len obj ->
  Dict.get col_ra (columns obj) = None
  \/ (exists ra ras, Dict.get col_ra (columns obj) = Some (NumCol (ra :: ras))
                     /\ Dict.get col_dec (columns obj) = None) ->
  xmatch_ned svc obj sr col_ra col_dec col_id w = (Raise KeyError, w).
Proof.
  intros L K. unfold xmatch_ned, bind.
  destruct (len obj) as [|n] eqn:E; [lia|].
  cbn [seq]. rewrite ned_loop_cons. unfold row_item, getitem.
  destruct K as [-> | (ra & ras & -> & ->)]; reflexivity.
Qed.

End ObjectsAndNed.

Lemma xmatch_ned_missing_coordinates_witness :
  xmatch_ned (Sample.world (Return None) (Return None) (Raise RuntimeError))
    Sample.two_objects (3 / 3600)%Q "ra" "delta" "id" []
  = (Raise KeyError, []).
Proof.
  refine (@xmatch_ned_missing_coordinates Q
            (Sample.world (Return None) (Return None) (Raise RuntimeError))
            Sample.two_objects (3 / 3600)%Q "ra" "delta" "id" [] _ _).
  - exact (Nat.lt_0_succ 1).
  - right. exists 0%Q, [1%Q]. split; reflexivity.
Defined.

(* ================================================================== *)
(** ** SkyBoT: the identifiers written into the answer *)

Section IndexedAssignment.
Context {A : Type} `{Scalar A}.

Lemma set_set_same (V : Type) k (v v' : V) d :
  Dict.set k v (Dict.set k v' d) = Dict.set k v d.
Proof.
  induction d as [|[k0 v0] d IH]; simpl.
  - now rewrite String.eqb_refl.
  - destruct (String.eqb k k0) eqn:E; simpl.
    + now rewrite String.eqb_refl.
    + rewrite E. now rewrite IH.
Qed.

Lemma update_spec {X} (l : list X) : forall i x l',
  update l i x = Some l' ->
  List.length l' = List.length l
  /\ nth_error l' i = Some x
  /\ forall j, j <> i -> nth_error l' j = nth_error l j.
Proof.
  induction l as [|y l IH]; intros [|i] x l'; simpl; try discriminate.
  - intros [= <-]. repeat split. intros [|j] N; [congruence | reflexivity].
  - destruct (update l i x) as [r|] eqn:U; simpl; [|discriminate].
    intros [= <-]. destruct (IH _ _ _ U) as (L & N & O).
    simpl. repeat split; auto. intros [|j] Nj; simpl; auto.
Qed.

(** [c[idx] = vals]: the length stays, the entries outside [idx] stay,
    and an entry named in [idx] gets the value of its last mention. *)
Lemma put_spec : forall idx vals (l l' : list (@scalar A)),
  put l idx vals = Return l' ->
  List.length idx = List.length vals
  /\ List.length l' = List.length l
  /\ (forall j, ~ In j idx -> nth_error l' j = nth_error l j)
  /\ (forall k j,
        nth_error idx k = Some j ->
        (forall k', k < k' -> nth_error idx k' <> Some j) ->
        exists v, nth_error vals k = Some v /\ nth_error l' j = Some v).
Proof.
  induction idx as [|i idx IH]; intros [|v vals] l l'; simpl; try discriminate.
  - intros [= <-]. repeat split; auto. intros [|k] j; discriminate.
  - destruct (update l i v) as [l1|] eqn:U; [|discriminate]. intros P.
    apply update_spec in U. destruct U as (L1 & N1 & O1).
    destruct (IH _ _ _ P) as (L & L' & Out & In').
    split; [now f_equal|]. split; [congruence|]. split.
    + intros j N. rewrite Out by tauto. apply O1. intros ->. tauto.
    + intros [|k] j; simpl.
      * intros [= ->] Last. exists v. split; auto.
        rewrite Out; auto.
        intros I. apply In_nth_error in I. destruct I as (k' & I).
        apply (Last (S k')); [lia | exact I].
      * intros I Last. apply In'; auto.
        intros k' Lt. apply (Last (S k')). lia.
Qed.

Lemma take_spec (c : @column A) : forall idx vals,
  take c idx = Return vals ->
  List.length vals = List.length idx
  /\ forall k i, nth_error idx k = Some i ->
                 exists s, col_item c i = Some s /\ nth_error vals k = Some s.
Proof.
  induction idx as [|i idx IH]; intros vals; simpl.
  - intros [= <-]. split; auto. intros [|k] i; discriminate.
  - destruct (col_item c i) as [s|] eqn:C; [|discriminate].
    destruct (take c idx) as [r|] eqn:T; [|discriminate].
    intros [= <-]. destruct (IH _ eq_refl) as (L & N).
    split; [simpl; now f_equal|].
    intros [|k] j; simpl.
    + intros [= <-]. eauto.
    + apply N.
Qed.

(** Lines 262-265 on a successful run. *)
Lemma annotate_inv (obj xcat xcat' : @Table A) col_id oidx cidx :
  annotate obj xcat col_id oidx cidx = Return xcat' ->
  exists ids vals cells,
    Dict.get col_id (columns obj) = Some ids
    /\ col_item ids 0 <> None
    /\ (len xcat =? 0) = false
    /\ take ids oidx = Return vals
    /\ put (repeat SMasked (len xcat)) cidx vals = Return cells
    /\ xcat' = mkTable (Dict.set col_id (MaskedCol cells) (columns xcat)) (meta xcat).
Proof.
  unfold annotate. intros An.
  apply obind_Return_inv in An. destruct An as (ids & G & An).
  apply obind_Return_inv in An. destruct An as (first & T0 & An).
  apply obind_Return_inv in An. destruct An as (x1 & S & An).
  apply obind_Return_inv in An. destruct An as (vals & T & An).
  apply obind_Return_inv in An. destruct An as (target & G1 & An).
  apply obind_Return_inv in An. destruct An as (cells & P & [= <-]).
  unfold getitem in G. destruct (Dict.get col_id (columns obj)) as [c|] eqn:Gc; [|discriminate].
  injection G as <-.
  unfold setitem, var, to_column in S. simpl in S.
  destruct (len xcat =? 0) eqn:L; [discriminate|]. simpl in S. injection S as <-.
  unfold getitem in G1. simpl in G1. rewrite get_set_same in G1. injection G1 as <-.
  simpl in P. exists c, vals, cells. repeat split; auto.
  - simpl in T0. destruct (col_item c 0); [discriminate|discriminate].
  - simpl. now rewrite set_set_same.
Qed.

End IndexedAssignment.

Section Annotation.
Context {A : Type} `{Scalar A}.
Variable svc : @Services A.

Lemma repeat_nth {X} (x : X) n j : j < n -> nth_error (repeat x n) j = Some x.
Proof.
  revert j. induction n as [|n IH]; intros [|j] L; simpl; try lia; auto.
  apply IH. lia.
Qed.


End Annotation.


(* ================================================================== *)
(** ** apass and skymapper: when the augmentation succeeds *)

Section Copies.
Context {A : Type} `{Scalar A}.
Local Open Scope np_scope.

Lemma setitem_array_explicit name (e : @expr A) t :
  yields_array e t ->
  exists l, setitem name e t
            = Return (mkTable (Dict.set name (NumCol l) (columns t)) (meta t)).
Proof. intros (l & E). exists l. unfold setitem. now rewrite E. Qed.

Lemma contains_get (V : Type) k (d : Dict.t V) :
  Dict.contains k d = true -> exists v, Dict.get k d = Some v.
Proof. unfold Dict.contains. destruct (Dict.get k d); [eauto | discriminate]. Qed.

Lemma numeric_set k name c (t : @Table A) m :
  String.eqb k name = false -> numeric k t ->
  numeric k (mkTable (Dict.set name c (columns t)) m).
Proof.
  intros N (l & G). exists l. simpl. now rewrite get_set_other.
Qed.

Lemma augment_skymapper_returns (t : @Table A) :
  Forall (fun k => Dict.contains k (columns t) = true)
    ["uPSF"; "gPSF"; "rPSF"; "iPSF"; "zPSF"] ->
  exists cat', augment_skymapper t = Return cat'.
Proof.
  intros F. unfold augment_skymapper. cbn [map String.append].
  assert (Step : forall name k l (t0 : @Table A),
            Dict.contains k (columns t0) = true ->
            (forall c, exists cat',
                block l (mkTable (Dict.set name c (columns t0)) (meta t0)) = Return cat') ->
            exists cat', block (setitem name (col k) :: l) t0 = Return cat').
  { intros name k l t0 C K. apply contains_get in C. destruct C as (c & G).
    rewrite block_step with (1 := setitem_copy name k t0 G). apply K. }
  inversion F as [|? ? Cu F1]; subst. inversion F1 as [|? ? Cg F2]; subst.
  inversion F2 as [|? ? Cr F3]; subst. inversion F3 as [|? ? Ci F4]; subst.
  inversion F4 as [|? ? Cz _]; subst.
  apply Step; [exact Cu|]. intros cu.
  apply Step; [cbn [columns]; now apply contains_set|]. intros cg.
  apply Step; [cbn [columns]; now repeat apply contains_set|]. intros cr.
  apply Step; [cbn [columns]; now repeat apply contains_set|]. intros ci.
  apply Step; [cbn [columns]; now repeat apply contains_set|]. intros cz.
  now eexists.
Qed.

Lemma augment_apass_returns (t : @Table A) :
  Forall (fun k => numeric k t) ["g_mag"; "r_mag"; "i_mag"] ->
  Forall (fun k => Dict.contains k (columns t) = true)
    ["e_r_mag"; "e_i_mag"; "Bmag"; "Vmag"] ->
  exists cat', augment_apass t = Return cat'.
Proof.
  intros N F. unfold augment_apass. cbn [map app String.append].
  inversion F as [|? ? Cer F1]; subst. inversion F1 as [|? ? Cei F2]; subst.
  inversion F2 as [|? ? Cb F3]; subst. inversion F3 as [|? ? Cv _]; subst.
  clear F F1 F2 F3.
  assert (Copy : forall name k l (t0 : @Table A),
            Dict.contains k (columns t0) = true ->
            (forall c, exists cat',
                block l (mkTable (Dict.set name c (columns t0)) (meta t0)) = Return cat') ->
            exists cat', block (setitem name (col k) :: l) t0 = Return cat').
  { intros name k l t0 C K. apply contains_get in C. destruct C as (c & G).
    rewrite block_step with (1 := setitem_copy name k t0 G). apply K. }
  assert (Fit : forall name e l (t0 : @Table A),
            yields_array e t0 ->
            (forall c, exists cat',
                block l (mkTable (Dict.set name c (columns t0)) (meta t0)) = Return cat') ->
            exists cat', block (setitem name e :: l) t0 = Return cat').
  { intros name e l t0 Y K. destruct (setitem_array_explicit name Y) as (c & S).
    rewrite block_step with (1 := S). apply K. }
  apply Fit; [np_kind|]. intros c1.
  apply Copy; [cbn [columns]; now repeat apply contains_set|]. intros c2.
  apply Fit.
  { assert (N' : Forall (fun k => numeric k
                           (mkTable (Dict.set "e_Rmag" c2 (Dict.set "Rmag" c1 (columns t)))
                              (meta t)))
                   ["g_mag"; "r_mag"; "i_mag"]).
    { inversion N as [|? ? Ng N1]; subst. inversion N1 as [|? ? Nr N2]; subst.
      inversion N2 as [|? ? Ni _]; subst.
      destruct Ng as (lg & Gg). destruct Nr as (lr & Gr). destruct Ni as (li & Gi).
      repeat constructor; eexists; simpl; rewrite !get_set_other by reflexivity;
        eassumption. }
    np_kind. }
  intros c3.
  apply Copy; [cbn [columns]; now repeat apply contains_set|]. intros c4.
  apply Copy; [cbn [columns]; now repeat apply contains_set|]. intros c5.
  apply Copy; [cbn [columns]; now repeat apply contains_set|]. intros c6.
  apply Copy.
  { cbn [columns]. do 5 apply contains_set.
    unfold Dict.contains. now rewrite get_set_same. }
  intros c7.
  apply Copy.
  { cbn [columns]. do 4 apply contains_set.
    unfold Dict.contains. now rewrite get_set_same. }
  intros c8. now eexists.
Qed.

End Copies.

Section ReturnsCopies.
Context {A : Type} `{Scalar A}.
Variable svc : @Services A.

(** X20.  For [apass] and [skymapper], [get_cat_vizier] returns a
    table whenever Vizier delivered one result set that, after the
    renaming, holds the columns the branch reads: [g_mag], [r_mag],
    [i_mag] numeric and [e_r_mag], [e_i_mag], [Bmag], [Vmag] present, or
    the five PSF magnitudes present (of any kind, as they are only
    copied). *)
Theorem get_cat_vizier_returns_copies ra0 dec0 sr0 catalog limit filters extra verbose
      vizier_id name cols (w : @trace A) t t1 :
  resolve catalog extra = (vizier_id, name, cols) ->
  delivers svc ra0 dec0 sr0 catalog limit filters extra verbose w t ->
  fix_radec (set_meta "name" name (set_meta "vizier_id" vizier_id t)) = Return t1 ->
  (catalog = "apass"
   /\ Forall (fun k => numeric k t1) ["g_mag"; "r_mag"; "i_mag"]
   /\ Forall (fun k => Dict.contains k (columns t1) = true)
        ["e_r_mag"; "e_i_mag"; "Bmag"; "Vmag"])
  \/ (catalog = "skymapper"
      /\ Forall (fun k => Dict.contains k (columns t1) = true)
           ["uPSF"; "gPSF"; "rPSF"; "iPSF"; "zPSF"]) ->
  exists cat',
    fst (get_cat_vizier svc ra0 dec0 sr0 catalog limit filters extra verbose w)
    = Return (RTable cat').
Proof.
  intros R D F K.
  rewrite get_cat_vizier_delivered with (1 := R) (2 := D). rewrite F. simpl obind.
  assert (Aug : exists cat', augment catalog t1 = Return cat').
  { destruct K as [[-> [N C]] | [-> C]].
    - now apply augment_apass_returns.
    - now apply augment_skymapper_returns. }
  destruct Aug as (cat' & ->). now exists cat'.
Qed.

End ReturnsCopies.

Lemma get_cat_vizier_returns_copies_witness :
  exists cat',
    fst (get_cat_vizier (Sample.vizier_has Sample.apass_table)
           10%Q 20%Q (1 # 2)%Q "apass" (-1) [] [] Quiet [])
    = Return (RTable cat').
Proof.
  refine (@get_cat_vizier_returns_copies Q _ (Sample.vizier_has Sample.apass_table)
            10%Q 20%Q (1 # 2)%Q "apass" (-1)%Z [] [] Quiet "II/336/apass9" "APASS DR9"
            ["*"; "RAJ2000"; "DEJ2000"; "e_RAJ2000"; "e_DEJ2000"] []
            Sample.apass_table _ eq_refl (or_introl eq_refl) eq_refl _).
  left. split; [reflexivity|]. split.
  - repeat constructor; eexists; reflexivity.
  - repeat constructor.
Defined.
